(** * FFC: monomial transformation and the uflacs integral generator

    A shallow embedding of
    - [ffc/compiler/tensor/monomialtransformation.py]
    - [ffc/uflacs/generation/integralgenerator.py]

    Python objects that are compared by identity ([MonomialIndex] instances)
    live in an explicit heap and are named by their address, so that aliasing
    and in-place mutation are visible.  Python exceptions are the [Raise]
    outcomes of a small error monad. *)

From stdpp Require Import gmap strings list fin_maps sorting.
From Stdlib Require Import ZArith QArith DecimalString.
From Stdlib Require DecimalZ DecimalFacts.
Open Scope Z_scope.

(* ===================================================================== *)
(** * Python preliminaries *)
(* ===================================================================== *)

(** The exceptions the two modules can raise.  [FFCError] is what
    [ffc.common.log.error] / [ffc.log.error] raises after logging its
    message; [MonomialException] is imported from [monomialextraction]. *)
Inductive Exception :=
| MonomialException (msg : string)
| FFCError (msg : string)
| IndexError
| KeyError
| TypeError
| AttributeError
| AssertionError.

Inductive result (A : Type) :=
| Ok (a : A)
| Raise (e : Exception).
Arguments Ok {A} a.
Arguments Raise {A} e.

#[global] Instance result_ret : MRet result := λ A a, Ok a.
#[global] Instance result_bind : MBind result := λ A B f m,
  match m with
  | Ok a => f a
  | Raise e => Raise e
  end.

(** Modelled from the spec: [error] of the FFC log module, which is not part
    of the two files; every error it reports is fatal for the unit being
    processed, so a call raises, with the message it is given. *)
Definition error {A} (msg : string) : result A := Raise (FFCError msg).

(** [range(n)] (a list in Python 2). *)
Definition py_range (n : Z) : list Z := Z.of_nat <$> seq 0 (Z.to_nat n).

(** [l[i]] on a list, negative positions counted from the end. *)
Definition py_getitem {A} (l : list A) (i : Z) : result A :=
  let n := Z.of_nat (length l) in
  let k := if bool_decide (i < 0) then i + n else i in
  if bool_decide (0 ≤ k) then
    match l !! Z.to_nat k with
    | Some x => Ok x
    | None => Raise IndexError
    end
  else Raise IndexError.

(** [str(n)] for an integer. *)
Definition py_str_int (z : Z) : string := NilZero.string_of_int (Z.to_int z).

(** Truth value of an optional list argument: [None] and [[]] are false. *)
Definition py_truthy {A} (l : option (list A)) : bool :=
  match l with
  | None => false
  | Some [] => false
  | Some (_ :: _) => true
  end.

(* ===================================================================== *)
(** * monomialtransformation.py *)
(* ===================================================================== *)

(** ** Index counters (module globals) *)

Record IndexCounters := mkIndexCounters {
  _current_secondary_index : Z;
  _current_internal_index : Z;
  _current_external_index : Z;
}.

Definition next_secondary_index (g : IndexCounters) : IndexCounters * Z :=
  let g' := mkIndexCounters (_current_secondary_index g + 1)
                            (_current_internal_index g)
                            (_current_external_index g) in
  (g', _current_secondary_index g' - 1).

Definition next_internal_index (g : IndexCounters) : IndexCounters * Z :=
  let g' := mkIndexCounters (_current_secondary_index g)
                            (_current_internal_index g + 1)
                            (_current_external_index g) in
  (g', _current_internal_index g' - 1).

Definition next_external_index (g : IndexCounters) : IndexCounters * Z :=
  let g' := mkIndexCounters (_current_secondary_index g)
                            (_current_internal_index g)
                            (_current_external_index g + 1) in
  (g', _current_external_index g' - 1).

Definition reset_indices (g : IndexCounters) : IndexCounters :=
  mkIndexCounters 0 0 0.

(** ** class MonomialIndex *)

Inductive IndexType := FIXED | PRIMARY | SECONDARY | INTERNAL | EXTERNAL.

#[global] Instance IndexType_eq_dec : EqDecision IndexType.
Proof. solve_decision. Defined.

(** The string constants [MonomialIndex.FIXED] ... [MonomialIndex.EXTERNAL]. *)
Definition IndexType_name (t : IndexType) : string :=
  match t with
  | FIXED => "fixed"
  | PRIMARY => "primary"
  | SECONDARY => "secondary"
  | INTERNAL => "internal"
  | EXTERNAL => "external"
  end.

(** An instance; [index_type = None] is an index without a role yet and
    [index_id = None] one without an id. *)
Record MonomialIndex := mkMonomialIndex {
  index_type : option IndexType;
  index_range : list Z;
  index_id : option Z;
}.

#[global] Instance MonomialIndex_inhabited : Inhabited MonomialIndex :=
  populate (mkMonomialIndex None [] None).

(** [MonomialIndex.__call__]: evaluate the index at the current index lists.
    The last branch evaluates [self.type], an attribute no instance has. *)
Definition MonomialIndex_call (self : MonomialIndex)
    (primary secondary internal external : option (list Z)) : result Z :=
  match index_type self with
  | Some FIXED => py_getitem (index_range self) 0
  | Some PRIMARY =>
      if negb (py_truthy primary)
      then error "Missing index values for primary indices."
      else match index_id self with
           | Some k => py_getitem (default [] primary) k
           | None => Raise TypeError
           end
  | Some SECONDARY =>
      if negb (py_truthy secondary)
      then error "Missing index values for secondary indices."
      else match index_id self with
           | Some k => py_getitem (default [] secondary) k
           | None => Raise TypeError
           end
  | Some INTERNAL =>
      if negb (py_truthy internal)
      then error "Missing index values for internal auxiliary indices."
      else match index_id self with
           | Some k => py_getitem (default [] internal) k
           | None => Raise TypeError
           end
  | Some EXTERNAL =>
      if negb (py_truthy external)
      then error "Missing index values for external auxiliary indices."
      else match index_id self with
           | Some k => py_getitem (default [] external) k
           | None => Raise TypeError
           end
  | None => Raise AttributeError
  end.

(** [MonomialIndex.__str__]. *)
Definition MonomialIndex_str (self : MonomialIndex) : result string :=
  let id := match index_id self with
            | Some k => py_str_int k
            | None => "None"
            end in
  match index_type self with
  | Some FIXED => v ← py_getitem (index_range self) 0; Ok (py_str_int v)
  | Some PRIMARY => Ok ("i_" +:+ id)
  | Some SECONDARY => Ok ("a_" +:+ id)
  | Some INTERNAL => Ok ("g_" +:+ id)
  | Some EXTERNAL => Ok ("b_" +:+ id)
  | None => Ok "?"
  end.

(** ** The object heap

    Instances of [MonomialIndex] are compared with [==] and [is], which for
    this class is object identity, and are mutated in place by the
    classification loop.  An address is a position in the heap. *)

Definition ref := nat.
Definition Heap := list MonomialIndex.

Definition alloc (h : Heap) (x : MonomialIndex) : Heap * ref :=
  (h ++ [x], length h).

Definition deref (h : Heap) (r : ref) : MonomialIndex := h !!! r.

(** [MonomialIndex.__add__]: a new instance, copy of [self] with the range
    shifted. *)
Definition MonomialIndex_add (h : Heap) (self : ref) (offset : Z) : Heap * ref :=
  let i := deref h self in
  alloc h (mkMonomialIndex (index_type i)
                           ((λ k, offset + k) <$> index_range i)
                           (index_id i)).

(** [MonomialIndex.__sub__]. *)
Definition MonomialIndex_sub (h : Heap) (self : ref) (offset : Z) : Heap * ref :=
  MonomialIndex_add h self (- offset).

(** ** The other monomial classes *)

Definition Restriction := option string.

Record MonomialDeterminant := mkMonomialDeterminant {
  power : Z;
  determinant_restriction : Restriction;
}.

Definition MonomialDeterminant_init : MonomialDeterminant :=
  mkMonomialDeterminant 0 None.

Record MonomialCoefficient := mkMonomialCoefficient {
  coefficient_index : ref;
  number : Z;
}.

Inductive TransformType := J | JINV.

Record MonomialTransform := mkMonomialTransform {
  index0 : ref;
  index1 : ref;
  transform_type : TransformType;
  transform_restriction : Restriction;
  offset : Z;
}.

(** [MonomialTransform.__init__]: a FIXED end point is replaced by a fresh
    instance with the offset subtracted. *)
Definition MonomialTransform_init (h : Heap) (i0 i1 : ref)
    (ty : TransformType) (r : Restriction) (off : Z) : Heap * MonomialTransform :=
  let '(h1, self_index0) :=
    if decide (index_type (deref h i0) = Some FIXED)
    then MonomialIndex_sub h i0 off else (h, i0) in
  let '(h2, self_index1) :=
    if decide (index_type (deref h1 i1) = Some FIXED)
    then MonomialIndex_sub h1 i1 off else (h1, i1) in
  (h2, mkMonomialTransform self_index0 self_index1 ty r off).

(** ** The element provider ([ffc.fem]) and the raw monomial
    ([monomialextraction]), both outside this module *)

Inductive Mapping := AFFINE | CONTRAVARIANT_PIOLA | COVARIANT_PIOLA.

#[global] Instance Mapping_eq_dec : EqDecision Mapping.
Proof. solve_decision. Defined.

(** What [create_element(f.element())] answers.  [component_element c] is
    [(sub_element.mapping(), offset)] of [element.component_element(c)];
    only the mapping of the sub element is ever used. *)
Record FiniteElement := mkFiniteElement {
  value_dimension : Z;
  space_dimension : Z;
  geometric_dimension : Z;
  num_sub_elements : Z;
  component_element : Z → Mapping * Z;
}.

(** UFL indices, the keys of [index_map]; equal when their value, resp.
    their count, is equal. *)
Inductive UFLIndex :=
| FixedIndex (value : Z)
| Index (count : nat).

#[global] Instance UFLIndex_eq_dec : EqDecision UFLIndex.
Proof. solve_decision. Defined.

#[global] Instance UFLIndex_countable : Countable UFLIndex.
Proof.
  refine (inj_countable'
    (λ i, match i with FixedIndex v => inl v | Index c => inr c end)
    (λ s, match s with inl v => FixedIndex v | inr c => Index c end) _).
  by intros [].
Defined.

Inductive UFLFunction :=
| BasisFunction (count : Z)
| Function (count : Z).

Record MonomialFactor := mkMonomialFactor {
  factor_element : FiniteElement;
  factor_function : UFLFunction;
  factor_components : list UFLIndex;
  factor_derivatives : list UFLIndex;
  factor_restriction : Restriction;
}.

Record Monomial := mkMonomial {
  monomial_float_value : Q;
  factors : list MonomialFactor;
}.

Record MonomialBasisFunction := mkMonomialBasisFunction {
  element : FiniteElement;
  index : ref;
  components : list ref;
  derivatives : list ref;
  restriction : Restriction;
}.

(** ** class TransformedMonomial *)

Record TransformedMonomial := mkTransformedMonomial {
  float_value : Q;
  determinant : MonomialDeterminant;
  coefficients : list MonomialCoefficient;
  transforms : list MonomialTransform;
  basis_functions : list MonomialBasisFunction;
}.

(** The state of [TransformedMonomial.__init__] while it iterates over the
    factors: the heap of index instances, the object under construction and
    the local [index_map]. *)
Record InitState := mkInitState {
  st_heap : Heap;
  st_self : TransformedMonomial;
  st_index_map : gmap UFLIndex ref;
}.

Definition append_coefficient (c : MonomialCoefficient)
    (self : TransformedMonomial) : TransformedMonomial :=
  mkTransformedMonomial (float_value self) (determinant self)
    (coefficients self ++ [c]) (transforms self) (basis_functions self).

Definition append_transform (t : MonomialTransform)
    (self : TransformedMonomial) : TransformedMonomial :=
  mkTransformedMonomial (float_value self) (determinant self)
    (coefficients self) (transforms self ++ [t]) (basis_functions self).

Definition append_basis_function (v : MonomialBasisFunction)
    (self : TransformedMonomial) : TransformedMonomial :=
  mkTransformedMonomial (float_value self) (determinant self)
    (coefficients self) (transforms self) (basis_functions self ++ [v]).

(** [self.determinant.power -= 1] *)
Definition decrement_power (self : TransformedMonomial) : TransformedMonomial :=
  mkTransformedMonomial (float_value self)
    (mkMonomialDeterminant (power (determinant self) - 1)
                           (determinant_restriction (determinant self)))
    (coefficients self) (transforms self) (basis_functions self).

(** [TransformedMonomial._extract_components]; [components] accumulates the
    list that is returned. *)
Fixpoint _extract_components (h : Heap) (index_map : gmap UFLIndex ref)
    (cs : list UFLIndex) (vdim : Z) (components : list ref)
    : Heap * gmap UFLIndex ref * list ref :=
  match cs with
  | [] => (h, index_map, components)
  | c :: cs' =>
      let '(h1, index) :=
        match index_map !! c with
        | Some index => (h, index)
        | None =>
            match c with
            | FixedIndex v => alloc h (mkMonomialIndex (Some FIXED) [v] None)
            | Index _ => alloc h (mkMonomialIndex None (py_range vdim) None)
            end
        end in
      _extract_components h1 (<[c := index]> index_map) cs' vdim
                          (components ++ [index])
  end.

(** "Handle non-affine mappings (Piola)": the block guarded by
    [len(components) > 0]; [component] is [components[0]].  Returns the heap,
    the object and the new [components[0]]. *)
Definition handle_piola (h : Heap) (self : TransformedMonomial)
    (f : MonomialFactor) (component : ref)
    : result (Heap * TransformedMonomial * ref) :=
  let element := factor_element f in
  let gdim := geometric_dimension element in
  let component_range := index_range (deref h component) in
  _ ← (if bool_decide (1 < length component_range)%nat then
         first ← py_getitem component_range 0;
         let same := (component_element element first).1 in
         if negb (forallb (λ c, bool_decide ((component_element element c).1 = same))
                          component_range)
         then Raise (MonomialException
                       "Unable to handle different mappings for index range.")
         else Ok ()
       else Ok ());
  first ← py_getitem component_range 0;
  let '(mapping, offset) := component_element element first in
  match mapping with
  | CONTRAVARIANT_PIOLA =>
      let index0 := component in
      let '(h1, fresh) := alloc h (mkMonomialIndex None (py_range gdim) None) in
      let '(h2, index1) := MonomialIndex_add h1 fresh offset in
      let '(h3, transform) :=
        MonomialTransform_init h2 index0 index1 J (factor_restriction f) offset in
      Ok (h3, decrement_power (append_transform transform self), index1)
  | COVARIANT_PIOLA =>
      let '(h1, fresh) := alloc h (mkMonomialIndex None (py_range gdim) None) in
      let '(h2, index0) := MonomialIndex_add h1 fresh offset in
      let index1 := component in
      let '(h3, transform) :=
        MonomialTransform_init h2 index0 index1 JINV (factor_restriction f) offset in
      Ok (h3, append_transform transform self, index0)
  | AFFINE => Ok (h, self, component)
  end.

(** "Extract derivatives / transforms": the loop over [f.derivatives];
    [derivatives] accumulates the local list. *)
Fixpoint extract_derivatives (h : Heap) (self : TransformedMonomial)
    (index_map : gmap UFLIndex ref) (f : MonomialFactor)
    (ds : list UFLIndex) (derivatives : list ref)
    : Heap * TransformedMonomial * gmap UFLIndex ref * list ref :=
  match ds with
  | [] => (h, self, index_map, derivatives)
  | d :: ds' =>
      let gdim := geometric_dimension (factor_element f) in
      let '(h1, index0) := alloc h (mkMonomialIndex None (py_range gdim) None) in
      let '(h2, index1) :=
        match index_map !! d with
        | Some index1 => (h1, index1)
        | None =>
            match d with
            | FixedIndex v => alloc h1 (mkMonomialIndex (Some FIXED) [v] (Some v))
            | Index _ => alloc h1 (mkMonomialIndex None (py_range gdim) None)
            end
        end in
      let index_map' := <[d := index1]> index_map in
      let '(h3, transform) :=
        MonomialTransform_init h2 index0 index1 JINV (factor_restriction f) 0 in
      extract_derivatives h3 (append_transform transform self) index_map' f ds'
                          (derivatives ++ [index0])
  end.

(** One iteration of "Iterate over factors". *)
Definition process_factor (st : InitState) (f : MonomialFactor) : result InitState :=
  let h := st_heap st in
  let self := st_self st in
  let index_map := st_index_map st in
  (* Extract element and dimensions *)
  let element := factor_element f in
  let vdim := value_dimension element in
  let sdim := space_dimension element in
  (* Extract basis function index and coefficients *)
  let '(h, self, vindex) :=
    match factor_function f with
    | BasisFunction count =>
        let '(h, vindex) :=
          alloc h (mkMonomialIndex (Some PRIMARY) (py_range sdim) (Some count)) in
        (h, self, vindex)
    | Function count =>
        let '(h, vindex) := alloc h (mkMonomialIndex None (py_range sdim) None) in
        (h, append_coefficient (mkMonomialCoefficient vindex count) self, vindex)
    end in
  (* Extract components *)
  let '(h, index_map, components) :=
    _extract_components h index_map (factor_components f) vdim [] in
  if bool_decide (1 < length components)%nat then
    Raise (MonomialException "Can only handle rank 0 or rank 1 tensors.")
  else
  (* Handle non-affine mappings (Piola) *)
  '(h, self, components) ←
    match components with
    | component :: tail =>
        '(h, self, c0) ← handle_piola h self f component;
        Ok (h, self, c0 :: tail)
    | [] => Ok (h, self, components)
    end;
  (* Extract derivatives / transforms *)
  let '(h, self, index_map, derivatives) :=
    extract_derivatives h self index_map f (factor_derivatives f) [] in
  (* Create basis function *)
  let v := mkMonomialBasisFunction element vindex components derivatives
                                   (factor_restriction f) in
  Ok (mkInitState h (append_basis_function v self) index_map).

Fixpoint process_factors (st : InitState) (fs : list MonomialFactor)
    : result InitState :=
  match fs with
  | [] => Ok st
  | f :: fs' => st' ← process_factor st f; process_factors st' fs'
  end.

(** [extract_internal_indices]: indices appearing inside the integral. *)
Definition extract_internal_indices (h : Heap) (self : TransformedMonomial)
    (ty : option IndexType) : list ref :=
  let indices :=
    concat ((λ v, [index v] ++ components v ++ derivatives v)
              <$> basis_functions self) in
  filter (λ i, index_type (deref h i) = ty) indices.

(** [extract_external_indices]: indices appearing outside the integral. *)
Definition extract_external_indices (h : Heap) (self : TransformedMonomial)
    (ty : option IndexType) : list ref :=
  let indices :=
    (coefficient_index <$> coefficients self) ++
    (index0 <$> transforms self) ++
    (index1 <$> transforms self) in
  filter (λ i, index_type (deref h i) = ty) indices.

Definition extract_indices (h : Heap) (self : TransformedMonomial)
    (ty : option IndexType) : list ref :=
  extract_internal_indices h self ty ++ extract_external_indices h self ty.

(** [i.index_type = t; i.index_id = k] on the instance at address [i]. *)
Definition set_type_and_id (h : Heap) (i : ref) (t : IndexType) (k : Z) : Heap :=
  <[i := mkMonomialIndex (Some t) (index_range (deref h i)) (Some k)]> h.

(** "Figure out secondary and auxiliary indices": the loop over
    [internal_indices + external_indices]; [todo] is what is left of it. *)
Fixpoint classify_indices (internal_indices external_indices : list ref)
    (todo : list ref) (h : Heap) (g : IndexCounters)
    : result (Heap * IndexCounters) :=
  match todo with
  | [] => Ok (h, g)
  | i :: todo' =>
      (* Skip already visited indices *)
      if bool_decide (index_type (deref h i) ≠ None) then
        classify_indices internal_indices external_indices todo' h g
      else
        let num_internal := length (filter (λ j, j = i) internal_indices) in
        let num_external := length (filter (λ j, j = i) external_indices) in
        if bool_decide (num_internal = 1 ∧ num_external = 1)%nat then
          let '(g', k) := next_secondary_index g in
          classify_indices internal_indices external_indices todo'
                           (set_type_and_id h i SECONDARY k) g'
        else if bool_decide (num_internal = 2 ∧ num_external = 0)%nat then
          let '(g', k) := next_internal_index g in
          classify_indices internal_indices external_indices todo'
                           (set_type_and_id h i INTERNAL k) g'
        else if bool_decide (num_internal = 0 ∧ num_external = 2)%nat then
          let '(g', k) := next_external_index g in
          classify_indices internal_indices external_indices todo'
                           (set_type_and_id h i EXTERNAL k) g'
        else
          s ← MonomialIndex_str (deref h i);
          error ("Summation index does not appear exactly twice: " +:+ s)
  end.

(** What a finished construction leaves behind: the counters, the heap of the
    index instances and the object. *)
Record Transformed := mkTransformed {
  out_counters : IndexCounters;
  out_heap : Heap;
  out_self : TransformedMonomial;
}.

(** [TransformedMonomial.__init__]; [g] holds the module's counters when the
    constructor is entered. *)
Definition TransformedMonomial_init (g : IndexCounters) (monomial : Monomial)
    : result Transformed :=
  (* Reset monomial data *)
  let self := mkTransformedMonomial (monomial_float_value monomial)
                                    MonomialDeterminant_init [] [] [] in
  (* Reset index counters *)
  let g := reset_indices g in
  (* Initialize index map *)
  let index_map : gmap UFLIndex ref := ∅ in
  (* Iterate over factors *)
  st ← process_factors (mkInitState [] self index_map) (factors monomial);
  (* Figure out secondary and auxiliary indices *)
  let internal_indices := extract_internal_indices (st_heap st) (st_self st) None in
  let external_indices := extract_external_indices (st_heap st) (st_self st) None in
  '(h, g) ← classify_indices internal_indices external_indices
                             (internal_indices ++ external_indices) (st_heap st) g;
  Ok (mkTransformed g h (st_self st)).

(** [transform_monomial_form] on the monomials of a form, in order: each is
    replaced by its [TransformedMonomial]. *)
Fixpoint transform_monomials (g : IndexCounters) (ms : list Monomial)
    : result (IndexCounters * list Transformed) :=
  match ms with
  | [] => Ok (g, [])
  | m :: ms' =>
      t ← TransformedMonomial_init g m;
      '(g', ts) ← transform_monomials (out_counters t) ms';
      Ok (g', t :: ts)
  end.

(** [extract_unique_indices]: [index in indices] compares instances with
    [==], that is by identity. *)
Definition extract_unique_indices (h : Heap) (self : TransformedMonomial)
    (ty : option IndexType) : list ref :=
  foldl (λ indices index,
           if bool_decide (index ∉ indices) then indices ++ [index] else indices)
        [] (extract_indices h self ty).

(* ===================================================================== *)
(** * integralgenerator.py *)
(* ===================================================================== *)

(** ** The target language [self.backend.language]

    The node classes of the language module are constructors; what the
    generator passes to them is kept as it is passed.  A loop or scope body
    that is one statement is the one-element list. *)

#[local] Set Warnings "-register-all".

Inductive CExpr :=
| Symbol (name : string)
| LiteralFloat (value : Q)
| LiteralInt (value : Z)
| ArrayAccess (array : CExpr) (subscript : CExpr)
| Product (factors : list CExpr)
| FlattenedIndices (indices : list CExpr) (shape : list Z)
| Call (function : string) (arguments : list CExpr).

Inductive CStatement :=
| Comment (text : string)
| Assign (lhs rhs : CExpr)
| AssignAdd (lhs rhs : CExpr)
| VerbatimStatement (code : string)
| ArrayDecl (typename : string) (symbol : CExpr) (sizes : list Z)
            (values : option (list Q)) (alignment : Z)
| Scope (body : list CStatement)
| ForRange (index : CExpr) (begin : CExpr) (end_ : CExpr) (body : list CStatement)
| StatementList (statements : list CStatement).

(** Modelled from the spec: [commented_code_list] of the language module,
    which is not part of the two files.  The comments are put in front of the
    code when there is any code (the generator says of its calls "Add leading
    comment if there are any tables"), and an empty list stays empty, so that
    an empty body emits nothing. *)
Definition commented_code_list (code : list CStatement) (comments : list string)
    : list CStatement :=
  match code with
  | [] => []
  | _ :: _ => (Comment <$> comments) ++ code
  end.

(** [product] of the UFL library: the product of the entries, 1 for an
    empty sequence. *)
Definition product (sequence : list Z) : Z := foldl Z.mul 1 sequence.

(** ** The intermediate representation [self.ir] *)

Inductive Partition := piecewise | varying.

Definition Partition_name (p : Partition) : string :=
  match p with
  | piecewise => "piecewise"
  | varying => "varying"
  end.

(** One entry of a dof block: [(ma_indices, factor_index, table_ranges,
    unames, ttypes)]. *)
Record Contribution := mkContribution {
  ma_indices : list Z;
  factor_index : Z;
  contribution_table_ranges : list (Z * Z);
  unames : list string;
  ttypes : list string;
}.

(** A dof block, the key of [block_contributions[partition]]: one
    [(begin, end)] per axis. *)
Definition DofBlock := list (Z * Z).

(** A precomputed table: shape and values. *)
Record Table := mkTable {
  table_shape : list Z;
  table_values : list Q;
}.

Section Generator.

(** UFL expression nodes and analysed modified terminals are objects of
    other modules; nodes are dictionary keys. *)
Context {Expr MT : Type} `{Countable Expr}.

(** What the generator asks of a UFL node and of
    [ffc.uflacs.analysis.modified_terminals]. *)
Record UFL := mkUFL {
  is_modified_terminal : Expr → bool;
  analyse_modified_terminal : Expr → MT;
  terminal : MT → Expr;
  ufl_operands : Expr → list Expr;
  _ufl_handler_name_ : Expr → string;
  (* isinstance(v, Condition) *)
  is_Condition : Expr → bool;
  (* v._ufl_is_literal_ and float(v) == 1.0 *)
  is_literal_one : Expr → bool;
}.

Record ExprIR := mkExprIR {
  need_weights : bool;
  need_points : bool;
  unique_tables : gmap string Table;
  V : list Expr;
  modified_arguments : list MT;
  block_contributions : Partition → gmap DofBlock (list Contribution);
  active : Partition → list bool;
  table_ranges : list (Z * Z);
}.

Record IR := mkIR {
  expr_irs : gmap Z ExprIR;
  integral_type : string;
  (* num_points -> (points, weights), the points one row per point *)
  quadrature_rules : gmap Z (list (list Q) * list Q);
  alignas : Z;
  tensor_shape : list Z;
}.

(** The backend plugin: [symbols], [access], [definitions],
    [ufl_to_language], and [str] on a node of its language. *)
Record Backend := mkBackend {
  language_str : CExpr → string;
  element_tensor : CExpr;
  weights_array : Z → CExpr;
  points_array : Z → CExpr;
  quadrature_loop_index : Z → CExpr;
  num_quadrature_points : Z → CExpr;
  argument_loop_index : Z → CExpr;
  access : Expr → MT → Z * Z → Z → CExpr;
  definitions : Expr → MT → Z * Z → Z → CExpr → list CStatement;
  ufl_to_language : Expr → list CExpr → CExpr;
}.

(** ** class IntegralGenerator

    [vaccesses] is [None] as long as the attribute has not been set:
    [__init__] does not set it, [generate] does. *)
Record IntegralGenerator := mkIntegralGenerator {
  ir : IR;
  backend : Backend;
  _ufl_names : gset string;
  vaccesses : option (gmap Z (gmap Expr CExpr));
}.

Definition IntegralGenerator_init (ir : IR) (backend : Backend) : IntegralGenerator :=
  mkIntegralGenerator ir backend ∅ None.

Variable ufl : UFL.

(** [d[k]] on a dictionary. *)
Definition dict_getitem `{Countable K} {A} (d : gmap K A) (k : K) : result A :=
  match d !! k with
  | Some x => Ok x
  | None => Raise KeyError
  end.

(** [l[i]] for a position that is a loop counter. *)
Definition list_getitem {A} (l : list A) (i : nat) : result A :=
  match l !! i with
  | Some x => Ok x
  | None => Raise IndexError
  end.

(** [self.vaccesses[num_points]] *)
Definition get_vaccesses (self : IntegralGenerator) (num_points : Z)
    : result (gmap Expr CExpr) :=
  match vaccesses self with
  | None => Raise AttributeError
  | Some va => dict_getitem va num_points
  end.

(** The in-place updates of one [generate_partition] call, written back. *)
Definition store_vaccesses (self : IntegralGenerator) (num_points : Z)
    (va : gmap Expr CExpr) (names : gset string) : IntegralGenerator :=
  mkIntegralGenerator (ir self) (backend self) names
    (<[num_points := va]> <$> vaccesses self).

(** [sorted(d)] for a dictionary with integer keys. *)
Definition sorted_keys {A} (d : gmap Z A) : list Z :=
  merge_sort Z.le (fst <$> map_to_list d).

(** [generate_tensor_reset] *)
Definition memzero (b : Backend) (ptrname : CExpr) (size : Z) : CStatement :=
  VerbatimStatement
    ("memset(" +:+ language_str b ptrname +:+ ", 0, " +:+ py_str_int size +:+
     " * sizeof(*" +:+ language_str b ptrname +:+ "));").

Definition generate_tensor_reset (self : IntegralGenerator) : list CStatement :=
  (* Compute tensor size *)
  let A := element_tensor (backend self) in
  let A_size := product (tensor_shape (ir self)) in
  (* Stitch it together *)
  let parts := [Comment "Reset element tensor"] in
  if bool_decide (A_size = 1)
  then parts ++ [Assign (ArrayAccess A (LiteralInt 0)) (LiteralFloat 0)]
  else parts ++ [memzero (backend self) A A_size].

(** [generate_quadrature_tables] *)
Definition skip : list string :=
  ["custom"; "cutcell"; "interface"; "overlap"; "vertex"].

Fixpoint quadrature_tables_loop (self : IntegralGenerator) (todo : list Z)
    (parts : list CStatement) : result (list CStatement) :=
  match todo with
  | [] => Ok parts
  | num_points :: todo' =>
      '(points, weights) ← dict_getitem (quadrature_rules (ir self)) num_points;
      if negb (bool_decide (num_points = Z.of_nat (length weights)))
      then Raise AssertionError else
      expr_ir ← dict_getitem (expr_irs (ir self)) num_points;
      (* Generate quadrature weights array *)
      let parts :=
        if need_weights expr_ir then
          let wsym := weights_array (backend self) num_points in
          parts ++ [ArrayDecl "static const double" wsym [num_points]
                              (Some weights) (alignas (ir self))]
        else parts in
      (* pdim = len(points[0]); points.shape is (len(points), pdim) *)
      first_point ← list_getitem points 0;
      let pdim := Z.of_nat (length first_point) in
      if negb (bool_decide (Z.of_nat (length points) = num_points))
      then Raise AssertionError else
      (* Generate quadrature points array *)
      let parts :=
        if bool_decide (pdim ≠ 0) && need_points expr_ir then
          let flattened_points := concat points in
          let psym := points_array (backend self) num_points in
          parts ++ [ArrayDecl "static const double" psym [num_points * pdim]
                              (Some flattened_points) (alignas (ir self))]
        else parts in
      quadrature_tables_loop self todo' parts
  end.

Definition generate_quadrature_tables (self : IntegralGenerator)
    : result (list CStatement) :=
  if bool_decide (integral_type (ir self) ∈ skip) then Ok [] else
  parts ← quadrature_tables_loop self (sorted_keys (quadrature_rules (ir self))) [];
  Ok (commented_code_list parts ["Section for quadrature weights and points"]).

(** [generate_element_tables] *)
Definition sorted_names {A} (d : gmap string A) : list string :=
  merge_sort (λ a b, String.leb a b) (fst <$> map_to_list d).

Definition element_tables_for (self : IntegralGenerator) (num_points : Z)
    (tables : gmap string Table) : list CStatement :=
  if bool_decide (tables ≠ ∅) then
    Comment ("Definitions of " +:+ py_str_int (Z.of_nat (size tables)) +:+
             " tables for " +:+ py_str_int num_points +:+ " quadrature points")
    :: omap (λ name,
         table ← tables !! name;
         Some (ArrayDecl "static const double" (Symbol name) (table_shape table)
                         (Some (table_values table)) (alignas (ir self))))
       (sorted_names tables)
  else [].

Definition generate_element_tables (self : IntegralGenerator) : list CStatement :=
  let parts :=
    concat ((λ num_points,
               match expr_irs (ir self) !! num_points with
               | Some expr_ir => element_tables_for self num_points (unique_tables expr_ir)
               | None => []
               end) <$> sorted_keys (expr_irs (ir self))) in
  commented_code_list parts
    ["Section for precomputed element basis function values";
     "Table dimensions: num_entities, num_points, num_dofs"].

(** [generate_partition]: one iteration of the loop over
    [partition_indices].  The loop state is the dictionary
    [vaccesses = self.vaccesses[num_points]], [self._ufl_names] and the two
    local lists. *)
Record PartitionState := mkPartitionState {
  ps_vaccesses : gmap Expr CExpr;
  ps_ufl_names : gset string;
  ps_definitions : list CStatement;
  ps_intermediates : list CStatement;
}.

(** [[vaccesses[op] for op in v.ufl_operands]] *)
Fixpoint lookup_operands (va : gmap Expr CExpr) (ops : list Expr)
    : result (list CExpr) :=
  match ops with
  | [] => Ok []
  | op :: ops' =>
      a ← dict_getitem va op;
      rest ← lookup_operands va ops';
      Ok (a :: rest)
  end.

Definition generate_partition_step (b : Backend) (symbol : CExpr)
    (V : list Expr) (table_ranges : list (Z * Z)) (num_points : Z)
    (st : PartitionState) (i : nat) : result PartitionState :=
  v ← list_getitem V i;
  if is_modified_terminal ufl v then
    let mt := analyse_modified_terminal ufl v in
    (* Backend specific modified terminal translation *)
    tr ← list_getitem table_ranges i;
    let vaccess := access b (terminal ufl mt) mt tr num_points in
    let vdef := definitions b (terminal ufl mt) mt tr num_points vaccess in
    (* Store definitions of terminals in list *)
    Ok (mkPartitionState (<[v := vaccess]> (ps_vaccesses st)) (ps_ufl_names st)
                         (ps_definitions st ++ vdef) (ps_intermediates st))
  else
    (* Get previously visited operands *)
    vops ← lookup_operands (ps_vaccesses st) (ufl_operands ufl v);
    (* Mapping UFL operator to target language *)
    let names := ps_ufl_names st ∪ {[ _ufl_handler_name_ ufl v ]} in
    let vexpr := ufl_to_language b v vops in
    (* a new intermediate for each subexpression except boolean conditions *)
    let j := if is_Condition ufl v then None
             else Some (length (ps_intermediates st)) in
    match j with
    | Some j =>
        (* Record assignment of vexpr to intermediate variable *)
        let vaccess := ArrayAccess symbol (LiteralInt (Z.of_nat j)) in
        Ok (mkPartitionState (<[v := vaccess]> (ps_vaccesses st)) names
                             (ps_definitions st)
                             (ps_intermediates st ++ [Assign vaccess vexpr]))
    | None =>
        (* Access the inlined expression *)
        let vaccess := vexpr in
        Ok (mkPartitionState (<[v := vaccess]> (ps_vaccesses st)) names
                             (ps_definitions st) (ps_intermediates st))
    end.

Fixpoint generate_partition_loop (b : Backend) (symbol : CExpr)
    (V : list Expr) (table_ranges : list (Z * Z)) (num_points : Z)
    (st : PartitionState) (partition_indices : list nat) : result PartitionState :=
  match partition_indices with
  | [] => Ok st
  | i :: rest =>
      st' ← generate_partition_step b symbol V table_ranges num_points st i;
      generate_partition_loop b symbol V table_ranges num_points st' rest
  end.

(** [[i for i, p in enumerate(partition) if p]] *)
Definition partition_indices (partition : list bool) : list nat :=
  fst <$> filter (λ ip : nat * bool, ip.2 = true) (imap pair partition).

Definition generate_partition (self : IntegralGenerator) (symbol : CExpr)
    (V : list Expr) (partition : list bool) (table_ranges : list (Z * Z))
    (num_points : Z) : result (IntegralGenerator * list CStatement) :=
  vaccesses ← get_vaccesses self num_points;
  st ← generate_partition_loop (backend self) symbol V table_ranges num_points
         (mkPartitionState vaccesses (_ufl_names self) [] [])
         (partition_indices partition);
  let definitions := ps_definitions st in
  let intermediates := ps_intermediates st in
  (* Join terminal computation, array of intermediate expressions,
     and intermediate computations *)
  let parts := [] in
  let parts := if bool_decide (definitions ≠ []) then parts ++ definitions
               else parts in
  let parts :=
    if bool_decide (intermediates ≠ []) then
      (parts ++ [ArrayDecl "double" symbol [Z.of_nat (length intermediates)]
                           None (alignas (ir self))])
      ++ intermediates
    else parts in
  Ok (store_vaccesses self num_points (ps_vaccesses st) (ps_ufl_names st), parts).

(** [generate_unstructured_partition] *)
Definition generate_unstructured_partition (self : IntegralGenerator)
    (num_points : Z) (partition : Partition)
    : result (IntegralGenerator * list CStatement) :=
  expr_ir ← dict_getitem (expr_irs (ir self)) num_points;
  let name := match partition with
              | piecewise => "sp"
              | varying => "sv"
              end in
  let arraysymbol := Symbol (name +:+ py_str_int num_points) in
  '(self, parts) ← generate_partition self arraysymbol (V expr_ir)
                     (active expr_ir partition) (table_ranges expr_ir) num_points;
  Ok (self, commented_code_list parts
              ["Unstructured " +:+ Partition_name partition +:+ " computations"]).

(** [generate_dofblock_partition] *)

(** [[f(x) for x in l]] when [f] may raise. *)
Fixpoint result_map {A B} (f : A → result B) (l : list A) : result (list B) :=
  match l with
  | [] => Ok []
  | x :: l' => y ← f x; ys ← result_map f l'; Ok (y :: ys)
  end.

(** The order of Python tuples of pairs of integers. *)
Definition pair_lt (a b : Z * Z) : bool :=
  bool_decide (a.1 < b.1) || (bool_decide (a.1 = b.1) && bool_decide (a.2 < b.2)).

Fixpoint dofblock_le (a b : DofBlock) : bool :=
  match a, b with
  | [], _ => true
  | _ :: _, [] => false
  | x :: a', y :: b' =>
      pair_lt x y || (bool_decide (x = y) && dofblock_le a' b')
  end.

(** [sorted(d.items())] *)
Definition sorted_items {A} (d : gmap DofBlock A) : list (DofBlock * A) :=
  merge_sort (λ x y, dofblock_le x.1 y.1) (map_to_list d).

(** "Wrap accumulation in loop nest": the loop over
    [range(rank-1, -1, -1)], [todo] being what is left of it. *)
Fixpoint wrap_in_loop_nest (dofblock : DofBlock) (ttypes : list string)
    (A_indices : list CExpr) (todo : list nat) (body : CStatement)
    : result CStatement :=
  match todo with
  | [] => Ok body
  | i :: todo' =>
      tt ← list_getitem ttypes i;
      if bool_decide (tt ≠ "quadrature") then
        dofrange ← list_getitem dofblock i;
        ia ← list_getitem A_indices i;
        wrap_in_loop_nest dofblock ttypes A_indices todo'
          (ForRange ia (LiteralInt dofrange.1) (LiteralInt dofrange.2) [body])
      else wrap_in_loop_nest dofblock ttypes A_indices todo' body
  end.

(** The body of the loop over the contributions of one dof block. *)
Definition dofblock_contribution (self : IntegralGenerator) (expr_ir : ExprIR)
    (vaccesses : gmap Expr CExpr) (num_points : Z) (dofblock : DofBlock)
    (data : Contribution) : result CStatement :=
  let b := backend self in
  let A := element_tensor b in
  (* Add code in layers starting with innermost A[...] += product(factors) *)
  let rank := length (unames data) in
  (* Get factor expression *)
  v ← py_getitem (V expr_ir) (factor_index data);
  factors ← (if negb (is_literal_one ufl v)
             then a ← dict_getitem vaccesses v; Ok [a] else Ok []);
  (* Get loop counter symbols to access A with *)
  A_indices ← result_map (λ i,
      tt ← list_getitem (ttypes data) i;
      if bool_decide (tt = "quadrature")
      then Ok (quadrature_loop_index b num_points)
      else Ok (argument_loop_index b (Z.of_nat i))) (seq 0 rank);
  (* Add table access to factors, unless it's always 1.0 *)
  accesses ← result_map (λ i,
      tt ← list_getitem (ttypes data) i;
      if bool_decide (tt = "zeros") then Raise AssertionError else
      if negb (bool_decide (tt ∈ ["quadrature"; "ones"])) then
        ma ← list_getitem (ma_indices data) i;
        mt ← py_getitem (modified_arguments expr_ir) ma;
        tr ← list_getitem (contribution_table_ranges data) i;
        Ok [access b (terminal ufl mt) mt tr num_points]
      else Ok []) (seq 0 rank);
  let factors := factors ++ concat accesses in
  (* Special case where all factors are 1.0 and dropped *)
  let term := if bool_decide (factors ≠ []) then Product factors
              else LiteralFloat 1 in
  (* Format flattened index expression to access A *)
  let flat_index := FlattenedIndices A_indices (tensor_shape (ir self)) in
  let body := AssignAdd (ArrayAccess A flat_index) term in
  (* Wrap accumulation in loop nest *)
  wrap_in_loop_nest dofblock (ttypes data) A_indices (reverse (seq 0 rank)) body.

Definition generate_dofblock_partition (self : IntegralGenerator)
    (num_points : Z) (partition : Partition) : result (list CStatement) :=
  (* Get representation details *)
  expr_ir ← dict_getitem (expr_irs (ir self)) num_points;
  vaccesses ← get_vaccesses self num_points;
  parts ← result_map (λ item : DofBlock * list Contribution,
              result_map (dofblock_contribution self expr_ir vaccesses
                                                num_points item.1) item.2)
            (sorted_items (block_contributions expr_ir partition));
  Ok (concat parts).

(** [generate_quadrature_loops] *)

(** The body that is to be wrapped: the unstructured varying partition under
    its comment, followed by the varying dof blocks. *)
Definition quadrature_loop_body (self : IntegralGenerator) (num_points : Z)
    : result (IntegralGenerator * list CStatement) :=
  let body := [] in
  (* Generate unstructured varying partition *)
  '(self, parts) ← generate_unstructured_partition self num_points varying;
  let body := body ++ parts in
  let body := commented_code_list body
    ["Quadrature loop body setup (num_points=" +:+ py_str_int num_points +:+ ")"] in
  parts ← generate_dofblock_partition self num_points varying;
  let body := body ++ parts in
  Ok (self, body).

(** "Wrap body in loop or scope" *)
Definition wrap_quadrature_body (b : Backend) (num_points : Z)
    (body : list CStatement) : list CStatement :=
  if bool_decide (body = []) then
    (* Could happen for integral with everything zero and optimized away *)
    []
  else if bool_decide (num_points = 1) then
    (* For now wrapping body in Scope to avoid thinking about scoping issues *)
    commented_code_list [Scope body] ["Only 1 quadrature point, no loop"]
  else
    (* Regular case: define quadrature loop *)
    let iq := quadrature_loop_index b num_points in
    let np := num_quadrature_points b num_points in
    [ForRange iq (LiteralInt 0) np body].

Definition generate_quadrature_loops (self : IntegralGenerator) (num_points : Z)
    : result (IntegralGenerator * list CStatement) :=
  '(self, body) ← quadrature_loop_body self num_points;
  Ok (self, wrap_quadrature_body (backend self) num_points body).

(** [generate_finishing_statements] *)
Definition generate_finishing_statements (self : IntegralGenerator)
    : result (list CStatement) :=
  let parts := [] in
  if bool_decide (integral_type (ir self) = "expression")
  then error "Expression generation not implemented yet."
  else Ok parts.

(** [generate]: the loop over [all_num_points]. *)
Fixpoint generate_loop (self : IntegralGenerator) (all_num_points : list Z)
    (todo : list Z) (parts : list CStatement)
    : result (IntegralGenerator * list CStatement) :=
  match todo with
  | [] => Ok (self, parts)
  | num_points :: todo' =>
      let body := [] in
      '(self, ps) ← generate_unstructured_partition self num_points piecewise;
      let body := body ++ ps in
      ps ← generate_dofblock_partition self num_points piecewise;
      let body := body ++ ps in
      '(self, ps) ← generate_quadrature_loops self num_points;
      let body := body ++ ps in
      (* If there are multiple quadrature rules here, just wrapping in Scope *)
      let parts := if bool_decide (1 < length all_num_points)%nat
                   then parts ++ [Scope body]
                   else parts ++ body in
      generate_loop self all_num_points todo' parts
  end.

(** "Reset variables, separate sets for quadrature loop":
    [self.vaccesses = { num_points: {} for num_points in all_num_points }] *)
Definition reset_vaccesses (self : IntegralGenerator) (all_num_points : list Z)
    : IntegralGenerator :=
  mkIntegralGenerator (ir self) (backend self) (_ufl_names self)
    (Some (list_to_map ((λ num_points, (num_points, ∅)) <$> all_num_points))).

(** [generate]: the entire tabulate_tensor body. *)
Definition generate (self : IntegralGenerator)
    : result (IntegralGenerator * CStatement) :=
  let parts := [] in
  ps ← generate_quadrature_tables self;
  let parts := parts ++ ps in
  let parts := parts ++ generate_element_tables self in
  let parts := parts ++ generate_tensor_reset self in
  let all_num_points := sorted_keys (expr_irs (ir self)) in
  let self := reset_vaccesses self all_num_points in
  '(self, parts) ← generate_loop self all_num_points all_num_points parts;
  ps ← generate_finishing_statements self;
  let parts := parts ++ ps in
  Ok (self, StatementList parts).

(** [get_includes]: the include statements the generated code needs. *)
Definition cmath_names : gset string :=
  list_to_set ["abs"; "sign"; "pow"; "sqrt";
               "exp"; "ln";
               "cos"; "sin"; "tan";
               "acos"; "asin"; "atan"; "atan_2";
               "cosh"; "sinh"; "tanh";
               "acosh"; "asinh"; "atanh";
               "erf"; "erfc"].

Definition boost_math_names : gset string :=
  list_to_set ["bessel_j"; "bessel_y"; "bessel_i"; "bessel_k"].

Definition get_includes (self : IntegralGenerator) : list string :=
  let includes : gset string := ∅ in
  let includes := includes ∪ {[ "#include <cstring>" ]} in
  (* Only return the necessary headers *)
  let includes :=
    if bool_decide (cmath_names ∩ _ufl_names self ≠ ∅)
    then includes ∪ {[ "#include <cmath>" ]} else includes in
  let includes :=
    if bool_decide (boost_math_names ∩ _ufl_names self ≠ ∅)
    then includes ∪ {[ "#include <boost/math/special_functions.hpp>" ]}
    else includes in
  merge_sort (λ a b, String.leb a b) (elements includes).

(** ** Vocabulary for the properties of the generator *)

(** The assignments recorded so far fill the slots 0, 1, 2, ... in order. *)
Definition slots_in_order (symbol : CExpr) (intermediates : list CStatement) : Prop :=
  ∀ (k : nat) (s : CStatement), intermediates !! k = Some s →
    ∃ e, s = Assign (ArrayAccess symbol (LiteralInt (Z.of_nat k))) e.

(** What a call leaves of the generator: the representation and the backend
    are the same, and so is the memo of every other point count. *)
Definition same_except (np : Z) (self self' : IntegralGenerator) : Prop :=
  ir self' = ir self ∧ backend self' = backend self
  ∧ ∀ n, n ≠ np → get_vaccesses self' n = get_vaccesses self n.

(** The operator nodes a partition visits, in the order of the visit. *)
Definition active_operators (V : list Expr) (idxs : list nat) : list Expr :=
  filter (λ v, is_modified_terminal ufl v = false) (omap (λ i, V !! i) idxs).

(** The loops around a statement, outermost first, and the statement they
    enclose. *)
Fixpoint loop_nest (s : CStatement) : list (CExpr * CExpr * CExpr) * CStatement :=
  match s with
  | ForRange i b e [inner] =>
      let '(loops, core) := loop_nest inner in ((i, b, e) :: loops, core)
  | _ => ([], s)
  end.

(** The loop of axis [i] of a dof block, if the axis gets one. *)
Definition axis_loop (b : Backend) (dofblock : DofBlock) (ttypes : list string)
    (i : nat) : option (CExpr * CExpr * CExpr) :=
  tt ← ttypes !! i;
  if bool_decide (tt ≠ "quadrature") then
    dofrange ← dofblock !! i;
    Some (argument_loop_index b (Z.of_nat i),
          LiteralInt dofrange.1, LiteralInt dofrange.2)
  else None.

End Generator.

Arguments UFL : clear implicits.
Arguments Backend : clear implicits.
Arguments ExprIR : clear implicits.
Arguments IR : clear implicits.
Arguments IntegralGenerator Expr MT {_ _}.
Arguments PartitionState Expr {_ _}.

(* ===================================================================== *)
(** * Vocabulary for the properties of the monomial transformation *)
(* ===================================================================== *)

(** The binding array [MonomialIndex.__call__] reads for a role. *)
Definition role_binding (t : IndexType)
    (primary secondary internal external : option (list Z)) : option (list Z) :=
  match t with
  | FIXED => None
  | PRIMARY => primary
  | SECONDARY => secondary
  | INTERNAL => internal
  | EXTERNAL => external
  end.

(** The classification as the specification words it: the role that a pair
    of occurrence counts (internal, external) yields, if any. *)
Definition classification (num_internal num_external : nat) : option IndexType :=
  match num_internal, num_external with
  | 1, 1 => Some SECONDARY
  | 2, 0 => Some INTERNAL
  | 0, 2 => Some EXTERNAL
  | _, _ => None
  end%nat.

(** Number of occurrences of the instance [i] in a footprint. *)
Definition occurrences (l : list ref) (i : ref) : nat :=
  length (filter (λ j, j = i) l).

(** The id a role's counter hands out next. *)
Definition next_id (g : IndexCounters) (t : IndexType) : Z :=
  match t with
  | SECONDARY => _current_secondary_index g
  | INTERNAL => _current_internal_index g
  | EXTERNAL => _current_external_index g
  | _ => 0
  end.

Definition summation_role (t : IndexType) : Prop :=
  t = SECONDARY ∨ t = INTERNAL ∨ t = EXTERNAL.

(** All index occurrences inside, resp. outside, the integral, before the
    footprints are filtered by role. *)
Definition internal_occurrences (self : TransformedMonomial) : list ref :=
  concat ((λ v, [index v] ++ components v ++ derivatives v) <$> basis_functions self).

Definition external_occurrences (self : TransformedMonomial) : list ref :=
  (coefficient_index <$> coefficients self) ++
  (index0 <$> transforms self) ++ (index1 <$> transforms self).

Definition valid (h : Heap) (l : list ref) : Prop :=
  Forall (λ r, (r < length h)%nat) l.

(** Every address the object holds is an address of the heap. *)
Definition self_valid (h : Heap) (self : TransformedMonomial) : Prop :=
  valid h (coefficient_index <$> coefficients self)
  ∧ Forall (λ t, (index0 t < length h)%nat ∧ (index1 t < length h)%nat)
           (transforms self)
  ∧ Forall (λ v, (index v < length h)%nat
                 ∧ valid h (components v) ∧ valid h (derivatives v))
           (basis_functions self).

(** The instance at [r] is a resolution of the UFL index [c]: a FIXED index
    holds the value of the literal, any other one a [range]. *)
Definition resolves (h : Heap) (c : UFLIndex) (r : ref) : Prop :=
  (r < length h)%nat
  ∧ match c with
    | FixedIndex v => index_range (deref h r) = [v]
    | Index _ => ∃ n, index_range (deref h r) = py_range n
    end.

Definition Inv (st : InitState) : Prop :=
  self_valid (st_heap st) (st_self st)
  ∧ map_Forall (λ c r, resolves (st_heap st) c r) (st_index_map st).

(** The value the element provider is asked about for a component. *)
Definition first_component_value (c : UFLIndex) : Z :=
  match c with
  | FixedIndex v => v
  | Index _ => 0
  end.

(** What the Piola block does to the determinant power. *)
Definition power_change (m : Mapping) : Z :=
  match m with
  | CONTRAVARIANT_PIOLA => -1
  | COVARIANT_PIOLA => 0
  | AFFINE => 0
  end.

(** The mapping of the sub element a factor's component belongs to, when the
    factor has exactly one component. *)
Definition factor_mapping (f : MonomialFactor) : option Mapping :=
  match factor_components f with
  | [c] => Some (component_element (factor_element f) (first_component_value c)).1
  | _ => None
  end.

Definition factor_power_change (f : MonomialFactor) : Z :=
  match factor_mapping f with
  | Some m => power_change m
  | None => 0
  end.

Definition initial_state (monomial : Monomial) : InitState :=
  mkInitState []
    (mkTransformedMonomial (monomial_float_value monomial)
                           MonomialDeterminant_init [] [] [])
    ∅.

Definition contravariant_factors (fs : list MonomialFactor) : nat :=
  length (filter (λ f, factor_mapping f = Some CONTRAVARIANT_PIOLA) fs).

Definition RankError : Exception :=
  MonomialException "Can only handle rank 0 or rank 1 tensors.".

(** ** Vocabulary for the further properties *)

(** No instance of the heap has a summation role (yet). *)
Definition unclassified (h : Heap) : Prop :=
  Forall (λ mi, ∀ t, index_type mi = Some t → ¬ summation_role t) h.

(** The value index the factor loop creates for a factor. *)
Definition value_index (f : MonomialFactor) : MonomialIndex :=
  let sdim := space_dimension (factor_element f) in
  match factor_function f with
  | BasisFunction count =>
      mkMonomialIndex (Some PRIMARY) (py_range sdim) (Some count)
  | Function _ => mkMonomialIndex None (py_range sdim) None
  end.

(** The basis function [v] is what the factor loop packages for [f]. *)
Definition packaged (h : Heap) (f : MonomialFactor) (v : MonomialBasisFunction)
    : Prop :=
  (index v < length h)%nat
  ∧ deref h (index v) = value_index f
  ∧ element v = factor_element f
  ∧ restriction v = factor_restriction f
  ∧ length (components v) = length (factor_components f)
  ∧ (length (components v) ≤ 1)%nat
  ∧ length (derivatives v) = length (factor_derivatives f).

(** The coefficient a factor registers, if it is a [Function]. *)
Definition new_coefficients (f : MonomialFactor) (v : MonomialBasisFunction)
    : list MonomialCoefficient :=
  match factor_function f with
  | Function count => [mkMonomialCoefficient (index v) count]
  | BasisFunction _ => []
  end.

(** The number of transforms the Piola block adds for a factor. *)
Definition piola_transforms (f : MonomialFactor) : nat :=
  match factor_mapping f with
  | Some CONTRAVARIANT_PIOLA | Some COVARIANT_PIOLA => 1
  | _ => 0
  end.

(** The ids of the summation roles are consistent with the counters: every
    classified instance has an id below its role's counter, no two
    instances of a role share an id, and every id below a counter is
    taken. *)
Definition ids_consistent (h : Heap) (g : IndexCounters) : Prop :=
  (∀ role, summation_role role → 0 ≤ next_id g role)
  ∧ (∀ r role, summation_role role → index_type (deref h r) = Some role →
       ∃ k, index_id (deref h r) = Some k ∧ 0 ≤ k < next_id g role)
  ∧ (∀ r1 r2 role, summation_role role →
       index_type (deref h r1) = Some role → index_type (deref h r2) = Some role →
       index_id (deref h r1) = index_id (deref h r2) → r1 = r2)
  ∧ (∀ role k, summation_role role → 0 ≤ k < next_id g role →
       ∃ r, index_type (deref h r) = Some role ∧ index_id (deref h r) = Some k).

(** The number of a [Function] factor. *)
Definition coefficient_number (f : MonomialFactor) : option Z :=
  match factor_function f with
  | Function count => Some count
  | BasisFunction _ => None
  end.

(* ===================================================================== *)
(** * Worked instances *)
(* ===================================================================== *)

(** ** Monomials *)

Definition lagrange : FiniteElement :=
  mkFiniteElement 1 3 2 0 (λ _, (AFFINE, 0)).

Definition raviart_thomas : FiniteElement :=
  mkFiniteElement 2 3 2 0 (λ _, (CONTRAVARIANT_PIOLA, 0)).

(** [grad(v) . grad(u)]: two basis functions differentiated in the same free
    direction. *)
Definition laplace_monomial : Monomial :=
  mkMonomial 1
    [mkMonomialFactor lagrange (BasisFunction 0) [] [Index 0] None;
     mkMonomialFactor lagrange (BasisFunction 1) [] [Index 0] None].

(** A third factor differentiated in that direction: the direction index
    then occurs three times outside the integral. *)
Definition cubic_monomial : Monomial :=
  mkMonomial 1
    [mkMonomialFactor lagrange (BasisFunction 0) [] [Index 0] None;
     mkMonomialFactor lagrange (BasisFunction 1) [] [Index 0] None;
     mkMonomialFactor lagrange (Function 0) [] [Index 0] None].

(** [u[i] v[i] w[i]] for three affinely mapped vector fields: the component
    index occurs three times inside the integral. *)
Definition triple_monomial : Monomial :=
  mkMonomial 1
    [mkMonomialFactor (mkFiniteElement 2 6 2 2 (λ _, (AFFINE, 0)))
                      (BasisFunction 0) [Index 0] [] None;
     mkMonomialFactor (mkFiniteElement 2 6 2 2 (λ _, (AFFINE, 0)))
                      (BasisFunction 1) [Index 0] [] None;
     mkMonomialFactor (mkFiniteElement 2 6 2 2 (λ _, (AFFINE, 0)))
                      (Function 0) [Index 0] [] None].

(** [v . u] for two contravariantly mapped vector fields. *)
Definition mass_monomial : Monomial :=
  mkMonomial 1
    [mkMonomialFactor raviart_thomas (BasisFunction 0) [Index 0] [] None;
     mkMonomialFactor raviart_thomas (BasisFunction 1) [Index 0] [] None].

(** Two factors differentiated in the literal direction 0. *)
Definition fixed_direction_monomial : Monomial :=
  mkMonomial 1
    [mkMonomialFactor lagrange (BasisFunction 0) [] [FixedIndex 0] None;
     mkMonomialFactor lagrange (BasisFunction 1) [] [FixedIndex 0] None].

(** A factor with two components. *)
Definition rank2_monomial : Monomial :=
  mkMonomial 1
    [mkMonomialFactor lagrange (BasisFunction 0) [] [] None;
     mkMonomialFactor raviart_thomas (BasisFunction 1) [Index 0; Index 1] [] None].

Definition state_after_factors (m : Monomial) : InitState :=
  match process_factors (initial_state m) (factors m) with
  | Ok st => st
  | Raise _ => initial_state m
  end.

Definition transformed (g : IndexCounters) (m : Monomial) : Transformed :=
  match TransformedMonomial_init g m with
  | Ok t => t
  | Raise _ => mkTransformed g [] (st_self (initial_state m))
  end.

Definition stale_counters : IndexCounters := mkIndexCounters 7 8 9.

(** ** A generator over nodes named by strings *)

(** The nodes: terminals ["x"] and ["y"], the sum ["x+y"], the condition
    ["x<y"] and the conditional ["f"] over both. *)
Definition example_ufl : UFL string string :=
  mkUFL (λ e, bool_decide (e ∈ ["x"; "y"]))
        (λ e, e) (λ mt, mt)
        (λ e, if bool_decide (e ∈ ["x+y"; "x<y"]) then ["x"; "y"]
              else if bool_decide (e = "f") then ["x<y"; "x+y"] else [])
        (λ e, if bool_decide (e = "x+y") then "sum"
              else if bool_decide (e = "x<y") then "lt" else "conditional")
        (λ e, bool_decide (e = "x<y"))
        (λ _, false).

Definition example_backend : Backend string string :=
  mkBackend (λ e, match e with Symbol n => n | _ => "?" end)
            (Symbol "A")
            (λ n, Symbol ("weights" +:+ py_str_int n))
            (λ n, Symbol ("points" +:+ py_str_int n))
            (λ n, Symbol ("iq" +:+ py_str_int n))
            (λ n, LiteralInt n)
            (λ i, Symbol ("ia" +:+ py_str_int i))
            (λ t mt tr n, Symbol ("w_" +:+ mt))
            (λ t mt tr n a, [Assign a (Symbol mt)])
            (λ e ops, Call e ops).

Definition example_expr_ir : ExprIR string string :=
  mkExprIR true true ∅ ["x"; "y"; "x+y"; "x<y"; "f"] ["x"; "y"]
    (λ p, match p with
          | piecewise => ∅
          | varying =>
              {[ [(0, 3)] := [mkContribution [0] 4 [(0, 3)] ["u"] ["full"]] ]}
          end)
    (λ p, match p with
          | piecewise => [true; false; false; false; false]
          | varying => [false; true; true; true; true]
          end)
    [(0, 1); (0, 1); (0, 1); (0, 1); (0, 1)].

Definition example_ir (shape : list Z) : IR string string :=
  mkIR {[ 1 := example_expr_ir; 2 := example_expr_ir ]} "cell"
       {[ 1 := ([[1 # 3; 1 # 3]], [1 # 2]);
          2 := ([[0%Q; 0%Q]; [1%Q; 0%Q]], [1 # 4; 1 # 4]) ]}
       32 shape.

Definition example_generator (shape : list Z) : IntegralGenerator string string :=
  IntegralGenerator_init (example_ir shape) example_backend.

(** The generator when [generate] enters the quadrature loops of a point
    count: memo reset, piecewise partition done. *)
Definition before_quadrature_loops (num_points : Z) : IntegralGenerator string string :=
  match generate_unstructured_partition example_ufl
          (reset_vaccesses (example_generator [3]) [1; 2]) num_points piecewise with
  | Ok (self, _) => self
  | Raise _ => example_generator [3]
  end.

Definition varying_body (num_points : Z) :=
  match quadrature_loop_body example_ufl (before_quadrature_loops num_points)
          num_points with
  | Ok r => r
  | Raise _ => (example_generator [3], [])
  end.

(** ** More monomials *)

(** An element without value components. *)
Definition empty_valued : FiniteElement :=
  mkFiniteElement 0 3 2 0 (λ _, (AFFINE, 0)).

(** A mixed element: component 0 is affinely mapped, components 1 and 2
    belong to a contravariantly mapped sub element at offset 1. *)
Definition mixed : FiniteElement :=
  mkFiniteElement 3 6 2 2
    (λ c, if bool_decide (c < 1) then (AFFINE, 0) else (CONTRAVARIANT_PIOLA, 1)).

Definition free_component_factor (e : FiniteElement) : MonomialFactor :=
  mkMonomialFactor e (BasisFunction 0) [Index 0] [] None.

(** [f v] for a coefficient [f] and a basis function [v]. *)
Definition source_monomial : Monomial :=
  mkMonomial 1
    [mkMonomialFactor lagrange (Function 4) [] [] None;
     mkMonomialFactor lagrange (BasisFunction 0) [] [] None].

(** [v v]: the same argument twice. *)
Definition square_monomial : Monomial :=
  mkMonomial 1
    [mkMonomialFactor lagrange (BasisFunction 0) [] [] None;
     mkMonomialFactor lagrange (BasisFunction 0) [] [] None].

(** ** A generator over a square root *)

(** The nodes: the terminal ["x"] and its square root. *)
Definition sqrt_ufl : UFL string string :=
  mkUFL (λ e, bool_decide (e = "x"))
        (λ e, e) (λ mt, mt)
        (λ e, if bool_decide (e = "sqrt(x)") then ["x"] else [])
        (λ e, if bool_decide (e = "sqrt(x)") then "sqrt" else "zero")
        (λ _, false)
        (λ _, false).

(** The partition in which every node of the example is active. *)
Definition whole_partition :=
  match generate_partition example_ufl
          (reset_vaccesses (example_generator [3]) [1; 2]) (Symbol "s1")
          ["x"; "y"; "x+y"; "x<y"; "f"] [true; true; true; true; true]
          [(0, 1); (0, 1); (0, 1); (0, 1); (0, 1)] 1 with
  | Ok r => r
  | Raise _ => (example_generator [3], [])
  end.

Definition sqrt_partition :=
  match generate_partition sqrt_ufl
          (reset_vaccesses (example_generator [3]) [1; 2]) (Symbol "s1")
          ["x"; "sqrt(x)"] [true; true] [(0, 1); (0, 1)] 1 with
  | Ok r => r
  | Raise _ => (example_generator [3], [])
  end.

(** Representations of other integral types. *)
Definition typed_generator (type : string) : IntegralGenerator string string :=
  IntegralGenerator_init
    (mkIR (expr_irs (example_ir [3])) type (quadrature_rules (example_ir [3]))
          32 [3])
    example_backend.

Definition generated :=
  match generate example_ufl (example_generator [3]) with
  | Ok r => r
  | Raise _ => (example_generator [3], StatementList [])
  end.

(** A contribution of rank two whose second axis is the quadrature axis. *)
Definition quadrature_contribution : Contribution :=
  mkContribution [0; 0] 4 [(0, 3); (0, 1)] ["u"; "q"] ["full"; "quadrature"].

Definition quadrature_contribution_statement : CStatement :=
  match dofblock_contribution example_ufl (example_generator [3]) example_expr_ir
          {[ "f" := Symbol "f" ]} 2 [(0, 3); (0, 1)] quadrature_contribution with
  | Ok s => s
  | Raise _ => Comment "error"
  end.

Definition varying_dofblocks : list CStatement :=
  match generate_dofblock_partition example_ufl (varying_body 1).1 1 varying with
  | Ok parts => parts
  | Raise _ => []
  end.

(* ===================================================================== *)
(** * Properties of index evaluation *)
(* ===================================================================== *)

Lemma py_getitem_error {A} (l : list A) (i : Z) (e : Exception) :
  py_getitem l i = Raise e → e = IndexError.
Proof.
  unfold py_getitem. case_bool_decide; [|congruence].
  destruct (l !! _); congruence.
Qed.

Lemma py_getitem_0_cons {A} (x : A) (l : list A) : py_getitem (x :: l) 0 = Ok x.
Proof. reflexivity. Qed.

Lemma call_missing_binding (self : MonomialIndex) (t : IndexType)
    (p s i e : option (list Z)) :
  index_type self = Some t → t ≠ FIXED →
  py_truthy (role_binding t p s i e) = false →
  ∃ rest, MonomialIndex_call self p s i e =
          Raise (FFCError ("Missing index values for " +:+ IndexType_name t +:+ rest)).
Proof.
  intros Ht Hfix Hb. unfold MonomialIndex_call. rewrite Ht.
  destruct t; simpl in *; try congruence; rewrite Hb; simpl.
  - by exists " indices.".
  - by exists " indices.".
  - by exists " auxiliary indices.".
  - by exists " auxiliary indices.".
Qed.

(** C4: a PRIMARY, SECONDARY, INTERNAL or EXTERNAL index evaluated without
    the binding array of its role fails with the error of [error], whose
    message names the role; a FIXED index evaluates to the first element of
    its range whatever the bindings are. *)
Theorem C4_evaluation_needs_role_binding (self : MonomialIndex)
    (primary secondary internal external : option (list Z)) :
  (∀ t, index_type self = Some t → t ≠ FIXED →
        role_binding t primary secondary internal external = None →
        ∃ rest, MonomialIndex_call self primary secondary internal external =
                Raise (FFCError ("Missing index values for " +:+
                                 IndexType_name t +:+ rest)))
  ∧ (∀ v rest, index_type self = Some FIXED → index_range self = v :: rest →
        MonomialIndex_call self primary secondary internal external = Ok v).
Proof.
  split.
  - intros t Ht Hfix Hb. eapply call_missing_binding; eauto. by rewrite Hb.
  - intros v rest Ht Hr. unfold MonomialIndex_call. by rewrite Ht, Hr.
Qed.

(** C10: for a non-FIXED index, an empty binding list for its role gives the
    same missing-index-values error as no binding at all. *)
Theorem C10_empty_binding_is_missing_binding (self : MonomialIndex) (t : IndexType)
    (p s i e p' s' i' e' : option (list Z)) :
  index_type self = Some t → t ≠ FIXED →
  role_binding t p s i e = Some [] →
  role_binding t p' s' i' e' = None →
  MonomialIndex_call self p s i e = MonomialIndex_call self p' s' i' e'
  ∧ ∃ rest, MonomialIndex_call self p s i e =
            Raise (FFCError ("Missing index values for " +:+
                             IndexType_name t +:+ rest)).
Proof.
  intros Ht Hfix Hb Hb'.
  destruct (call_missing_binding self t p s i e Ht Hfix) as [r Hr];
    [by rewrite Hb|].
  destruct (call_missing_binding self t p' s' i' e' Ht Hfix) as [r' Hr'];
    [by rewrite Hb'|].
  split; [|eauto].
  unfold MonomialIndex_call in *. rewrite Ht in *.
  destruct t; simpl in *; subst; try congruence; reflexivity.
Qed.

(* ===================================================================== *)
(** * The heap *)
(* ===================================================================== *)

Lemma deref_app_l (h e : Heap) (r : ref) :
  (r < length h)%nat → deref (h ++ e) r = deref h r.
Proof. intros. by apply lookup_total_app_l. Qed.

Lemma deref_alloc (h : Heap) (x : MonomialIndex) : deref (h ++ [x]) (length h) = x.
Proof. by apply list_lookup_total_middle. Qed.

Lemma deref_prefix (h h' : Heap) (r : ref) :
  h `prefix_of` h' → (r < length h)%nat → deref h' r = deref h r.
Proof. intros [e ->] ?. by apply deref_app_l. Qed.

Lemma deref_set_eq (h : Heap) (i : ref) (t : IndexType) (k : Z) :
  (i < length h)%nat →
  deref (set_type_and_id h i t k) i =
  mkMonomialIndex (Some t) (index_range (deref h i)) (Some k).
Proof. intros. by apply list_lookup_total_insert_eq. Qed.

Lemma deref_set_ne (h : Heap) (i r : ref) (t : IndexType) (k : Z) :
  i ≠ r → deref (set_type_and_id h i t k) r = deref h r.
Proof. intros. by apply list_lookup_total_insert_ne. Qed.

Lemma length_set (h : Heap) (i : ref) (t : IndexType) (k : Z) :
  length (set_type_and_id h i t k) = length h.
Proof. apply length_insert. Qed.

(* ===================================================================== *)
(** * The classification loop *)
(* ===================================================================== *)

Lemma classification_summation_role (n m : nat) (t : IndexType) :
  classification n m = Some t → summation_role t.
Proof.
  unfold classification, summation_role.
  destruct n as [|[|[|n]]], m as [|[|[|m]]]; naive_solver.
Qed.

(** One iteration of the loop on an index that has no role yet. *)
Lemma classify_indices_untyped (int ext todo : list ref) (i : ref)
    (h : Heap) (g : IndexCounters) :
  index_type (deref h i) = None →
  classify_indices int ext (i :: todo) h g =
  match classification (occurrences int i) (occurrences ext i) with
  | Some t =>
      classify_indices int ext todo (set_type_and_id h i t (next_id g t))
        (match t with
         | SECONDARY => (next_secondary_index g).1
         | INTERNAL => (next_internal_index g).1
         | EXTERNAL => (next_external_index g).1
         | _ => g
         end)
  | None => Raise (FFCError "Summation index does not appear exactly twice: ?")
  end.
Proof.
  intros Hty. simpl. rewrite Hty. rewrite bool_decide_eq_false_2 by naive_solver.
  unfold occurrences, MonomialIndex_str. rewrite Hty.
  destruct (length (filter (λ j, j = i) int)) as [|[|[|n]]],
           (length (filter (λ j, j = i) ext)) as [|[|[|m]]]; simpl;
    repeat case_bool_decide; try lia; try reflexivity;
    f_equal; f_equal; lia.
Qed.

Lemma classify_indices_typed (int ext todo : list ref) (i : ref)
    (h : Heap) (g : IndexCounters) :
  index_type (deref h i) ≠ None →
  classify_indices int ext (i :: todo) h g = classify_indices int ext todo h g.
Proof. intros Hty. simpl. by rewrite bool_decide_eq_true_2. Qed.

(** A successful run keeps the heap's size and every instance that had a role
    or is not in the list; an instance of the list without a role gets the
    role of its counts. *)
Lemma classify_indices_ok (int ext : list ref) :
  ∀ (todo : list ref) (h : Heap) (g : IndexCounters) (h' : Heap) (g' : IndexCounters),
  classify_indices int ext todo h g = Ok (h', g') →
  length h' = length h
  ∧ (∀ r, index_type (deref h r) ≠ None → deref h' r = deref h r)
  ∧ (∀ r, r ∉ todo → deref h' r = deref h r)
  ∧ (∀ i, i ∈ todo → (i < length h)%nat → index_type (deref h i) = None →
       ∃ t, classification (occurrences int i) (occurrences ext i) = Some t
            ∧ index_type (deref h' i) = Some t).
Proof.
  induction todo as [|i todo IH]; intros h g h' g' Hrun.
  - simpl in Hrun. injection Hrun as <- <-.
    repeat split; try done. intros i Hi. by apply elem_of_nil in Hi.
  - destruct (decide (index_type (deref h i) = None)) as [Hty|Hty].
    + rewrite classify_indices_untyped in Hrun by done.
      destruct (classification _ _) as [t|] eqn:Hcl; [|done].
      apply IH in Hrun as (Hlen & Hkeep & Hout & Hrole).
      rewrite length_set in Hlen.
      assert (Hkeep' : ∀ r, index_type (deref h r) ≠ None → deref h' r = deref h r).
      { intros r Hr. assert (i ≠ r) by congruence.
        rewrite Hkeep; rewrite deref_set_ne; done. }
      repeat split; try done.
      * intros r Hr. apply not_elem_of_cons in Hr as [Hne Hr].
        rewrite Hout by done. by apply deref_set_ne.
      * intros j Hj Hvalid Hj0.
        destruct (decide (j = i)) as [->|Hne].
        -- exists t. split; [done|].
           rewrite Hkeep; rewrite deref_set_eq by done; done.
        -- apply elem_of_cons in Hj as [?|Hj]; [done|].
           apply Hrole; [done| by rewrite length_set |].
           by rewrite deref_set_ne.
    + rewrite classify_indices_typed in Hrun by done.
      apply IH in Hrun as (Hlen & Hkeep & Hout & Hrole).
      repeat split; try done.
      * intros r Hr. apply not_elem_of_cons in Hr as [Hne Hr]. by apply Hout.
      * intros j Hj Hvalid Hj0. apply elem_of_cons in Hj as [->|Hj]; [done|].
        by apply Hrole.
Qed.

(** The loop succeeds when every instance of the list without a role has
    counts with a role. *)
Lemma classify_indices_succeeds (int ext : list ref) :
  ∀ (todo : list ref) (h : Heap) (g : IndexCounters),
  (∀ i, i ∈ todo → index_type (deref h i) = None →
        classification (occurrences int i) (occurrences ext i) ≠ None) →
  ∃ h' g', classify_indices int ext todo h g = Ok (h', g').
Proof.
  induction todo as [|i todo IH]; intros h g Hall; [by eexists _, _|].
  destruct (decide (index_type (deref h i) = None)) as [Hty|Hty].
  - rewrite classify_indices_untyped by done.
    destruct (classification _ _) as [t|] eqn:Hcl.
    + apply IH. intros j Hj Hj0. apply Hall; [by right|].
      destruct (decide (i = j)) as [->|Hne]; [done|].
      by rewrite deref_set_ne in Hj0.
    + exfalso. eapply Hall; [by left|done..].
  - rewrite classify_indices_typed by done.
    apply IH. intros j Hj. apply Hall. by right.
Qed.

(** It raises the error of line 323 as soon as one instance of the list
    without a role has counts without a role. *)
Lemma classify_indices_fails (int ext : list ref) :
  ∀ (todo : list ref) (h : Heap) (g : IndexCounters) (i : ref),
  i ∈ todo → index_type (deref h i) = None →
  classification (occurrences int i) (occurrences ext i) = None →
  classify_indices int ext todo h g =
  Raise (FFCError "Summation index does not appear exactly twice: ?").
Proof.
  induction todo as [|j todo IH]; intros h g i Hi Hty Hcl.
  - by apply elem_of_nil in Hi.
  - destruct (decide (index_type (deref h j) = None)) as [Hj|Hj].
    + rewrite classify_indices_untyped by done.
      destruct (classification (occurrences int j) _) as [t|] eqn:Hcj; [|done].
      assert (j ≠ i) by congruence.
      apply elem_of_cons in Hi as [?|Hi]; [done|].
      apply (IH _ _ i); [done| |done]. by rewrite deref_set_ne.
    + rewrite classify_indices_typed by done.
      assert (j ≠ i) by congruence.
      apply elem_of_cons in Hi as [?|Hi]; [done|].
      by apply (IH _ _ i).
Qed.

(** With counters [g], the first instance in the list that ends with a given
    summation role has the id the role's counter held at the start. *)
Lemma classify_indices_first_id (int ext : list ref) (role : IndexType) :
  summation_role role →
  ∀ (pre : list ref) (i : ref) (post : list ref) (h : Heap) (g : IndexCounters)
    (h' : Heap) (g' : IndexCounters),
  classify_indices int ext (pre ++ i :: post) h g = Ok (h', g') →
  Forall (λ r, (r < length h)%nat) (pre ++ i :: post) →
  index_type (deref h i) = None →
  (∀ j, j ∈ pre → index_type (deref h' j) ≠ Some role) →
  index_type (deref h' i) = Some role →
  index_id (deref h' i) = Some (next_id g role).
Proof.
  intros Hrole. induction pre as [|j pre IH];
    intros i post h g h' g' Hrun Hvalid Hty Hpre Hi.
  - change ([] ++ i :: post) with (i :: post) in *.
    rewrite classify_indices_untyped in Hrun by done.
    destruct (classification _ _) as [t|] eqn:Hcl; [|done].
    apply classify_indices_ok in Hrun as (_ & Hkeep & _).
    apply Forall_cons in Hvalid as [Hvi _].
    rewrite Hkeep in Hi |- *; rewrite deref_set_eq in * by done; try done.
    simpl in *. congruence.
  - rewrite <- app_comm_cons in *. apply Forall_cons in Hvalid as [Hvj Hvalid].
    destruct (decide (index_type (deref h j) = None)) as [Hj|Hj].
    + rewrite classify_indices_untyped in Hrun by done.
      destruct (classification _ _) as [t|] eqn:Hcl; [|done].
      pose proof Hrun as Hrun'.
      apply classify_indices_ok in Hrun' as (_ & Hkeep & _).
      assert (Hjt : index_type (deref h' j) = Some t).
      { rewrite Hkeep; rewrite deref_set_eq by done; done. }
      assert (t ≠ role).
      { intros ->. by apply (Hpre j); [left|]. }
      assert (j ≠ i) by congruence.
      eapply IH in Hrun; [| by rewrite length_set | by rewrite deref_set_ne
                          | intros; apply Hpre; by right | done].
      rewrite Hrun. f_equal.
      apply classification_summation_role in Hcl.
      destruct Hcl as [-> | [-> | ->]], Hrole as [-> | [-> | ->]]; done.
    + rewrite classify_indices_typed in Hrun by done.
      eapply IH in Hrun; [done..| intros; apply Hpre; by right | done].
Qed.

(* ===================================================================== *)
(** * The loop over the factors *)
(* ===================================================================== *)

Lemma valid_prefix (h h' : Heap) (l : list ref) :
  h `prefix_of` h' → valid h l → valid h' l.
Proof.
  intros Hp Hl. eapply Forall_impl; [done|]. simpl. intros r Hr.
  apply prefix_length in Hp. lia.
Qed.

Lemma self_valid_prefix (h h' : Heap) (self : TransformedMonomial) :
  h `prefix_of` h' → self_valid h self → self_valid h' self.
Proof.
  intros Hp (Hc & Ht & Hv). pose proof (prefix_length _ _ Hp).
  split; [by eapply valid_prefix|]. split.
  - eapply Forall_impl; [done|]. simpl. intros ? []. lia.
  - eapply Forall_impl; [done|]. simpl. intros ? (? & ? & ?).
    repeat split; [lia|by eapply valid_prefix..].
Qed.

Lemma resolves_prefix (h h' : Heap) (c : UFLIndex) (r : ref) :
  h `prefix_of` h' → resolves h c r → resolves h' c r.
Proof.
  intros Hp [Hr Hc]. pose proof (prefix_length _ _ Hp).
  split; [lia|]. by rewrite (deref_prefix h h').
Qed.

Lemma self_valid_occurrences (h : Heap) (self : TransformedMonomial) :
  self_valid h self →
  valid h (internal_occurrences self) ∧ valid h (external_occurrences self).
Proof.
  intros (Hc & Ht & Hv). unfold valid, internal_occurrences, external_occurrences.
  split.
  - apply Forall_concat, Forall_fmap. eapply Forall_impl; [done|].
    simpl. intros v (? & ? & ?). apply Forall_cons. split; [done|].
    by apply Forall_app.
  - rewrite !Forall_app, !Forall_fmap. split; [by rewrite <- Forall_fmap|].
    split; (eapply Forall_impl; [done|]); simpl; by intros ? [? ?].
Qed.

Lemma prefix_snoc {A} (l : list A) (x : A) : l `prefix_of` l ++ [x].
Proof. by apply prefix_app_r. Qed.

Lemma MonomialTransform_init_spec (h : Heap) (i0 i1 : ref) (ty : TransformType)
    (r : Restriction) (off : Z) (h' : Heap) (t : MonomialTransform) :
  MonomialTransform_init h i0 i1 ty r off = (h', t) →
  (i0 < length h)%nat → (i1 < length h)%nat →
  h `prefix_of` h' ∧ (index0 t < length h')%nat ∧ (index1 t < length h')%nat.
Proof.
  unfold MonomialTransform_init, MonomialIndex_sub, MonomialIndex_add, alloc.
  intros Heq H0 H1.
  repeat case_decide; simplify_eq; simpl; rewrite ?length_app; simpl;
    (split; [|lia]);
    eauto using prefix_snoc, prefix_app_r.
Qed.

Lemma self_valid_append_transform (h : Heap) (self : TransformedMonomial)
    (t : MonomialTransform) :
  self_valid h self → (index0 t < length h)%nat → (index1 t < length h)%nat →
  self_valid h (append_transform t self).
Proof.
  intros (? & ? & ?) ? ?. split_and!; simpl; [done| |done].
  apply Forall_app; split; [done|]. by repeat constructor.
Qed.

Lemma self_valid_decrement_power (h : Heap) (self : TransformedMonomial) :
  self_valid h self → self_valid h (decrement_power self).
Proof. by intros (? & ? & ?). Qed.

Lemma self_valid_append_coefficient (h : Heap) (self : TransformedMonomial)
    (c : MonomialCoefficient) :
  self_valid h self → (coefficient_index c < length h)%nat →
  self_valid h (append_coefficient c self).
Proof.
  intros (? & ? & ?) ?. split_and!; simpl; [|done..].
  unfold valid. rewrite fmap_app. apply Forall_app; split; [done|].
  by repeat constructor.
Qed.

Lemma self_valid_append_basis_function (h : Heap) (self : TransformedMonomial)
    (v : MonomialBasisFunction) :
  self_valid h self → (index v < length h)%nat →
  valid h (components v) → valid h (derivatives v) →
  self_valid h (append_basis_function v self).
Proof.
  intros (? & ? & ?) ? ? ?. split_and!; simpl; [done..|].
  apply Forall_app; split; [done|]. by repeat constructor.
Qed.

Lemma resolves_alloc_fixed (h : Heap) (v : Z) (id : option Z) :
  resolves (h ++ [mkMonomialIndex (Some FIXED) [v] id]) (FixedIndex v) (length h).
Proof.
  split; [rewrite length_app; simpl; lia|]. by rewrite deref_alloc.
Qed.

Lemma resolves_alloc_range (h : Heap) (k : nat) (n : Z) :
  resolves (h ++ [mkMonomialIndex None (py_range n) None]) (Index k) (length h).
Proof.
  split; [rewrite length_app; simpl; lia|]. rewrite deref_alloc. by exists n.
Qed.

(** Resolving one UFL index through [index_map]: what both
    [_extract_components] and the derivative loop do. *)
Lemma resolve_spec (h : Heap) (index_map : gmap UFLIndex ref) (c : UFLIndex)
    (n : Z) (id : Z → option Z) (h1 : Heap) (r : ref) :
  map_Forall (λ c r, resolves h c r) index_map →
  match index_map !! c with
  | Some r => (h, r)
  | None =>
      match c with
      | FixedIndex v => alloc h (mkMonomialIndex (Some FIXED) [v] (id v))
      | Index _ => alloc h (mkMonomialIndex None (py_range n) None)
      end
  end = (h1, r) →
  h `prefix_of` h1 ∧ resolves h1 c r
  ∧ map_Forall (λ c r, resolves h1 c r) (<[c := r]> index_map).
Proof.
  intros Hmap Heq.
  assert (h `prefix_of` h1 ∧ resolves h1 c r) as [Hp Hr].
  { destruct (index_map !! c) as [r'|] eqn:Hc.
    - simplify_eq. split; [done|]. by apply (Hmap c).
    - destruct c; unfold alloc in Heq; simplify_eq;
        eauto using prefix_snoc, resolves_alloc_fixed, resolves_alloc_range. }
  split_and!; [done..|].
  apply map_Forall_insert_2; [done|].
  eapply map_Forall_impl; [done|]. simpl. eauto using resolves_prefix.
Qed.

Lemma _extract_components_spec (vdim : Z) :
  ∀ (cs : list UFLIndex) (h : Heap) (index_map : gmap UFLIndex ref)
    (acc : list ref) (h' : Heap) (index_map' : gmap UFLIndex ref)
    (components : list ref),
  _extract_components h index_map cs vdim acc = (h', index_map', components) →
  map_Forall (λ c r, resolves h c r) index_map →
  h `prefix_of` h'
  ∧ map_Forall (λ c r, resolves h' c r) index_map'
  ∧ ∃ news, components = acc ++ news ∧ Forall2 (resolves h') cs news.
Proof.
  induction cs as [|c cs IH]; intros h im acc h' im' comps Heq Hmap.
  - simpl in Heq. simplify_eq. split_and!; [done..|].
    exists []. by rewrite app_nil_r.
  - simpl in Heq.
    destruct (match im !! c with Some _ => _ | None => _ end) as [h1 r] eqn:Hres.
    apply (resolve_spec _ _ _ _ (λ _, None)) in Hres as (Hp1 & Hr & Hmap1); [|done].
    apply IH in Heq as (Hp & Hmap' & news & -> & Hnews); [|done].
    split_and!; [by etrans|done|].
    exists (r :: news). rewrite <- app_assoc. split; [done|].
    constructor; [|done]. by eapply resolves_prefix.
Qed.

Lemma py_getitem_range_0 (n x : Z) : py_getitem (py_range n) 0 = Ok x → x = 0.
Proof.
  unfold py_getitem, py_range. simpl.
  destruct (Z.to_nat n); simpl; [done|]. by intros [= <-].
Qed.

Lemma resolves_first (h : Heap) (c : UFLIndex) (r : ref) (x : Z) :
  resolves h c r → py_getitem (index_range (deref h r)) 0 = Ok x →
  x = first_component_value c.
Proof.
  intros [_ Hc] Hx. destruct c as [v|k]; simpl.
  - rewrite Hc in Hx. by injection Hx.
  - destruct Hc as [n Hn]. rewrite Hn in Hx. by apply py_getitem_range_0 in Hx.
Qed.

Lemma handle_piola_spec (h : Heap) (self : TransformedMonomial)
    (f : MonomialFactor) (c : UFLIndex) (component : ref)
    (h' : Heap) (self' : TransformedMonomial) (c0 : ref) :
  handle_piola h self f component = Ok (h', self', c0) →
  resolves h c component → self_valid h self →
  h `prefix_of` h' ∧ self_valid h' self' ∧ (c0 < length h')%nat
  ∧ basis_functions self' = basis_functions self
  ∧ power (determinant self') = power (determinant self) +
      power_change (component_element (factor_element f) (first_component_value c)).1.
Proof.
  unfold handle_piola. intros Hrun Hres Hself.
  destruct (if bool_decide _ then _ else _) as [[]|]; [|done]. simpl in Hrun.
  destruct (py_getitem _ 0) as [first|] eqn:Hfirst; [|done]. simpl in Hrun.
  apply (resolves_first _ c) in Hfirst as ->; [|done].
  destruct Hres as [Hvalid _].
  destruct (component_element _ _) as [mapping off]. simpl.
  destruct mapping.
  - simplify_eq. split_and!; [done..|simpl; lia].
  - unfold MonomialIndex_add, alloc in Hrun.
    destruct (MonomialTransform_init _ _ _ _ _ _) as [h3 t] eqn:Ht.
    apply MonomialTransform_init_spec in Ht as (Hp & H0 & H1);
      rewrite ?length_app in *; simpl in *; try lia.
    injection Hrun as <- <- <-.
    assert (h `prefix_of` h3).
    { etrans; [|done]. rewrite <- app_assoc. by apply prefix_app_r. }
    pose proof (prefix_length _ _ Hp) as Hlen.
    rewrite !length_app in Hlen; simpl in Hlen.
    apply (self_valid_prefix _ h3) in Hself; [|done].
    split_and!; simpl; try done; try lia.
    by apply self_valid_decrement_power, self_valid_append_transform.
  - unfold MonomialIndex_add, alloc in Hrun.
    destruct (MonomialTransform_init _ _ _ _ _ _) as [h3 t] eqn:Ht.
    apply MonomialTransform_init_spec in Ht as (Hp & H0 & H1);
      rewrite ?length_app in *; simpl in *; try lia.
    injection Hrun as <- <- <-.
    assert (h `prefix_of` h3).
    { etrans; [|done]. rewrite <- app_assoc. by apply prefix_app_r. }
    pose proof (prefix_length _ _ Hp) as Hlen.
    rewrite !length_app in Hlen; simpl in Hlen.
    apply (self_valid_prefix _ h3) in Hself; [|done].
    split_and!; simpl; try done; try lia.
    by apply self_valid_append_transform.
Qed.

Lemma map_Forall_resolves_prefix (h h' : Heap) (index_map : gmap UFLIndex ref) :
  h `prefix_of` h' →
  map_Forall (λ c r, resolves h c r) index_map →
  map_Forall (λ c r, resolves h' c r) index_map.
Proof.
  intros Hp Hmap. eapply map_Forall_impl; [done|].
  simpl. eauto using resolves_prefix.
Qed.

Lemma extract_derivatives_spec (f : MonomialFactor) :
  ∀ (ds : list UFLIndex) (h : Heap) (self : TransformedMonomial)
    (index_map : gmap UFLIndex ref) (acc : list ref) (h' : Heap)
    (self' : TransformedMonomial) (index_map' : gmap UFLIndex ref)
    (derivatives : list ref),
  extract_derivatives h self index_map f ds acc = (h', self', index_map', derivatives) →
  self_valid h self → map_Forall (λ c r, resolves h c r) index_map → valid h acc →
  h `prefix_of` h' ∧ self_valid h' self'
  ∧ map_Forall (λ c r, resolves h' c r) index_map'
  ∧ valid h' derivatives
  ∧ basis_functions self' = basis_functions self
  ∧ power (determinant self') = power (determinant self).
Proof.
  induction ds as [|d ds IH]; intros h self im acc h' self' im' ders Heq Hself Hmap Hacc.
  - simpl in Heq. by simplify_eq.
  - simpl in Heq. unfold alloc at 1 in Heq.
    set (h1 := h ++ [_]) in Heq.
    assert (Hp1 : h `prefix_of` h1) by apply prefix_snoc.
    assert (Hlen1 : length h1 = S (length h)).
    { unfold h1. rewrite length_app. simpl. lia. }
    destruct (match im !! d with Some _ => _ | None => _ end) as [h2 index1] eqn:Hres.
    apply (resolve_spec _ _ _ _ Some) in Hres as (Hp2 & [Hv1 _] & Hmap2);
      [|by eapply map_Forall_resolves_prefix].
    pose proof (prefix_length _ _ Hp2) as Hlen2.
    destruct (MonomialTransform_init _ _ _ _ _ _) as [h3 t] eqn:Ht.
    apply MonomialTransform_init_spec in Ht as (Hp3 & H0 & H1); [|lia|done].
    pose proof (prefix_length _ _ Hp3) as Hlen3.
    assert (Hp : h `prefix_of` h3) by (etrans; [|done]; by etrans).
    apply IH in Heq as (Hp' & Hself' & Hmap' & Hders & Hbf & Hpow).
    + split_and!; try done. by etrans.
    + apply self_valid_append_transform; [|done..].
      eapply self_valid_prefix; [exact Hp|done].
    + eapply map_Forall_resolves_prefix; [exact Hp3|done].
    + apply Forall_app. split; [eapply valid_prefix; [exact Hp|done]|].
      repeat constructor. lia.
Qed.

Lemma length_extract_components (vdim : Z) :
  ∀ (cs : list UFLIndex) (h : Heap) (index_map : gmap UFLIndex ref) (acc : list ref),
  length (_extract_components h index_map cs vdim acc).2 =
  (length acc + length cs)%nat.
Proof.
  induction cs as [|c cs IH]; intros h im acc; simpl; [lia|].
  destruct (match im !! c with Some _ => _ | None => _ end) as [h1 r].
  rewrite IH, length_app. simpl. lia.
Qed.

Lemma process_factor_spec (st st' : InitState) (f : MonomialFactor) :
  process_factor st f = Ok st' → Inv st →
  Inv st' ∧ st_heap st `prefix_of` st_heap st'
  ∧ power (determinant (st_self st')) =
    power (determinant (st_self st)) + factor_power_change f.
Proof.
  destruct st as [h self im]. unfold process_factor, Inv. simpl.
  intros Hrun [Hself Hmap].
  (* the value index *)
  set (vstep := match factor_function f with BasisFunction _ => _ | Function _ => _ end)
    in Hrun.
  assert (∃ x c, vstep = (h ++ [x], c, length h)
                 ∧ self_valid (h ++ [x]) c
                 ∧ basis_functions c = basis_functions self
                 ∧ power (determinant c) = power (determinant self))
    as (x & self1 & -> & Hself1 & Hbf1 & Hpow1).
  { unfold vstep, alloc. destruct (factor_function f); eexists _, _;
      (split; [reflexivity|]); split_and!; try done.
    - eapply self_valid_prefix; [apply prefix_snoc|done].
    - apply self_valid_append_coefficient;
        [eapply self_valid_prefix; [apply prefix_snoc|done]|].
      simpl. rewrite length_app. simpl. lia. }
  set (h1 := h ++ [x]) in *.
  assert (Hp1 : h `prefix_of` h1) by apply prefix_snoc.
  assert (Hv : (length h < length h1)%nat).
  { unfold h1. rewrite length_app. simpl. lia. }
  (* the components *)
  pose proof (length_extract_components (value_dimension (factor_element f))
                (factor_components f) h1 im []) as Hlen.
  destruct (_extract_components _ _ _ _ _) as [[h2 im2] comps] eqn:Hcomps.
  apply _extract_components_spec in Hcomps as (Hp2 & Hmap2 & news & -> & Hnews);
    [|by eapply map_Forall_resolves_prefix].
  simpl in Hlen, Hrun, Hnews.
  case_bool_decide as Hrank; [done|].
  unfold factor_power_change, factor_mapping.
  (* the Piola block *)
  destruct news as [|component tail].
  - apply Forall2_nil_inv_r in Hnews as ->. simpl in Hrun.
    destruct (extract_derivatives _ _ _ _ _ _) as [[[h3 self3] im3] ders] eqn:Hders.
    apply extract_derivatives_spec in Hders as (Hp3 & Hself3 & Hmap3 & Hvd & Hbf3 & Hpow3);
      [|by eapply self_valid_prefix|done|by constructor].
    injection Hrun as <-. simpl. split_and!; try done.
    + apply self_valid_append_basis_function; simpl; try done; [|by constructor].
      apply prefix_length in Hp2, Hp3. lia.
    + etrans; [|done]. by etrans.
    + lia.
  - destruct tail as [|? ?]; [|simpl in Hrank; lia].
    apply Forall2_cons_inv_r in Hnews as (c & cs & Hres & Hcs & ->).
    apply Forall2_nil_inv_r in Hcs as ->. simpl in Hrun.
    destruct (handle_piola _ _ _ _) as [[[h3 self3] c0]|] eqn:Hpiola; [|done].
    eapply handle_piola_spec in Hpiola as (Hp3 & Hself3 & Hc0 & Hbf3 & Hpow3);
      [|done|by eapply self_valid_prefix].
    simpl in Hrun.
    destruct (extract_derivatives _ _ _ _ _ _) as [[[h4 self4] im4] ders] eqn:Hders.
    apply extract_derivatives_spec in Hders as (Hp4 & Hself4 & Hmap4 & Hvd & Hbf4 & Hpow4);
      [|done|by eapply map_Forall_resolves_prefix|by constructor].
    injection Hrun as <-. simpl. split_and!; try done.
    + apply self_valid_append_basis_function; simpl; try done.
      * apply prefix_length in Hp2, Hp3, Hp4. lia.
      * repeat constructor. apply prefix_length in Hp4. lia.
    + etrans; [|done]. etrans; [|done]. by etrans.
    + lia.
Qed.

Lemma process_factors_spec :
  ∀ (fs : list MonomialFactor) (st st' : InitState),
  process_factors st fs = Ok st' → Inv st →
  Inv st' ∧ st_heap st `prefix_of` st_heap st'
  ∧ power (determinant (st_self st')) =
    power (determinant (st_self st)) + foldr (λ f z, factor_power_change f + z) 0 fs.
Proof.
  induction fs as [|f fs IH]; intros st st' Hrun Hinv.
  - simpl in *. injection Hrun as <-. split_and!; [done..|lia].
  - simpl in Hrun. destruct (process_factor st f) as [st1|] eqn:Hf; [|done].
    simpl in Hrun. apply process_factor_spec in Hf as (Hinv1 & Hp1 & Hpow1); [|done].
    apply IH in Hrun as (Hinv' & Hp' & Hpow'); [|done].
    split_and!; [done|by etrans|]. simpl. lia.
Qed.

Lemma Inv_initial_state (monomial : Monomial) : Inv (initial_state monomial).
Proof.
  split; [|apply map_Forall_empty].
  split_and!; simpl; constructor.
Qed.

(* ===================================================================== *)
(** * Properties of the monomial transformation *)
(* ===================================================================== *)

Lemma TransformedMonomial_init_unfold (g : IndexCounters) (m : Monomial) :
  TransformedMonomial_init g m =
  st ← process_factors (initial_state m) (factors m);
  let internal_indices := extract_internal_indices (st_heap st) (st_self st) None in
  let external_indices := extract_external_indices (st_heap st) (st_self st) None in
  '(h, g') ← classify_indices internal_indices external_indices
               (internal_indices ++ external_indices) (st_heap st)
               (mkIndexCounters 0 0 0);
  Ok (mkTransformed g' h (st_self st)).
Proof. reflexivity. Qed.

Lemma extract_indices_untyped (h : Heap) (self : TransformedMonomial) (i : ref) :
  i ∈ extract_indices h self None ↔
  i ∈ internal_occurrences self ++ external_occurrences self
  ∧ index_type (deref h i) = None.
Proof.
  unfold extract_indices, extract_internal_indices, extract_external_indices.
  fold (internal_occurrences self). fold (external_occurrences self).
  rewrite <- filter_app, list_elem_of_filter. tauto.
Qed.

Lemma extract_indices_valid (h : Heap) (self : TransformedMonomial) :
  self_valid h self → valid h (extract_indices h self None).
Proof.
  intros Hself. apply Forall_forall. intros i Hi.
  apply extract_indices_untyped in Hi as [Hi _].
  apply self_valid_occurrences in Hself as [Hint Hext].
  apply elem_of_app in Hi as [Hi|Hi];
    [eapply (proj1 (Forall_forall _ _) Hint)|eapply (proj1 (Forall_forall _ _) Hext)];
    done.
Qed.

(** C1: after all factors are processed, every index without a role is one
    of the two footprints and is classified by its occurrence counts there:
    (1,1) gives SECONDARY, (2,0) INTERNAL, (0,2) EXTERNAL; the construction
    succeeds exactly when every such index has one of these count pairs, and
    any other pair aborts it with the error of [error]. *)
Theorem C1_index_classification (g : IndexCounters) (m : Monomial) (st : InitState) :
  process_factors (initial_state m) (factors m) = Ok st →
  let internal_indices := extract_internal_indices (st_heap st) (st_self st) None in
  let external_indices := extract_external_indices (st_heap st) (st_self st) None in
  let role i := classification (occurrences internal_indices i)
                               (occurrences external_indices i) in
  (∀ i, i ∈ internal_occurrences (st_self st) ++ external_occurrences (st_self st) →
        index_type (deref (st_heap st) i) = None →
        i ∈ internal_indices ++ external_indices)
  ∧ ((∀ i, i ∈ internal_indices ++ external_indices → role i ≠ None) →
     ∃ t, TransformedMonomial_init g m = Ok t
          ∧ out_self t = st_self st
          ∧ ∀ i, i ∈ internal_indices ++ external_indices →
                 index_type (deref (out_heap t) i) = role i)
  ∧ ((∃ i, i ∈ internal_indices ++ external_indices ∧ role i = None) →
     TransformedMonomial_init g m =
     Raise (FFCError "Summation index does not appear exactly twice: ?")).
Proof.
  intros Hfactors int ext role.
  pose proof (process_factors_spec _ _ _ Hfactors (Inv_initial_state m))
    as ([Hself _] & _ & _).
  pose proof (extract_indices_valid _ _ Hself) as Hvalid.
  fold (extract_indices (st_heap st) (st_self st) None) in Hvalid.
  assert (Huntyped : ∀ i, i ∈ int ++ ext → index_type (deref (st_heap st) i) = None).
  { intros i Hi. by apply extract_indices_untyped in Hi as [_ ?]. }
  split_and!.
  - intros i Hi Hty. by apply extract_indices_untyped.
  - intros Hall.
    destruct (classify_indices_succeeds int ext (int ++ ext) (st_heap st)
                (mkIndexCounters 0 0 0)) as (h' & g' & Hrun); [by eauto|].
    exists (mkTransformed g' h' (st_self st)).
    rewrite TransformedMonomial_init_unfold, Hfactors. simpl.
    fold int ext. rewrite Hrun. simpl. split_and!; [done..|].
    intros i Hi.
    apply classify_indices_ok in Hrun as (_ & _ & _ & Hrole).
    destruct (Hrole i) as (t & Ht & ->); [done| |by apply Huntyped|done].
    by apply (proj1 (Forall_forall _ _) Hvalid).
  - intros (i & Hi & Hnone).
    rewrite TransformedMonomial_init_unfold, Hfactors. simpl. fold int ext.
    by rewrite (classify_indices_fails int ext _ _ _ i) by eauto.
Qed.

Lemma power_change_sum (fs : list MonomialFactor) :
  foldr (λ f z, factor_power_change f + z) 0 fs =
  - Z.of_nat (contravariant_factors fs).
Proof.
  unfold contravariant_factors.
  induction fs as [|f fs IH]; [done|]. simpl. rewrite IH.
  rewrite filter_cons. unfold factor_power_change.
  case_decide as Hf.
  - rewrite Hf. simpl. lia.
  - destruct (factor_mapping f) as [[]|]; simpl; try lia. done.
Qed.

(** C2: the determinant power starts at 0; a factor whose component maps by
    the contravariant Piola map lowers it by exactly 1, a factor with the
    covariant Piola map leaves it as it is, and the finished monomial has
    power minus the number of contravariant factors (so two of them give
    -2). *)
Theorem C2_determinant_power (g : IndexCounters) (m : Monomial) :
  power MonomialDeterminant_init = 0
  ∧ (∀ pre f post st st',
       factors m = pre ++ f :: post →
       process_factors (initial_state m) pre = Ok st →
       process_factor st f = Ok st' →
       (factor_mapping f = Some CONTRAVARIANT_PIOLA →
        power (determinant (st_self st')) = power (determinant (st_self st)) - 1)
       ∧ (factor_mapping f = Some COVARIANT_PIOLA →
          power (determinant (st_self st')) = power (determinant (st_self st))))
  ∧ (∀ t, TransformedMonomial_init g m = Ok t →
       power (determinant (out_self t)) =
       - Z.of_nat (contravariant_factors (factors m)))
  ∧ (∀ t, TransformedMonomial_init g m = Ok t →
       contravariant_factors (factors m) = 2%nat →
       power (determinant (out_self t)) = -2).
Proof.
  assert (Hmain : ∀ t, TransformedMonomial_init g m = Ok t →
            power (determinant (out_self t)) =
            - Z.of_nat (contravariant_factors (factors m))).
  { intros t. rewrite TransformedMonomial_init_unfold.
    destruct (process_factors _ _) as [st|] eqn:Hfactors; [|done]. simpl.
    destruct (classify_indices _ _ _ _ _) as [[h g']|]; [|done]. simpl.
    intros [= <-]. simpl.
    apply process_factors_spec in Hfactors as (_ & _ & ->);
      [|apply Inv_initial_state].
    rewrite power_change_sum. simpl. lia. }
  split_and!; [done| |done|].
  - intros pre f post st st' _ Hpre Hf.
    apply process_factors_spec in Hpre as (Hinv & _ & _); [|apply Inv_initial_state].
    apply process_factor_spec in Hf as (_ & _ & ->); [|done].
    unfold factor_power_change. split; intros ->; simpl; lia.
  - intros t Ht Hcount. rewrite (Hmain t Ht), Hcount. done.
Qed.

Lemma transform_monomials_fresh_counters :
  ∀ (ms : list Monomial) (g g' : IndexCounters) (ts : list Transformed),
  transform_monomials g ms = Ok (g', ts) →
  Forall2 (λ m t, TransformedMonomial_init (mkIndexCounters 0 0 0) m = Ok t) ms ts.
Proof.
  induction ms as [|m ms IH]; intros g g' ts Hrun; simpl in Hrun.
  - injection Hrun as <- <-. constructor.
  - destruct (TransformedMonomial_init g m) as [t|] eqn:Ht; [|done]. simpl in Hrun.
    destruct (transform_monomials _ ms) as [[g1 ts1]|] eqn:Hts; [|done].
    simpl in Hrun. injection Hrun as <- <-.
    constructor; [done|]. by eapply IH.
Qed.

(** C3: the construction resets the three counters before anything else, so
    its outcome does not depend on what they held; the first index that gets
    a given summation role (in the order of the classification loop) has id
    0; and every monomial of a form is transformed as with counters at 0. *)
Theorem C3_counters_reset_per_transformation (g1 g2 : IndexCounters) (m : Monomial) :
  reset_indices g1 = mkIndexCounters 0 0 0
  ∧ TransformedMonomial_init g1 m = TransformedMonomial_init g2 m
  ∧ (∀ st t role pre i post,
       process_factors (initial_state m) (factors m) = Ok st →
       TransformedMonomial_init g1 m = Ok t →
       summation_role role →
       extract_indices (st_heap st) (st_self st) None = pre ++ i :: post →
       (∀ j, j ∈ pre → index_type (deref (out_heap t) j) ≠ Some role) →
       index_type (deref (out_heap t) i) = Some role →
       index_id (deref (out_heap t) i) = Some 0)
  ∧ (∀ ms g' ts,
       transform_monomials g1 ms = Ok (g', ts) →
       Forall2 (λ m t, TransformedMonomial_init g2 m = Ok t) ms ts).
Proof.
  split_and!; [done..| |].
  - intros st t role pre i post Hfactors Hinit Hrole Hsplit Hpre Hi.
    pose proof (process_factors_spec _ _ _ Hfactors (Inv_initial_state m))
      as ([Hself _] & _ & _).
    pose proof (extract_indices_valid _ _ Hself) as Hvalid.
    assert (Hty : index_type (deref (st_heap st) i) = None).
    { eapply extract_indices_untyped. rewrite Hsplit.
      apply elem_of_app. right. by left. }
    rewrite TransformedMonomial_init_unfold, Hfactors in Hinit. simpl in Hinit.
    fold (extract_indices (st_heap st) (st_self st) None) in Hinit.
    rewrite Hsplit in Hinit, Hvalid.
    destruct (classify_indices _ _ _ _ _) as [[h' g']|] eqn:Hrun; [|done].
    simpl in Hinit. injection Hinit as <-. simpl in *.
    eapply classify_indices_first_id in Hrun; [|done..].
    rewrite Hrun. by destruct Hrole as [-> | [-> | ->]].
  - intros ms g' ts Hrun.
    apply transform_monomials_fresh_counters in Hrun.
    eapply Forall2_impl; [done|]. by intros.
Qed.

Lemma process_factor_rank (st : InitState) (f : MonomialFactor) :
  (1 < length (factor_components f))%nat → process_factor st f = Raise RankError.
Proof.
  intros Hrank. unfold process_factor.
  destruct (match factor_function f with BasisFunction _ => _ | Function _ => _ end)
    as [[h1 self1] vindex].
  pose proof (length_extract_components (value_dimension (factor_element f))
                (factor_components f) h1 (st_index_map st) []) as Hlen.
  destruct (_extract_components _ _ _ _ _) as [[h2 im2] comps].
  simpl in Hlen. rewrite bool_decide_eq_true_2 by lia. done.
Qed.

Lemma process_factor_no_rank_error (st : InitState) (f : MonomialFactor) :
  (length (factor_components f) ≤ 1)%nat → process_factor st f ≠ Raise RankError.
Proof.
  intros Hrank. unfold process_factor.
  destruct (match factor_function f with BasisFunction _ => _ | Function _ => _ end)
    as [[h1 self1] vindex].
  pose proof (length_extract_components (value_dimension (factor_element f))
                (factor_components f) h1 (st_index_map st) []) as Hlen.
  destruct (_extract_components _ _ _ _ _) as [[h2 im2] comps].
  simpl in Hlen. rewrite bool_decide_eq_false_2 by lia.
  destruct comps as [|component tail]; simpl.
  - by destruct (extract_derivatives _ _ _ _ _ _) as [[[? ?] ?] ?].
  - unfold handle_piola.
    destruct (py_getitem _ 0) as [first|e] eqn:Hfirst; simpl;
      [|apply py_getitem_error in Hfirst as ->; by destruct (bool_decide _)].
    assert (∀ r : result (Heap * TransformedMonomial * ref),
              r ≠ Raise RankError →
              ('(h, self, c0) ← r;
               Ok (h, self, c0 :: tail)) ≫= (λ '(h, self, components),
                 let '(h, self, index_map, derivatives) :=
                   extract_derivatives h self im2 f (factor_derivatives f) [] in
                 Ok (mkInitState h
                       (append_basis_function
                          (mkMonomialBasisFunction (factor_element f) vindex
                             components derivatives (factor_restriction f)) self)
                       index_map)) ≠ Raise RankError) as Hrest.
    { intros [[[h self] c0]|e] He; simpl; [|congruence].
      by destruct (extract_derivatives _ _ _ _ _ _) as [[[? ?] ?] ?]. }
    destruct (bool_decide (1 < _)%nat); simpl.
    + destruct (forallb _ _); simpl; [|done]. apply Hrest.
      destruct (component_element _ _) as [[] off]; simpl; try done;
        by destruct (MonomialTransform_init _ _ _ _ _ _).
    + apply Hrest.
      destruct (component_element _ _) as [[] off]; simpl; try done;
        by destruct (MonomialTransform_init _ _ _ _ _ _).
Qed.

Lemma process_factor_rank_0 (st : InitState) (f : MonomialFactor) :
  factor_components f = [] → ∃ st', process_factor st f = Ok st'.
Proof.
  intros Hc. unfold process_factor. rewrite Hc.
  destruct (match factor_function f with BasisFunction _ => _ | Function _ => _ end)
    as [[h1 self1] vindex].
  simpl. destruct (extract_derivatives _ _ _ _ _ _) as [[[? ?] ?] ?]. eauto.
Qed.

Lemma process_factors_app (fs1 fs2 : list MonomialFactor) (st : InitState) :
  process_factors st (fs1 ++ fs2) =
  st' ← process_factors st fs1; process_factors st' fs2.
Proof.
  revert st. induction fs1 as [|f fs1 IH]; intros st; simpl; [done|].
  destruct (process_factor st f); simpl; [apply IH|done].
Qed.

(** C5: a factor with more than one component makes the factor loop raise
    the rank error, which aborts the construction of the monomial; a factor
    with zero or one component never raises it, and one without components
    is always accepted. *)
Theorem C5_rank_above_one_rejected (g : IndexCounters) (m : Monomial) :
  (∀ st f, (1 < length (factor_components f))%nat →
           process_factor st f = Raise RankError)
  ∧ (∀ pre f post st,
       factors m = pre ++ f :: post →
       (1 < length (factor_components f))%nat →
       process_factors (initial_state m) pre = Ok st →
       TransformedMonomial_init g m = Raise RankError)
  ∧ (Exists (λ f, (1 < length (factor_components f))%nat) (factors m) →
     ∃ e, TransformedMonomial_init g m = Raise e)
  ∧ (∀ st f, (length (factor_components f) ≤ 1)%nat →
             process_factor st f ≠ Raise RankError)
  ∧ (∀ st f, factor_components f = [] → ∃ st', process_factor st f = Ok st').
Proof.
  assert (Hsplit : ∀ pre f post,
            factors m = pre ++ f :: post →
            (1 < length (factor_components f))%nat →
            ∃ e, TransformedMonomial_init g m = Raise e
                 ∧ ∀ st, process_factors (initial_state m) pre = Ok st →
                         e = RankError).
  { intros pre f post Hm Hrank.
    rewrite TransformedMonomial_init_unfold, Hm, process_factors_app.
    destruct (process_factors _ pre) as [st|e]; simpl.
    - rewrite process_factor_rank by done. simpl. eauto.
    - exists e. split; [done|]. by intros. }
  split_and!.
  - apply process_factor_rank.
  - intros pre f post st Hm Hrank Hpre.
    destruct (Hsplit pre f post Hm Hrank) as (e & -> & He).
    f_equal. eauto.
  - intros Hex. apply Exists_exists in Hex as (f & Hf & Hrank).
    apply list_elem_of_split in Hf as (pre & post & Hm).
    destruct (Hsplit pre f post Hm Hrank) as (e & He & _). eauto.
  - apply process_factor_no_rank_error.
  - apply process_factor_rank_0.
Qed.

Lemma occurrences_filter (P : ref → Prop) `{∀ j, Decision (P j)} (l : list ref) (i : ref) :
  P i → occurrences (filter P l) i = occurrences l i.
Proof.
  intros Hi. unfold occurrences. f_equal.
  induction l as [|j l IH]; [done|].
  rewrite (filter_cons P), (filter_cons (λ j, j = i) j l).
  destruct (decide (j = i)) as [->|Hne].
  - rewrite decide_True by done. rewrite filter_cons, decide_True by done.
    by rewrite IH.
  - destruct (decide (P j)); [|done].
    by rewrite filter_cons, decide_False.
Qed.

Lemma classify_indices_keeps_typed (int ext todo : list ref) (h h' : Heap)
    (g g' : IndexCounters) (r : ref) :
  classify_indices int ext todo h g = Ok (h', g') →
  index_type (deref h r) ≠ None → deref h' r = deref h r.
Proof. intros Hrun. apply classify_indices_ok in Hrun as (_ & Hkeep & _). apply Hkeep. Qed.

(** C9: two distinct FIXED instances with the same value are not in the
    footprints the classification loop works on, deleting them from the
    unfiltered footprints changes the counts of no index without a role, and
    the loop leaves both instances as they were: still FIXED, still two. *)
Theorem C9_fixed_indices_never_unified (g : IndexCounters) (m : Monomial)
    (st : InitState) (a b : ref) :
  process_factors (initial_state m) (factors m) = Ok st →
  a ≠ b →
  index_type (deref (st_heap st) a) = Some FIXED →
  index_type (deref (st_heap st) b) = Some FIXED →
  index_range (deref (st_heap st) a) = index_range (deref (st_heap st) b) →
  let h := st_heap st in
  let self := st_self st in
  let internal_indices := extract_internal_indices h self None in
  let external_indices := extract_external_indices h self None in
  let others := filter (λ j, j ≠ a ∧ j ≠ b) in
  (a ∉ internal_indices ++ external_indices)
  ∧ (b ∉ internal_indices ++ external_indices)
  ∧ (∀ i, index_type (deref h i) = None →
       occurrences internal_indices i = occurrences (others (internal_occurrences self)) i
       ∧ occurrences external_indices i = occurrences (others (external_occurrences self)) i)
  ∧ (∀ t, TransformedMonomial_init g m = Ok t →
       deref (out_heap t) a = deref h a ∧ deref (out_heap t) b = deref h b
       ∧ index_type (deref (out_heap t) a) = Some FIXED
       ∧ index_type (deref (out_heap t) b) = Some FIXED).
Proof.
  intros Hfactors Hab Ha Hb _ h self int ext others.
  assert (Hnot : ∀ r, index_type (deref h r) = Some FIXED → r ∉ (int ++ ext)).
  { intros r Hr Hin. apply extract_indices_untyped in Hin as [_ Hin]. congruence. }
  split_and!; [by apply Hnot..| |].
  - intros i Hi. unfold int, ext, extract_internal_indices, extract_external_indices.
    fold (internal_occurrences self). fold (external_occurrences self).
    assert (i ≠ a ∧ i ≠ b) by (split; intros ->; unfold h in Hi; congruence).
    unfold others. split.
    + rewrite (occurrences_filter (λ j, j ≠ a ∧ j ≠ b)) by done.
      by apply occurrences_filter.
    + rewrite (occurrences_filter (λ j, j ≠ a ∧ j ≠ b)) by done.
      by apply occurrences_filter.
  - intros t. rewrite TransformedMonomial_init_unfold, Hfactors. simpl.
    fold h self int ext.
    destruct (classify_indices _ _ _ _ _) as [[h' g']|] eqn:Hrun; [|done].
    simpl. intros [= <-]. simpl.
    rewrite (classify_indices_keeps_typed _ _ _ _ _ _ _ a Hrun)
      by (unfold h; congruence).
    rewrite (classify_indices_keeps_typed _ _ _ _ _ _ _ b Hrun)
      by (unfold h; congruence).
    done.
Qed.

(* ===================================================================== *)
(** * Properties of the integral generator *)
(* ===================================================================== *)

Section GeneratorProperties.

Context {Expr MT : Type} `{Countable Expr}.
Variable ufl : UFL Expr MT.
Implicit Types self : IntegralGenerator Expr MT.
Implicit Types st : PartitionState Expr.

(** C6: when the product of the tensor shape is 1 the reset is the
    assignment of 0.0 to entry 0; when it is N > 1 the reset is one [memset]
    statement over exactly N entries. *)
Theorem C6_tensor_reset self :
  let A := element_tensor (backend self) in
  let N := product (tensor_shape (ir self)) in
  (N = 1 →
   generate_tensor_reset self =
   [Comment "Reset element tensor";
    Assign (ArrayAccess A (LiteralInt 0)) (LiteralFloat 0)])
  ∧ (1 < N →
     generate_tensor_reset self =
     [Comment "Reset element tensor";
      VerbatimStatement
        ("memset(" +:+ language_str (backend self) A +:+ ", 0, " +:+
         py_str_int N +:+ " * sizeof(*" +:+ language_str (backend self) A +:+ "));")]).
Proof.
  intros A N. unfold generate_tensor_reset. fold A N. split; intros HN.
  - by rewrite bool_decide_eq_true_2.
  - rewrite bool_decide_eq_false_2 by lia. done.
Qed.

(** ** The memo [self.vaccesses] *)

Lemma get_vaccesses_store self (np n : Z) (va va' : gmap Expr CExpr)
    (names : gset string) :
  get_vaccesses self np = Ok va →
  get_vaccesses (store_vaccesses self np va' names) n =
  if decide (n = np) then Ok va' else get_vaccesses self n.
Proof.
  unfold get_vaccesses, store_vaccesses, dict_getitem. simpl.
  destruct (vaccesses self) as [vm|]; [|done]. simpl. intros _.
  case_decide as Hn; [subst; by rewrite lookup_insert_eq|].
  by rewrite lookup_insert_ne.
Qed.

Lemma generate_partition_step_memo (b : Backend Expr MT) (symbol : CExpr)
    (V : list Expr) (trs : list (Z * Z)) (np : Z) st st' (i : nat) :
  generate_partition_step ufl b symbol V trs np st i = Ok st' →
  ∃ v a, V !! i = Some v ∧ ps_vaccesses st' = <[v := a]> (ps_vaccesses st).
Proof.
  unfold generate_partition_step, list_getitem.
  destruct (V !! i) as [v|]; [|done]. simpl.
  destruct (is_modified_terminal ufl v).
  - destruct (trs !! i); [|done]. simpl. intros [= <-]. simpl. eauto.
  - destruct (lookup_operands _ _); [|done]. simpl.
    destruct (is_Condition ufl v); intros [= <-]; simpl; eauto.
Qed.

Lemma generate_partition_loop_memo (b : Backend Expr MT) (symbol : CExpr)
    (V : list Expr) (trs : list (Z * Z)) (np : Z) :
  ∀ (idxs : list nat) st st',
  generate_partition_loop ufl b symbol V trs np st idxs = Ok st' →
  (∀ i v, i ∈ idxs → V !! i = Some v → is_Some (ps_vaccesses st' !! v))
  ∧ (∀ v, is_Some (ps_vaccesses st !! v) → is_Some (ps_vaccesses st' !! v))
  ∧ (∀ v a, ps_vaccesses st !! v = Some a →
            (∀ i, i ∈ idxs → V !! i ≠ Some v) →
            ps_vaccesses st' !! v = Some a).
Proof.
  induction idxs as [|i idxs IH]; intros st st' Hrun; simpl in Hrun.
  - injection Hrun as <-. split_and!; [|done..].
    intros i v Hi. by apply elem_of_nil in Hi.
  - destruct (generate_partition_step _ _ _ _ _ _ _ _) as [st1|] eqn:Hstep; [|done].
    simpl in Hrun. apply IH in Hrun as (Hact & Hmono & Hkeep).
    apply generate_partition_step_memo in Hstep as (v & a & Hv & Hva).
    split_and!.
    + intros j w Hj Hw. apply elem_of_cons in Hj as [->|Hj]; [|by eapply Hact].
      apply Hmono. rewrite Hva. simplify_eq. by rewrite lookup_insert_eq.
    + intros w Hw. apply Hmono. rewrite Hva.
      destruct (decide (v = w)) as [->|Hne];
        [by rewrite lookup_insert_eq|by rewrite lookup_insert_ne].
    + intros w c Hw Hnot. apply Hkeep.
      * rewrite Hva, lookup_insert_ne; [done|].
        intros ->. by apply (Hnot i); [left|].
      * intros j Hj. apply Hnot. by right.
Qed.

Lemma generate_partition_step_slots (b : Backend Expr MT) (symbol : CExpr)
    (V : list Expr) (trs : list (Z * Z)) (np : Z) st st' (i : nat) :
  generate_partition_step ufl b symbol V trs np st i = Ok st' →
  slots_in_order symbol (ps_intermediates st) →
  slots_in_order symbol (ps_intermediates st').
Proof.
  unfold generate_partition_step, list_getitem.
  destruct (V !! i) as [v|]; [|done]. simpl.
  destruct (is_modified_terminal ufl v).
  - destruct (trs !! i); [|done]. simpl. by intros [= <-].
  - destruct (lookup_operands _ _); [|done]. simpl.
    destruct (is_Condition ufl v); intros [= <-]; simpl; [done|].
    intros Hslots k s Hk.
    apply lookup_app_Some in Hk as [Hk|[Hlen Hk]]; [by apply Hslots|].
    apply list_lookup_singleton_Some in Hk as [Hk <-].
    assert (k = length (ps_intermediates st)) as -> by lia. eauto.
Qed.

Lemma generate_partition_loop_slots (b : Backend Expr MT) (symbol : CExpr)
    (V : list Expr) (trs : list (Z * Z)) (np : Z) :
  ∀ (idxs : list nat) st st',
  generate_partition_loop ufl b symbol V trs np st idxs = Ok st' →
  slots_in_order symbol (ps_intermediates st) →
  slots_in_order symbol (ps_intermediates st').
Proof.
  induction idxs as [|i idxs IH]; intros st st' Hrun Hslots; simpl in Hrun.
  - by injection Hrun as <-.
  - destruct (generate_partition_step _ _ _ _ _ _ _ _) as [st1|] eqn:Hstep; [|done].
    simpl in Hrun. eapply IH; [done|]. by eapply generate_partition_step_slots.
Qed.

Lemma same_except_trans (np : Z) self1 self2 self3 :
  same_except np self1 self2 → same_except np self2 self3 →
  same_except np self1 self3.
Proof.
  intros (? & ? & H12) (? & ? & H23). split_and!; [congruence..|].
  intros n Hn. rewrite H23, H12; done.
Qed.

Lemma generate_partition_spec self (symbol : CExpr) (V : list Expr)
    (partition : list bool) (trs : list (Z * Z)) (np : Z) self'
    (parts : list CStatement) :
  generate_partition ufl self symbol V partition trs np = Ok (self', parts) →
  same_except np self self'
  ∧ ∃ va va',
      get_vaccesses self np = Ok va ∧ get_vaccesses self' np = Ok va'
      ∧ (∀ i v, i ∈ partition_indices partition → V !! i = Some v →
                is_Some (va' !! v))
      ∧ (∀ v a, va !! v = Some a →
                (∀ i, i ∈ partition_indices partition → V !! i ≠ Some v) →
                va' !! v = Some a).
Proof.
  unfold generate_partition.
  destruct (get_vaccesses self np) as [va|] eqn:Hva; [|done]. simpl.
  destruct (generate_partition_loop _ _ _ _ _ _ _ _) as [st'|] eqn:Hloop; [|done].
  simpl. intros [= <- _].
  apply generate_partition_loop_memo in Hloop as (Hact & _ & Hkeep). simpl in *.
  split.
  - split_and!; [done..|]. intros n Hn.
    rewrite (get_vaccesses_store _ _ _ va) by done. by rewrite decide_False.
  - exists va, (ps_vaccesses st'). split_and!; [done| |done..].
    rewrite (get_vaccesses_store _ _ _ va) by done. by rewrite decide_True.
Qed.

Lemma generate_unstructured_partition_spec self (np : Z) (p : Partition) self'
    (parts : list CStatement) :
  generate_unstructured_partition ufl self np p = Ok (self', parts) →
  same_except np self self'.
Proof.
  unfold generate_unstructured_partition.
  destruct (dict_getitem _ _) as [expr_ir|]; [|done]. simpl.
  destruct (generate_partition _ _ _ _ _ _ _) as [[self1 parts1]|] eqn:Hgen; [|done].
  simpl. intros [= <- _]. by apply generate_partition_spec in Hgen as [? _].
Qed.

Lemma quadrature_loop_body_spec self (np : Z) self' (body : list CStatement) :
  quadrature_loop_body ufl self np = Ok (self', body) →
  same_except np self self'.
Proof.
  unfold quadrature_loop_body.
  destruct (generate_unstructured_partition _ _ _ _) as [[self1 parts1]|] eqn:Hgen;
    [|done].
  simpl. destruct (generate_dofblock_partition _ _ _ _); [|done].
  simpl. intros [= <- _]. by eapply generate_unstructured_partition_spec.
Qed.

Lemma generate_quadrature_loops_spec self (np : Z) self' (parts : list CStatement) :
  generate_quadrature_loops ufl self np = Ok (self', parts) →
  same_except np self self'.
Proof.
  unfold generate_quadrature_loops.
  destruct (quadrature_loop_body _ _ _) as [[self1 body]|] eqn:Hbody; [|done].
  simpl. intros [= <- _]. by eapply quadrature_loop_body_spec.
Qed.

(** C7: with [body] the unstructured varying computations followed by the
    varying dof-block statements, nothing is emitted when [body] is empty;
    otherwise, for one point the body is emitted in a scope without a loop,
    and for any other point count it is the body of one counted loop from 0
    to the number of points. *)
Theorem C7_quadrature_loop_wrapping self (num_points : Z) self'
    (body : list CStatement) :
  quadrature_loop_body ufl self num_points = Ok (self', body) →
  ∃ parts,
    generate_quadrature_loops ufl self num_points = Ok (self', parts)
    ∧ (body = [] → parts = [])
    ∧ (body ≠ [] → num_points = 1 →
       parts = [Comment "Only 1 quadrature point, no loop"; Scope body])
    ∧ (body ≠ [] → num_points ≠ 1 →
       parts = [ForRange (quadrature_loop_index (backend self) num_points)
                         (LiteralInt 0)
                         (num_quadrature_points (backend self) num_points)
                         body]).
Proof.
  intros Hbody. unfold generate_quadrature_loops. rewrite Hbody. simpl.
  apply quadrature_loop_body_spec in Hbody as (_ & -> & _).
  eexists. split; [reflexivity|]. unfold wrap_quadrature_body.
  split_and!.
  - intros ->. done.
  - intros Hne ->. by rewrite bool_decide_eq_false_2.
  - intros Hne Hnp. by rewrite !bool_decide_eq_false_2.
Qed.

(** ** The loop of [generate] *)

Lemma generate_loop_spec (all : list Z) :
  ∀ (todo : list Z) self (parts : list CStatement) self' (parts' : list CStatement),
  generate_loop ufl self all todo parts = Ok (self', parts') →
  ir self' = ir self ∧ backend self' = backend self
  ∧ ∀ n, n ∉ todo → get_vaccesses self' n = get_vaccesses self n.
Proof.
  induction todo as [|np todo IH]; intros self parts self' parts' Hrun;
    simpl in Hrun.
  - by injection Hrun as <- <-.
  - destruct (generate_unstructured_partition _ _ _ _) as [[self1 ps1]|] eqn:H1;
      [|done]. simpl in Hrun.
    destruct (generate_dofblock_partition _ _ _ _) as [ps2|]; [|done].
    simpl in Hrun.
    destruct (generate_quadrature_loops _ _ _) as [[self2 ps3]|] eqn:H2; [|done].
    simpl in Hrun.
    apply generate_unstructured_partition_spec in H1.
    apply generate_quadrature_loops_spec in H2.
    destruct (same_except_trans _ _ _ _ H1 H2) as (Hir & Hb & Hva).
    apply IH in Hrun as (Hir' & Hb' & Hva').
    split_and!; [congruence..|].
    intros n Hn. apply not_elem_of_cons in Hn as [Hne Hn].
    rewrite Hva', Hva; done.
Qed.

Lemma generate_loop_app (all pre post : list Z) self (parts : list CStatement) :
  generate_loop ufl self all (pre ++ post) parts =
  '(self1, parts1) ← generate_loop ufl self all pre parts;
  generate_loop ufl self1 all post parts1.
Proof.
  revert self parts. induction pre as [|np pre IH]; intros self parts; [done|].
  simpl.
  destruct (generate_unstructured_partition _ _ _ _) as [[self1 ps1]|]; [|done].
  simpl. destruct (generate_dofblock_partition _ _ _ _) as [ps2|]; [|done].
  simpl. destruct (generate_quadrature_loops _ _ _) as [[self2 ps3]|]; [|done].
  simpl. apply IH.
Qed.

Lemma get_vaccesses_reset self (all : list Z) (n : Z) :
  n ∈ all → get_vaccesses (reset_vaccesses self all) n = Ok ∅.
Proof.
  unfold get_vaccesses, reset_vaccesses, dict_getitem. simpl.
  induction all as [|k all IH]; intros Hn; [by apply elem_of_nil in Hn|].
  simpl. destruct (decide (k = n)) as [->|Hne].
  - by rewrite lookup_insert_eq.
  - rewrite lookup_insert_ne by done. apply IH.
    by apply elem_of_cons in Hn as [?|?].
Qed.

Lemma NoDup_sorted_keys {A} (d : gmap Z A) : NoDup (sorted_keys d).
Proof.
  unfold sorted_keys. rewrite merge_sort_Permutation.
  apply NoDup_fst_map_to_list.
Qed.

(** [generate] enters its loop with the memo just reset. *)
Lemma generate_unfold self :
  generate ufl self =
  ps ← generate_quadrature_tables self;
  let all_num_points := sorted_keys (expr_irs (ir self)) in
  '(self1, parts) ← generate_loop ufl (reset_vaccesses self all_num_points)
                      all_num_points all_num_points
                      ((ps ++ generate_element_tables self)
                       ++ generate_tensor_reset self);
  ps' ← generate_finishing_statements self1;
  Ok (self1, StatementList (parts ++ ps')).
Proof. reflexivity. Qed.

(** C8: for an active operator node whose operands have been visited, a
    boolean condition is inlined (its access is the translated expression and
    the intermediates are left as they are) and any other operator is
    assigned to the next free slot of the intermediate array, the slots being
    filled in order; in both cases the access is stored in the memo of the
    point count, where it stays for later look-ups unless the same node is
    visited again; the memo of another point count is not touched, and the
    memo of a point count is empty when [generate] begins with it. *)
Theorem C8_partition_intermediates_and_memo :
  (∀ (b : Backend Expr MT) (symbol : CExpr) (V : list Expr) (trs : list (Z * Z))
     (np : Z) st (i : nat) (v : Expr) (vops : list CExpr),
     V !! i = Some v → is_modified_terminal ufl v = false →
     lookup_operands (ps_vaccesses st) (ufl_operands ufl v) = Ok vops →
     let vexpr := ufl_to_language b v vops in
     let slot := ArrayAccess symbol
                   (LiteralInt (Z.of_nat (length (ps_intermediates st)))) in
     let names := ps_ufl_names st ∪ {[ _ufl_handler_name_ ufl v ]} in
     (is_Condition ufl v = true →
      generate_partition_step ufl b symbol V trs np st i =
      Ok (mkPartitionState (<[v := vexpr]> (ps_vaccesses st)) names
                           (ps_definitions st) (ps_intermediates st)))
     ∧ (is_Condition ufl v = false →
        generate_partition_step ufl b symbol V trs np st i =
        Ok (mkPartitionState (<[v := slot]> (ps_vaccesses st)) names
                             (ps_definitions st)
                             (ps_intermediates st ++ [Assign slot vexpr]))))
  ∧ (∀ (b : Backend Expr MT) (symbol : CExpr) (V : list Expr) (trs : list (Z * Z))
       (np : Z) (va : gmap Expr CExpr) (names : gset string) (idxs : list nat) st',
       generate_partition_loop ufl b symbol V trs np
         (mkPartitionState va names [] []) idxs = Ok st' →
       slots_in_order symbol (ps_intermediates st'))
  ∧ (∀ self (symbol : CExpr) (V : list Expr) (partition : list bool)
       (trs : list (Z * Z)) (np : Z) self' (parts : list CStatement),
       generate_partition ufl self symbol V partition trs np = Ok (self', parts) →
       ∃ va va',
         get_vaccesses self np = Ok va ∧ get_vaccesses self' np = Ok va'
         ∧ (∀ i v, i ∈ partition_indices partition → V !! i = Some v →
                   is_Some (va' !! v))
         ∧ (∀ v a, va !! v = Some a →
                   (∀ i, i ∈ partition_indices partition → V !! i ≠ Some v) →
                   va' !! v = Some a)
         ∧ (∀ n, n ≠ np → get_vaccesses self' n = get_vaccesses self n))
  ∧ (∀ self (pre : list Z) (n : Z) (post : list Z) (parts : list CStatement),
       let all_num_points := sorted_keys (expr_irs (ir self)) in
       let self0 := reset_vaccesses self all_num_points in
       all_num_points = pre ++ n :: post →
       generate_loop ufl self0 all_num_points all_num_points parts =
       ('(self1, parts1) ← generate_loop ufl self0 all_num_points pre parts;
        generate_loop ufl self1 all_num_points (n :: post) parts1)
       ∧ ∀ self1 parts1,
           generate_loop ufl self0 all_num_points pre parts = Ok (self1, parts1) →
           get_vaccesses self1 n = Ok ∅).
Proof.
  split_and!.
  - intros b symbol V trs np st i v vops Hv Hmt Hops vexpr slot names.
    unfold generate_partition_step, list_getitem. rewrite Hv. simpl.
    rewrite Hmt, Hops. simpl. split; intros ->; reflexivity.
  - intros b symbol V trs np va names idxs st' Hrun.
    eapply generate_partition_loop_slots; [done|].
    intros k s Hk. simpl in Hk. by rewrite lookup_nil in Hk.
  - intros self symbol V partition trs np self' parts Hgen.
    apply generate_partition_spec in Hgen
      as ((_ & _ & Hother) & va & va' & Hva & Hva' & Hact & Hkeep).
    exists va, va'. split_and!; done.
  - intros self pre n post parts all self0 Hall. split.
    + rewrite Hall at 2. apply generate_loop_app.
    + intros self1 parts1 Hrun.
      apply generate_loop_spec in Hrun as (_ & _ & Hva).
      rewrite Hva.
      * apply get_vaccesses_reset. rewrite Hall.
        apply elem_of_app. right. by left.
      * pose proof (NoDup_sorted_keys (expr_irs (ir self))) as Hnd.
        fold all in Hnd. rewrite Hall in Hnd.
        apply NoDup_app in Hnd as (_ & Hnd & _).
        intros Hin. apply (Hnd n Hin). by left.
Qed.

End GeneratorProperties.

(* ===================================================================== *)
(** * The worked instances, checked *)
(* ===================================================================== *)

Example laplace_heap :
  out_heap (transformed stale_counters laplace_monomial) =
  [mkMonomialIndex (Some PRIMARY) [0; 1; 2] (Some 0);
   mkMonomialIndex (Some SECONDARY) [0; 1] (Some 0);
   mkMonomialIndex (Some EXTERNAL) [0; 1] (Some 0);
   mkMonomialIndex (Some PRIMARY) [0; 1; 2] (Some 1);
   mkMonomialIndex (Some SECONDARY) [0; 1] (Some 1)].
Proof. vm_compute. reflexivity. Qed.

Example cubic_monomial_fails :
  TransformedMonomial_init stale_counters cubic_monomial =
  Raise (FFCError "Summation index does not appear exactly twice: ?").
Proof. vm_compute. reflexivity. Qed.

Example triple_monomial_counts :
  let st := state_after_factors triple_monomial in
  occurrences (extract_internal_indices (st_heap st) (st_self st) None) 1%nat = 3%nat
  ∧ occurrences (extract_external_indices (st_heap st) (st_self st) None) 1%nat = 0%nat
  ∧ TransformedMonomial_init stale_counters triple_monomial =
    Raise (FFCError "Summation index does not appear exactly twice: ?").
Proof. vm_compute. done. Qed.

Example mass_monomial_power :
  power (determinant (out_self (transformed stale_counters mass_monomial))) = -2.
Proof. vm_compute. reflexivity. Qed.

Lemma C1_index_classification_witness :
  ∃ t, TransformedMonomial_init stale_counters laplace_monomial = Ok t
       ∧ index_type (deref (out_heap t) 1%nat) = Some SECONDARY
       ∧ index_type (deref (out_heap t) 2%nat) = Some EXTERNAL.
Proof.
  destruct (C1_index_classification stale_counters laplace_monomial
              (state_after_factors laplace_monomial)) as (_ & Hok & _);
    [vm_compute; reflexivity|].
  destruct Hok as (t & Ht & _ & Hroles).
  - intros i Hi.
    repeat (apply elem_of_cons in Hi as [->|Hi]; [vm_compute; discriminate|]).
    by apply elem_of_nil in Hi.
  - exists t. split; [exact Ht|]. split.
    + rewrite (Hroles 1%nat); [reflexivity|]. by left.
    + rewrite (Hroles 2%nat); [reflexivity|].
      do 4 right. by left.
Defined.

Lemma C2_determinant_power_witness :
  TransformedMonomial_init stale_counters mass_monomial =
    Ok (transformed stale_counters mass_monomial)
  ∧ power (determinant (out_self (transformed stale_counters mass_monomial))) = -2.
Proof.
  split; [vm_compute; reflexivity|].
  apply (C2_determinant_power stale_counters mass_monomial);
    vm_compute; reflexivity.
Defined.

Lemma C3_counters_reset_per_transformation_witness :
  index_id (deref (out_heap (transformed stale_counters laplace_monomial)) 2%nat)
  = Some 0.
Proof.
  destruct (C3_counters_reset_per_transformation stale_counters stale_counters
              laplace_monomial) as (_ & _ & Hfirst & _).
  apply (Hfirst (state_after_factors laplace_monomial) _ EXTERNAL
                [1; 4; 1; 4]%nat 2%nat [2%nat]).
  - vm_compute; reflexivity.
  - vm_compute; reflexivity.
  - right. by right.
  - vm_compute; reflexivity.
  - intros j Hj.
    repeat (apply elem_of_cons in Hj as [->|Hj]; [vm_compute; discriminate|]).
    by apply elem_of_nil in Hj.
  - vm_compute; reflexivity.
Defined.

Lemma C4_evaluation_needs_role_binding_witness :
  (∃ rest, MonomialIndex_call (mkMonomialIndex (Some SECONDARY) [0; 1] (Some 0))
             (Some [2]) None (Some [1]) (Some [0]) =
           Raise (FFCError ("Missing index values for secondary" +:+ rest)))
  ∧ MonomialIndex_call (mkMonomialIndex (Some FIXED) [5] None)
      None None None None = Ok 5.
Proof.
  destruct (C4_evaluation_needs_role_binding
              (mkMonomialIndex (Some SECONDARY) [0; 1] (Some 0))
              (Some [2]) None (Some [1]) (Some [0])) as [Hmissing _].
  destruct (C4_evaluation_needs_role_binding
              (mkMonomialIndex (Some FIXED) [5] None)
              None None None None) as [_ Hfixed].
  split.
  - apply (Hmissing SECONDARY); [reflexivity|discriminate|reflexivity].
  - apply (Hfixed 5 []); reflexivity.
Defined.

Lemma C5_rank_above_one_rejected_witness :
  TransformedMonomial_init stale_counters rank2_monomial = Raise RankError.
Proof.
  destruct (C5_rank_above_one_rejected stale_counters rank2_monomial)
    as (_ & Hrank & _).
  apply (Hrank [mkMonomialFactor lagrange (BasisFunction 0) [] [] None]
               (mkMonomialFactor raviart_thomas (BasisFunction 1)
                                 [Index 0; Index 1] [] None)
               []
               (state_after_factors
                  (mkMonomial 1 [mkMonomialFactor lagrange (BasisFunction 0) [] [] None]))).
  - reflexivity.
  - simpl. lia.
  - vm_compute; reflexivity.
Defined.

Lemma C9_fixed_indices_never_unified_witness :
  let t := transformed stale_counters fixed_direction_monomial in
  index_type (deref (out_heap t) 3%nat) = Some FIXED
  ∧ index_type (deref (out_heap t) 6%nat) = Some FIXED
  ∧ index_range (deref (out_heap t) 3%nat) = index_range (deref (out_heap t) 6%nat).
Proof.
  destruct (C9_fixed_indices_never_unified stale_counters fixed_direction_monomial
              (state_after_factors fixed_direction_monomial) 3%nat 6%nat)
    as (_ & _ & _ & Hkept); try (vm_compute; reflexivity); [lia|].
  destruct (Hkept (transformed stale_counters fixed_direction_monomial))
    as (Ha & Hb & Hta & Htb); [vm_compute; reflexivity|].
  simpl. split_and!; [exact Hta|exact Htb|].
  rewrite Ha, Hb. vm_compute. reflexivity.
Defined.

Lemma C10_empty_binding_is_missing_binding_witness :
  MonomialIndex_call (mkMonomialIndex (Some INTERNAL) [0; 1] (Some 0))
    (Some [1]) (Some [1]) (Some []) (Some [1])
  = MonomialIndex_call (mkMonomialIndex (Some INTERNAL) [0; 1] (Some 0))
      (Some [1]) (Some [1]) None (Some [1]).
Proof.
  apply (C10_empty_binding_is_missing_binding _ INTERNAL);
    [reflexivity|discriminate|reflexivity|reflexivity].
Defined.

Example reset_of_scalar_tensor :
  generate_tensor_reset (example_generator []) =
  [Comment "Reset element tensor";
   Assign (ArrayAccess (Symbol "A") (LiteralInt 0)) (LiteralFloat 0)].
Proof. vm_compute. reflexivity. Qed.

Example reset_of_vector_tensor :
  generate_tensor_reset (example_generator [3; 2]) =
  [Comment "Reset element tensor";
   VerbatimStatement "memset(A, 0, 6 * sizeof(*A));"].
Proof. vm_compute. reflexivity. Qed.

Lemma C6_tensor_reset_witness :
  generate_tensor_reset (example_generator [1; 1]) =
    [Comment "Reset element tensor";
     Assign (ArrayAccess (Symbol "A") (LiteralInt 0)) (LiteralFloat 0)]
  ∧ generate_tensor_reset (example_generator [3; 2]) =
    [Comment "Reset element tensor";
     VerbatimStatement "memset(A, 0, 6 * sizeof(*A));"].
Proof.
  split.
  - apply (C6_tensor_reset (example_generator [1; 1])). reflexivity.
  - apply (C6_tensor_reset (example_generator [3; 2])). reflexivity.
Defined.

Lemma C7_quadrature_loop_wrapping_witness :
  (varying_body 1).2 ≠ []
  ∧ generate_quadrature_loops example_ufl (before_quadrature_loops 1) 1 =
    Ok ((varying_body 1).1,
        [Comment "Only 1 quadrature point, no loop"; Scope (varying_body 1).2]).
Proof.
  split; [vm_compute; discriminate|].
  destruct (C7_quadrature_loop_wrapping example_ufl (before_quadrature_loops 1) 1
              (varying_body 1).1 (varying_body 1).2)
    as (parts & -> & _ & Hone & _); [vm_compute; reflexivity|].
  rewrite Hone; [reflexivity|vm_compute; discriminate|reflexivity].
Defined.

Example two_points_give_a_loop :
  ∃ self' body,
    generate_quadrature_loops example_ufl (before_quadrature_loops 2) 2 =
    Ok (self', [ForRange (Symbol "iq2") (LiteralInt 0) (LiteralInt 2) body])
    ∧ body ≠ [].
Proof. eexists _, _. split; [vm_compute; reflexivity|discriminate]. Qed.

Lemma C8_partition_intermediates_and_memo_witness :
  let st := mkPartitionState
              ({[ "x" := Symbol "w_x"; "y" := Symbol "w_y" ]} : gmap string CExpr)
              ∅ [] [Assign (ArrayAccess (Symbol "sv1") (LiteralInt 0)) (Symbol "e")] in
  (* the condition is inlined *)
  generate_partition_step example_ufl example_backend (Symbol "sv1")
    ["x"; "y"; "x+y"; "x<y"; "f"] [] 1 st 3 =
  Ok (mkPartitionState
        (<["x<y" := Call "x<y" [Symbol "w_x"; Symbol "w_y"]]> (ps_vaccesses st))
        {[ "lt" ]} [] (ps_intermediates st))
  (* the sum goes to the next slot *)
  ∧ generate_partition_step example_ufl example_backend (Symbol "sv1")
      ["x"; "y"; "x+y"; "x<y"; "f"] [] 1 st 2 =
    Ok (mkPartitionState
          (<["x+y" := ArrayAccess (Symbol "sv1") (LiteralInt 1)]> (ps_vaccesses st))
          {[ "sum" ]} []
          (ps_intermediates st ++
           [Assign (ArrayAccess (Symbol "sv1") (LiteralInt 1))
                   (Call "x+y" [Symbol "w_x"; Symbol "w_y"])]))
  (* the memo of 2 points is empty when the iteration for 2 points begins *)
  ∧ (∀ self1 parts1,
       generate_loop example_ufl
         (reset_vaccesses (example_generator [3]) [1; 2]) [1; 2] [1] [] =
       Ok (self1, parts1) →
       get_vaccesses self1 2 = Ok ∅).
Proof.
  intros st.
  destruct (C8_partition_intermediates_and_memo example_ufl)
    as (Hstep & _ & _ & Hreset).
  split_and!.
  - exact (proj1 (Hstep example_backend (Symbol "sv1")
                    ["x"; "y"; "x+y"; "x<y"; "f"] [] 1 st 3%nat "x<y"
                    [Symbol "w_x"; Symbol "w_y"] eq_refl eq_refl eq_refl) eq_refl).
  - exact (proj2 (Hstep example_backend (Symbol "sv1")
                    ["x"; "y"; "x+y"; "x<y"; "f"] [] 1 st 2%nat "x+y"
                    [Symbol "w_x"; Symbol "w_y"] eq_refl eq_refl eq_refl) eq_refl).
  - intros self1 parts1.
    destruct (Hreset (example_generator [3]) [1] 2 [] []) as [_ Hempty];
      [vm_compute; reflexivity|].
    apply Hempty.
Defined.

(* ===================================================================== *)
(** * Further properties of the index algebra *)
(* ===================================================================== *)

(** X1: adding an offset and subtracting it again gives a new instance that is
    equal to the original in role, range and id; both results are new
    instances, and no instance that existed before is changed. *)
Theorem MonomialIndex_add_sub_round_trip (h : Heap) (r : ref) (k : Z) :
  (r < length h)%nat →
  ∀ h1 a h2 b,
    MonomialIndex_add h r k = (h1, a) →
    MonomialIndex_sub h1 a k = (h2, b) →
    deref h2 b = deref h r
    ∧ index_range (deref h2 a) = (λ x, k + x) <$> index_range (deref h r)
    ∧ a ≠ r ∧ b ≠ r ∧ a ≠ b
    ∧ ∀ j, (j < length h)%nat → deref h2 j = deref h j.
Proof.
  intros Hr h1 a h2 b Hadd Hsub.
  unfold MonomialIndex_sub, MonomialIndex_add, alloc in *.
  injection Hadd as <- <-. injection Hsub as <- <-.
  rewrite deref_alloc. simpl.
  assert (Hlen : length (h ++ [mkMonomialIndex (index_type (deref h r))
            ((λ x, k + x) <$> index_range (deref h r)) (index_id (deref h r))])
          = S (length h)) by (rewrite length_app; simpl; lia).
  rewrite Hlen. split_and!; try lia.
  - rewrite deref_alloc. simpl. rewrite <- list_fmap_compose.
    destruct (deref h r) as [ty rg id]. simpl. f_equal.
    rewrite <- (list_fmap_id rg) at 2. apply list_fmap_ext. intros; simpl; lia.
  - rewrite deref_app_l by lia. by rewrite deref_alloc.
  - intros j Hj. rewrite deref_app_l by lia. by rewrite deref_app_l.
Qed.

Lemma MonomialIndex_add_sub_round_trip_witness :
  ∃ h2 b, MonomialIndex_sub
            (MonomialIndex_add [mkMonomialIndex (Some FIXED) [2] None] 0%nat 3).1 1%nat 3
          = (h2, b)
          ∧ deref h2 b = mkMonomialIndex (Some FIXED) [2] None.
Proof.
  eexists _, _. split; [reflexivity|].
  eapply (MonomialIndex_add_sub_round_trip
            [mkMonomialIndex (Some FIXED) [2] None] 0%nat 3);
    [simpl; lia|reflexivity|reflexivity].
Defined.

(** X2: [MonomialTransform.__init__] keeps an end point that is not FIXED as the
    very instance it was given, replaces a FIXED end point by a new instance
    with the offset subtracted from its range, and changes no instance that
    existed before. *)
Theorem MonomialTransform_init_endpoints (h : Heap) (i0 i1 : ref)
    (ty : TransformType) (r : Restriction) (off : Z) (h' : Heap)
    (t : MonomialTransform) :
  MonomialTransform_init h i0 i1 ty r off = (h', t) →
  (i0 < length h)%nat → (i1 < length h)%nat →
  let shifted i := mkMonomialIndex (Some FIXED)
                     ((λ x, - off + x) <$> index_range (deref h i))
                     (index_id (deref h i)) in
  (∀ j, (j < length h)%nat → deref h' j = deref h j)
  ∧ (index_type (deref h i0) ≠ Some FIXED → index0 t = i0)
  ∧ (index_type (deref h i0) = Some FIXED →
     (length h ≤ index0 t)%nat ∧ deref h' (index0 t) = shifted i0)
  ∧ (index_type (deref h i1) ≠ Some FIXED → index1 t = i1)
  ∧ (index_type (deref h i1) = Some FIXED →
     (length h ≤ index1 t)%nat ∧ deref h' (index1 t) = shifted i1)
  ∧ transform_type t = ty ∧ transform_restriction t = r ∧ offset t = off.
Proof.
  intros Heq H0 H1 shifted. unfold shifted. clear shifted.
  unfold MonomialTransform_init, MonomialIndex_sub, MonomialIndex_add, alloc in Heq.
  destruct (decide (index_type (deref h i0) = Some FIXED)) as [F0|F0]; simpl in Heq.
  - rewrite (deref_app_l h _ i1) in Heq by done.
    destruct (decide (index_type (deref h i1) = Some FIXED)) as [F1|F1];
      injection Heq as <- <-; simpl; rewrite ?length_app; simpl.
    + split_and!; try done; try lia.
      * intros j Hj. rewrite !deref_app_l; rewrite ?length_app; simpl; done || lia.
      * split; [lia|]. rewrite deref_app_l by (rewrite length_app; simpl; lia).
        rewrite deref_alloc. by rewrite F0.
      * split; [lia|].
        replace (length h + 1)%nat with (length (h ++ [mkMonomialIndex
          (index_type (deref h i0)) ((λ k, - off + k) <$> index_range (deref h i0))
          (index_id (deref h i0))])) by (rewrite length_app; simpl; lia).
        rewrite deref_alloc. by rewrite F1.
    + split_and!; try done; try lia.
      * intros j Hj. by rewrite deref_app_l.
      * split; [lia|]. rewrite deref_alloc. by rewrite F0.
  - destruct (decide (index_type (deref h i1) = Some FIXED)) as [F1|F1];
      injection Heq as <- <-; simpl.
    + split_and!; try done.
      * intros j Hj. by rewrite deref_app_l.
      * split; [lia|]. rewrite deref_alloc. by rewrite F1.
    + split_and!; done.
Qed.

Lemma MonomialTransform_init_endpoints_witness :
  let h := [mkMonomialIndex None [0; 1] None; mkMonomialIndex (Some FIXED) [3] None] in
  let r := MonomialTransform_init h 0%nat 1%nat JINV None 2 in
  index0 r.2 = 0%nat
  ∧ deref r.1 (index1 r.2) = mkMonomialIndex (Some FIXED) [1] None.
Proof.
  intros h r.
  destruct (MonomialTransform_init_endpoints h 0%nat 1%nat JINV None 2 r.1 r.2)
    as (_ & Hkeep & _ & _ & Hcopy & _); [reflexivity|simpl; lia..|].
  split; [by apply Hkeep|]. by apply Hcopy.
Defined.

(** ** [MonomialIndex.__str__] *)

Lemma to_int_nonnil (z : Z) :
  Z.to_int z ≠ Decimal.Pos Decimal.Nil ∧ Z.to_int z ≠ Decimal.Neg Decimal.Nil.
Proof.
  pose proof (DecimalZ.to_of (Z.to_int z)) as Hn. rewrite DecimalZ.of_to in Hn.
  rewrite Hn. destruct (Z.to_int z) as [d|d]; simpl.
  - split; [|done]. intros [= Hd]. by apply DecimalFacts.unorm_nonnil in Hd.
  - destruct (Decimal.nzhead d); done.
Qed.

Lemma py_str_int_inj (a b : Z) : py_str_int a = py_str_int b → a = b.
Proof.
  unfold py_str_int. intros Hs. apply DecimalZ.to_int_inj.
  apply (f_equal NilZero.int_of_string) in Hs.
  rewrite !NilZero.isi in Hs by apply to_int_nonnil. by injection Hs.
Qed.

(** X3: the printed name of a classified index tells its role and its id: two
    indices with a role other than fixed and with an id are printed alike
    only if they have the same role and the same id (their ranges play no
    part). *)
Theorem MonomialIndex_str_identifies_role_and_id (i j : MonomialIndex)
    (ti tj : IndexType) (ki kj : Z) :
  index_type i = Some ti → index_type j = Some tj →
  ti ≠ FIXED → tj ≠ FIXED →
  index_id i = Some ki → index_id j = Some kj →
  MonomialIndex_str i = MonomialIndex_str j ↔ ti = tj ∧ ki = kj.
Proof.
  intros Hti Htj Hfi Hfj Hki Hkj. unfold MonomialIndex_str.
  rewrite Hti, Htj, Hki, Hkj. split.
  - destruct ti, tj; try done; intros [= Hs];
      apply py_str_int_inj in Hs; by subst.
  - intros [-> ->]. by destruct tj.
Qed.

Lemma MonomialIndex_str_identifies_role_and_id_witness :
  MonomialIndex_str (mkMonomialIndex (Some SECONDARY) [0; 1] (Some 0))
  = MonomialIndex_str (mkMonomialIndex (Some SECONDARY) [0; 1; 2] (Some 0))
  ∧ MonomialIndex_str (mkMonomialIndex (Some PRIMARY) [0; 1] (Some 0))
    ≠ MonomialIndex_str (mkMonomialIndex (Some SECONDARY) [0; 1] (Some 0)).
Proof.
  split.
  - apply (proj2 (MonomialIndex_str_identifies_role_and_id
                    (mkMonomialIndex (Some SECONDARY) [0; 1] (Some 0))
                    (mkMonomialIndex (Some SECONDARY) [0; 1; 2] (Some 0))
                    SECONDARY SECONDARY 0 0 eq_refl eq_refl
                    ltac:(discriminate) ltac:(discriminate) eq_refl eq_refl)).
    split; reflexivity.
  - intros Hs.
    apply (proj1 (MonomialIndex_str_identifies_role_and_id
                    (mkMonomialIndex (Some PRIMARY) [0; 1] (Some 0))
                    (mkMonomialIndex (Some SECONDARY) [0; 1] (Some 0))
                    PRIMARY SECONDARY 0 0 eq_refl eq_refl
                    ltac:(discriminate) ltac:(discriminate) eq_refl eq_refl)) in Hs.
    destruct Hs as [Hs _]. discriminate Hs.
Defined.

(* ===================================================================== *)
(** * Further properties of the loop over the factors *)
(* ===================================================================== *)

Lemma length_py_range (n : Z) : length (py_range n) = Z.to_nat n.
Proof. unfold py_range. by rewrite length_fmap, length_seq. Qed.

Lemma elem_of_py_range (n c : Z) : c ∈ py_range n ↔ 0 ≤ c < n.
Proof.
  unfold py_range. rewrite list_elem_of_fmap. split.
  - intros (k & -> & Hk). apply elem_of_seq in Hk. lia.
  - intros Hc. exists (Z.to_nat c). split; [lia|]. apply elem_of_seq. lia.
Qed.

Lemma py_getitem_range_pos (n : Z) : 0 < n → py_getitem (py_range n) 0 = Ok 0.
Proof.
  intros Hn. unfold py_getitem, py_range. simpl.
  destruct (Z.to_nat n) eqn:Hz; [lia|]. reflexivity.
Qed.

Lemma py_range_nonpos (n : Z) : n ≤ 0 → py_range n = [].
Proof. intros Hn. unfold py_range. by replace (Z.to_nat n) with 0%nat by lia. Qed.

(** A factor whose only component is a free index that has not been seen
    before: the component is resolved to a new instance over
    [range(vdim)], and the rest of the iteration is the Piola block on it
    followed by the derivative loop. *)
Lemma process_factor_fresh_component (st : InitState) (f : MonomialFactor) (k : nat) :
  factor_components f = [Index k] → st_index_map st !! Index k = None →
  ∃ h self vindex component,
    index_range (deref h component) =
      py_range (value_dimension (factor_element f))
    ∧ process_factor st f =
      '(h, self, c0) ← handle_piola h self f component;
      let '(h, self, index_map, derivatives) :=
        extract_derivatives h self (<[Index k := component]> (st_index_map st)) f
                            (factor_derivatives f) [] in
      Ok (mkInitState h
            (append_basis_function
               (mkMonomialBasisFunction (factor_element f) vindex [c0] derivatives
                                        (factor_restriction f)) self)
            index_map).
Proof.
  intros Hc Hnone. unfold process_factor. rewrite Hc.
  destruct (factor_function f) as [count|count]; simpl; rewrite Hnone; simpl;
    match goal with
    | |- context [handle_piola ?h ?s f ?c] =>
        exists h, s; eexists; exists c
    end;
    (split; [by rewrite deref_alloc|]);
    by destruct (handle_piola _ _ _ _) as [[[? ?] ?]|].
Qed.

(** X4: a new free component on an element of value dimension 0 (or less): the
    range of the component index is empty and looking up its first entry
    raises [IndexError]. *)
Theorem process_factor_empty_component_range (st : InitState) (f : MonomialFactor)
    (k : nat) :
  factor_components f = [Index k] → st_index_map st !! Index k = None →
  value_dimension (factor_element f) ≤ 0 →
  process_factor st f = Raise IndexError.
Proof.
  intros Hc Hnone Hdim.
  destruct (process_factor_fresh_component st f k Hc Hnone)
    as (h & self & vindex & component & Hrange & ->).
  unfold handle_piola. rewrite Hrange.
  rewrite (py_range_nonpos (value_dimension (factor_element f))) by done.
  reflexivity.
Qed.

(** X5: a new free component whose range covers sub elements with different
    mappings is rejected with the exception of line 255. *)
Theorem process_factor_mapping_conflict (st : InitState) (f : MonomialFactor)
    (k : nat) (c : Z) :
  factor_components f = [Index k] → st_index_map st !! Index k = None →
  0 ≤ c < value_dimension (factor_element f) →
  (component_element (factor_element f) c).1 ≠
  (component_element (factor_element f) 0).1 →
  process_factor st f =
  Raise (MonomialException "Unable to handle different mappings for index range.").
Proof.
  intros Hc Hnone Hrange Hdiff.
  destruct (process_factor_fresh_component st f k Hc Hnone)
    as (h & self & vindex & component & Hr & ->).
  unfold handle_piola. rewrite Hr.
  assert (c ≠ 0) by (intros ->; done).
  rewrite bool_decide_eq_true_2 by (rewrite length_py_range; lia).
  rewrite (py_getitem_range_pos (value_dimension (factor_element f))) by lia.
  simpl.
  assert (forallb (λ c0, bool_decide ((component_element (factor_element f) c0).1 =
            (component_element (factor_element f) 0).1))
            (py_range (value_dimension (factor_element f))) = false) as ->; [|done].
  apply not_true_is_false. intros Hall.
  rewrite forallb_forall in Hall.
  specialize (Hall c). rewrite bool_decide_eq_true in Hall.
  apply Hdiff, Hall. apply list_elem_of_In, elem_of_py_range. lia.
Qed.

(** X6: a new free component on an element of positive value dimension all of
    whose components have the same mapping is accepted. *)
Theorem process_factor_uniform_mapping_accepted (st : InitState) (f : MonomialFactor)
    (k : nat) :
  factor_components f = [Index k] → st_index_map st !! Index k = None →
  0 < value_dimension (factor_element f) →
  (∀ c, 0 ≤ c < value_dimension (factor_element f) →
        (component_element (factor_element f) c).1 =
        (component_element (factor_element f) 0).1) →
  ∃ st', process_factor st f = Ok st'.
Proof.
  intros Hc Hnone Hpos Hsame.
  destruct (process_factor_fresh_component st f k Hc Hnone)
    as (h & self & vindex & component & Hr & ->).
  assert (∃ r, handle_piola h self f component = Ok r) as [[[h1 self1] c0] ->].
  { unfold handle_piola. rewrite Hr.
    rewrite (py_getitem_range_pos (value_dimension (factor_element f))) by done.
    simpl.
    assert (forallb (λ c0, bool_decide ((component_element (factor_element f) c0).1 =
              (component_element (factor_element f) 0).1))
              (py_range (value_dimension (factor_element f))) = true) as Hall.
    { apply forallb_forall. intros c Hin. apply bool_decide_eq_true.
      apply Hsame. by apply elem_of_py_range, list_elem_of_In. }
    rewrite Hall. destruct (bool_decide _); simpl;
      destruct (component_element _ 0) as [[] off]; simpl; eauto;
      destruct (MonomialTransform_init _ _ _ _ _ _); eauto. }
  simpl. destruct (extract_derivatives _ _ _ _ _ _) as [[[? ?] ?] ?]. eauto.
Qed.

Lemma deref_alt (h : Heap) (r : ref) :
  deref h r = default (mkMonomialIndex None [] None) (h !! r).
Proof. exact (list_lookup_total_alt h r). Qed.

Lemma unclassified_deref (h : Heap) (r : ref) (t : IndexType) :
  unclassified h → index_type (deref h r) = Some t → ¬ summation_role t.
Proof.
  intros Hh. rewrite deref_alt.
  destruct (h !! r) as [mi|] eqn:Hr; simpl; [|done].
  by apply (proj1 (Forall_lookup _ _) Hh r mi).
Qed.

Lemma unclassified_alloc (h : Heap) (mi : MonomialIndex) :
  unclassified h → (∀ t, index_type mi = Some t → ¬ summation_role t) →
  unclassified (h ++ [mi]).
Proof. intros Hh Hmi. apply Forall_app. split; [done|]. by constructor. Qed.

Lemma not_summation_role_FIXED : ¬ summation_role FIXED.
Proof. by intros [|[|]]. Qed.

Lemma not_summation_role_PRIMARY : ¬ summation_role PRIMARY.
Proof. by intros [|[|]]. Qed.

Lemma unclassified_add (h : Heap) (r : ref) (k : Z) :
  unclassified h → unclassified (MonomialIndex_add h r k).1.
Proof.
  intros Hh. unfold MonomialIndex_add, alloc. simpl.
  apply unclassified_alloc; [done|]. simpl. intros t. by apply unclassified_deref.
Qed.

Lemma MonomialTransform_init_unclassified (h : Heap) (i0 i1 : ref)
    (ty : TransformType) (r : Restriction) (off : Z) :
  unclassified h → unclassified (MonomialTransform_init h i0 i1 ty r off).1.
Proof.
  intros Hh. unfold MonomialTransform_init, MonomialIndex_sub.
  destruct (decide (index_type (deref h i0) = Some FIXED)).
  - destruct (MonomialIndex_add h i0 (- off)) as [h1 r0] eqn:H0.
    assert (unclassified h1).
    { replace h1 with (MonomialIndex_add h i0 (- off)).1 by (by rewrite H0).
      by apply unclassified_add. }
    destruct (decide (index_type (deref h1 i1) = Some FIXED)); [|done].
    destruct (MonomialIndex_add h1 i1 (- off)) as [h2 r1] eqn:H1. simpl.
    replace h2 with (MonomialIndex_add h1 i1 (- off)).1 by (by rewrite H1).
    by apply unclassified_add.
  - destruct (decide (index_type (deref h i1) = Some FIXED)); [|done].
    destruct (MonomialIndex_add h i1 (- off)) as [h2 r1] eqn:H1. simpl.
    replace h2 with (MonomialIndex_add h i1 (- off)).1 by (by rewrite H1).
    by apply unclassified_add.
Qed.

Lemma MonomialTransform_init_endpoints_aux (h : Heap) (i0 i1 : ref)
    (ty : TransformType) (r : Restriction) (off : Z) :
  let t := (MonomialTransform_init h i0 i1 ty r off).2 in
  transform_type t = ty ∧ offset t = off ∧ transform_restriction t = r.
Proof.
  unfold MonomialTransform_init.
  destruct (if decide _ then _ else _) as [h1 r0].
  by destruct (if decide _ then _ else _) as [h2 r1].
Qed.

Lemma _extract_components_unclassified (vdim : Z) :
  ∀ (cs : list UFLIndex) (h : Heap) (index_map : gmap UFLIndex ref) (acc : list ref),
  unclassified h → unclassified (_extract_components h index_map cs vdim acc).1.1.
Proof.
  induction cs as [|c cs IH]; intros h im acc Hh; simpl; [done|].
  destruct (im !! c) as [r|]; [by apply IH|].
  destruct c; simpl; apply IH; apply unclassified_alloc; try done; simpl.
  intros t [= <-]. apply not_summation_role_FIXED.
Qed.

Lemma handle_piola_shape (h : Heap) (self : TransformedMonomial)
    (f : MonomialFactor) (c : UFLIndex) (component : ref)
    (h' : Heap) (self' : TransformedMonomial) (c0 : ref) :
  handle_piola h self f component = Ok (h', self', c0) →
  resolves h c component → unclassified h →
  unclassified h'
  ∧ coefficients self' = coefficients self
  ∧ ∃ ts, transforms self' = transforms self ++ ts
          ∧ length ts =
            match (component_element (factor_element f) (first_component_value c)).1 with
            | AFFINE => 0%nat
            | _ => 1%nat
            end.
Proof.
  unfold handle_piola. intros Hrun Hres Hh.
  destruct (if bool_decide _ then _ else _) as [[]|]; [|done]. simpl in Hrun.
  destruct (py_getitem _ 0) as [first|] eqn:Hfirst; [|done]. simpl in Hrun.
  apply (resolves_first _ c) in Hfirst as ->; [|done].
  destruct (component_element _ _) as [mapping off]. simpl.
  assert (Hfresh : unclassified
            (MonomialIndex_add
               (h ++ [mkMonomialIndex None
                        (py_range (geometric_dimension (factor_element f))) None])
               (length h) off).1).
  { apply unclassified_add, unclassified_alloc; done. }
  destruct mapping.
  - injection Hrun as <- <- <-. split_and!; [done..|]. exists [].
    by rewrite app_nil_r.
  - unfold alloc in Hrun.
    destruct (MonomialTransform_init _ _ _ _ _ _) as [h3 t] eqn:Ht.
    apply (f_equal fst) in Ht. simpl in Ht. subst h3.
    injection Hrun as <- <- <-.
    split_and!; [apply MonomialTransform_init_unclassified; exact Hfresh|done|].
    by exists [t].
  - unfold alloc in Hrun.
    destruct (MonomialTransform_init _ _ _ _ _ _) as [h3 t] eqn:Ht.
    apply (f_equal fst) in Ht. simpl in Ht. subst h3.
    injection Hrun as <- <- <-.
    split_and!; [apply MonomialTransform_init_unclassified; exact Hfresh|done|].
    by exists [t].
Qed.

Lemma extract_derivatives_shape (f : MonomialFactor) :
  ∀ (ds : list UFLIndex) (h : Heap) (self : TransformedMonomial)
    (index_map : gmap UFLIndex ref) (acc : list ref) (h' : Heap)
    (self' : TransformedMonomial) (index_map' : gmap UFLIndex ref)
    (derivatives : list ref),
  extract_derivatives h self index_map f ds acc = (h', self', index_map', derivatives) →
  unclassified h →
  unclassified h'
  ∧ coefficients self' = coefficients self
  ∧ length derivatives = (length acc + length ds)%nat
  ∧ ∃ ts, transforms self' = transforms self ++ ts
          ∧ length ts = length ds
          ∧ Forall (λ t, transform_type t = JINV ∧ offset t = 0
                         ∧ transform_restriction t = factor_restriction f) ts.
Proof.
  induction ds as [|d ds IH]; intros h self im acc h' self' im' ders Heq Hh.
  - simpl in Heq. injection Heq as <- <- <- <-.
    split_and!; [done..|simpl; lia|]. exists []. by rewrite app_nil_r.
  - simpl in Heq. unfold alloc at 1 in Heq.
    set (h1 := h ++ [_]) in Heq.
    assert (Hh1 : unclassified h1) by (by apply unclassified_alloc).
    destruct (match im !! d with Some _ => _ | None => _ end) as [h2 index1] eqn:Hres.
    assert (Hh2 : unclassified h2).
    { destruct (im !! d); [by simplify_eq|].
      destruct d; unfold alloc in Hres; injection Hres as <- <-;
        apply unclassified_alloc; try done; simpl.
      intros t [= <-]. apply not_summation_role_FIXED. }
    destruct (MonomialTransform_init _ _ _ _ _ _) as [h3 t] eqn:Ht.
    pose proof (MonomialTransform_init_unclassified h2 (length h) index1 JINV
                  (factor_restriction f) 0 Hh2) as Hh3.
    pose proof (MonomialTransform_init_endpoints_aux h2 (length h) index1 JINV
                  (factor_restriction f) 0) as Hfields.
    rewrite Ht in Hh3, Hfields. simpl in Hh3, Hfields.
    apply IH in Heq as (Hh' & Hco & Hlen & ts & Hts & Hlts & Hall); [|done].
    split_and!; [done..| |].
    + rewrite Hlen, length_app. simpl. lia.
    + exists (t :: ts). simpl in Hts. rewrite <- app_assoc in Hts.
      split_and!; [done|simpl; lia|]. constructor; [|done]. apply Hfields.
Qed.

Lemma process_factor_shape (st st' : InitState) (f : MonomialFactor) :
  process_factor st f = Ok st' → Inv st → unclassified (st_heap st) →
  unclassified (st_heap st')
  ∧ ∃ v, basis_functions (st_self st') = basis_functions (st_self st) ++ [v]
         ∧ packaged (st_heap st') f v
         ∧ coefficients (st_self st') =
           coefficients (st_self st) ++ new_coefficients f v
         ∧ length (transforms (st_self st')) =
           (length (transforms (st_self st)) + piola_transforms f
            + length (factor_derivatives f))%nat.
Proof.
  destruct st as [h self im]. unfold process_factor, Inv. simpl.
  intros Hrun [Hself Hmap] Hh.
  set (vstep := match factor_function f with BasisFunction _ => _ | Function _ => _ end)
    in Hrun.
  assert (∃ c, vstep = (h ++ [value_index f], c, length h)
               ∧ basis_functions c = basis_functions self
               ∧ transforms c = transforms self
               ∧ self_valid (h ++ [value_index f]) c
               ∧ coefficients c = coefficients self ++
                   match factor_function f with
                   | Function count => [mkMonomialCoefficient (length h) count]
                   | BasisFunction _ => []
                   end)
    as (self1 & -> & Hbf1 & Htr1 & Hself1 & Hco1).
  { unfold vstep, alloc, value_index. destruct (factor_function f); eexists;
      (split; [reflexivity|]); split_and!; try done.
    - eapply self_valid_prefix; [apply prefix_snoc|done].
    - by rewrite app_nil_r.
    - apply self_valid_append_coefficient;
        [eapply self_valid_prefix; [apply prefix_snoc|done]|].
      simpl. rewrite length_app. simpl. lia. }
  set (h1 := h ++ [value_index f]) in *.
  assert (Hp1 : h `prefix_of` h1) by apply prefix_snoc.
  assert (Hv : (length h < length h1)%nat).
  { unfold h1. rewrite length_app. simpl. lia. }
  assert (Hh1 : unclassified h1).
  { apply unclassified_alloc; [done|]. unfold value_index.
    destruct (factor_function f); simpl; [|done].
    intros t [= <-]. apply not_summation_role_PRIMARY. }
  assert (Hvi : deref h1 (length h) = value_index f) by apply deref_alloc.
  pose proof (length_extract_components (value_dimension (factor_element f))
                (factor_components f) h1 im []) as Hlen.
  pose proof (_extract_components_unclassified (value_dimension (factor_element f))
                (factor_components f) h1 im [] Hh1) as Hh2.
  destruct (_extract_components _ _ _ _ _) as [[h2 im2] comps] eqn:Hcomps.
  apply _extract_components_spec in Hcomps as (Hp2 & Hmap2 & news & -> & Hnews);
    [|by eapply map_Forall_resolves_prefix].
  simpl in Hlen, Hrun, Hnews, Hh2.
  case_bool_decide as Hrank; [done|].
  unfold piola_transforms, factor_mapping.
  destruct news as [|component tail].
  - apply Forall2_nil_inv_r in Hnews as Hnil. rewrite Hnil in *. simpl in Hrun.
    destruct (extract_derivatives _ _ _ _ _ _) as [[[h3 self3] im3] ders] eqn:Hders.
    pose proof Hders as Hders'.
    apply extract_derivatives_spec in Hders as (Hp3 & _ & _ & _ & Hbf3 & _);
      [|by eapply self_valid_prefix|done|by constructor].
    apply extract_derivatives_shape in Hders'
      as (Hh3 & Hco3 & Hlders & ts & Hts & Hlts & _); [|done].
    injection Hrun as <-. simpl. split; [done|].
    eexists. split_and!.
    + by rewrite Hbf3, Hbf1.
    + unfold packaged. simpl.
      assert (h1 `prefix_of` h3) by (by etrans).
      split_and!; try done.
      * apply prefix_length in Hp2, Hp3. lia.
      * by rewrite (deref_prefix h1 h3).
      * by rewrite Hnil.
      * lia.
    + rewrite Hco3, Hco1. unfold new_coefficients. simpl. done.
    + rewrite Hts, length_app, Htr1, Hlts. lia.
  - destruct tail as [|? ?]; [|simpl in Hrank; lia].
    apply Forall2_cons_inv_r in Hnews as (c & cs & Hres & Hcs & Hfc).
    apply Forall2_nil_inv_r in Hcs as ->. rewrite Hfc in *. simpl in Hrun.
    destruct (handle_piola _ _ _ _) as [[[h3 self3] c0]|] eqn:Hpiola; [|done].
    pose proof Hpiola as Hpiola'.
    eapply handle_piola_spec in Hpiola as (Hp3 & Hself3 & Hc0 & Hbf3 & _);
      [|done|by eapply self_valid_prefix].
    eapply handle_piola_shape in Hpiola'
      as (Hh3 & Hco3 & ts3 & Hts3 & Hlts3); [|done..].
    simpl in Hrun.
    destruct (extract_derivatives _ _ _ _ _ _) as [[[h4 self4] im4] ders] eqn:Hders.
    pose proof Hders as Hders'.
    apply extract_derivatives_spec in Hders as (Hp4 & _ & _ & _ & Hbf4 & _);
      [|done|by eapply map_Forall_resolves_prefix|by constructor].
    apply extract_derivatives_shape in Hders'
      as (Hh4 & Hco4 & Hlders & ts & Hts & Hlts & _); [|done].
    injection Hrun as <-. simpl. split; [done|].
    eexists. split_and!.
    + by rewrite Hbf4, Hbf3, Hbf1.
    + unfold packaged. simpl.
      assert (h1 `prefix_of` h4) by (etrans; [|done]; by etrans).
      split_and!; try done.
      * apply prefix_length in Hp2, Hp3, Hp4. lia.
      * by rewrite (deref_prefix h1 h4).
      * by rewrite Hfc.
    + rewrite Hco4, Hco3, Hco1. unfold new_coefficients. simpl. done.
    + rewrite Hts, length_app, Hts3, length_app, Htr1, Hlts, Hlts3.
      destruct (component_element _ _).1; lia.
Qed.

Lemma packaged_prefix (h h' : Heap) (f : MonomialFactor) (v : MonomialBasisFunction) :
  h `prefix_of` h' → packaged h f v → packaged h' f v.
Proof.
  intros Hp (Hv & Hd & ? & ? & ? & ? & ?). pose proof (prefix_length _ _ Hp).
  split_and!; try done; [lia| by rewrite (deref_prefix h h')].
Qed.

(** The state after the factor loop: one packaged basis function per
    factor, in order; the coefficients of the [Function] factors, in order;
    and no instance with a summation role. *)
Lemma process_factors_shape :
  ∀ (fs : list MonomialFactor) (st st' : InitState),
  process_factors st fs = Ok st' → Inv st → unclassified (st_heap st) →
  unclassified (st_heap st')
  ∧ ∃ vs, basis_functions (st_self st') = basis_functions (st_self st) ++ vs
          ∧ Forall2 (packaged (st_heap st')) fs vs
          ∧ coefficients (st_self st') =
            coefficients (st_self st) ++ concat (zip_with new_coefficients fs vs)
          ∧ length (transforms (st_self st')) =
            (length (transforms (st_self st))
             + sum_list ((λ f, piola_transforms f + length (factor_derivatives f))%nat
                         <$> fs))%nat.
Proof.
  induction fs as [|f fs IH]; intros st st' Hrun Hinv Hh.
  - simpl in *. injection Hrun as <-. split; [done|]. exists [].
    rewrite !app_nil_r. split_and!; [done|constructor|done|lia].
  - simpl in Hrun. destruct (process_factor st f) as [st1|] eqn:Hf; [|done].
    simpl in Hrun.
    pose proof (process_factor_spec _ _ _ Hf Hinv) as (Hinv1 & _ & _).
    apply process_factor_shape in Hf as (Hh1 & v & Hbf & Hpk & Hco & Htr); [|done..].
    pose proof (process_factors_spec _ _ _ Hrun Hinv1) as (_ & Hp & _).
    apply IH in Hrun as (Hh' & vs & Hbf' & Hpks & Hco' & Htr'); [|done..].
    split; [done|]. exists (v :: vs). split_and!.
    + by rewrite Hbf', Hbf, <- app_assoc.
    + constructor; [by eapply packaged_prefix|done].
    + rewrite Hco', Hco, <- app_assoc. done.
    + rewrite Htr', Htr, fmap_cons.
      change (sum_list (?x :: ?l)) with (x + sum_list l)%nat. lia.
Qed.

Lemma unclassified_initial (m : Monomial) : unclassified (st_heap (initial_state m)).
Proof. constructor. Qed.

(* ===================================================================== *)
(** * Further properties of the classification loop *)
(* ===================================================================== *)

Lemma deref_set (h : Heap) (i r : ref) (t : IndexType) (k : Z) :
  deref (set_type_and_id h i t k) r =
  if decide (i = r ∧ (i < length h)%nat)
  then mkMonomialIndex (Some t) (index_range (deref h i)) (Some k)
  else deref h r.
Proof. exact (list_lookup_total_insert h i r _). Qed.

Lemma classify_indices_range (int ext : list ref) :
  ∀ (todo : list ref) (h : Heap) (g : IndexCounters) (h' : Heap) (g' : IndexCounters),
  classify_indices int ext todo h g = Ok (h', g') →
  ∀ r, index_range (deref h' r) = index_range (deref h r).
Proof.
  induction todo as [|i todo IH]; intros h g h' g' Hrun r.
  - simpl in Hrun. by injection Hrun as <- <-.
  - destruct (decide (index_type (deref h i) = None)) as [Hty|Hty].
    + rewrite classify_indices_untyped in Hrun by done.
      destruct (classification _ _) as [t|]; [|done].
      rewrite (IH _ _ _ _ Hrun), deref_set.
      case_decide as Hi; [|done]. destruct Hi as [-> _]. done.
    + rewrite classify_indices_typed in Hrun by done. by eapply IH.
Qed.

Lemma next_id_bump (g : IndexCounters) (t role : IndexType) :
  summation_role t → summation_role role →
  next_id match t with
          | SECONDARY => (next_secondary_index g).1
          | INTERNAL => (next_internal_index g).1
          | EXTERNAL => (next_external_index g).1
          | _ => g
          end role
  = if decide (role = t) then next_id g role + 1 else next_id g role.
Proof.
  intros [-> | [-> | ->]] [-> | [-> | ->]]; simpl; done.
Qed.

Lemma ids_consistent_step (h : Heap) (g : IndexCounters) (i : ref) (t : IndexType) :
  summation_role t → (i < length h)%nat → index_type (deref h i) = None →
  ids_consistent h g →
  ids_consistent (set_type_and_id h i t (next_id g t))
    match t with
    | SECONDARY => (next_secondary_index g).1
    | INTERNAL => (next_internal_index g).1
    | EXTERNAL => (next_external_index g).1
    | _ => g
    end.
Proof.
  intros Ht Hi Hty (Hpos & Hbound & Hinj & Hsurj).
  assert (Hd : ∀ r, deref (set_type_and_id h i t (next_id g t)) r =
            if decide (i = r)
            then mkMonomialIndex (Some t) (index_range (deref h i)) (Some (next_id g t))
            else deref h r).
  { intros r. rewrite deref_set.
    destruct (decide (i = r)) as [<-|Hne];
      [by rewrite decide_True|by rewrite decide_False by (by intros [])]. }
  split_and!.
  - intros role Hrole. rewrite next_id_bump by done.
    specialize (Hpos role Hrole). case_decide; lia.
  - intros r role Hrole. rewrite Hd, next_id_bump by done.
    destruct (decide (i = r)) as [<-|Hne]; simpl.
    + intros [= ->]. exists (next_id g role). rewrite decide_True by done.
      split; [done|]. specialize (Hpos role Hrole). lia.
    + intros Hr. destruct (Hbound r role Hrole Hr) as (k & Hk & Hlt).
      exists k. split; [done|]. case_decide; lia.
  - intros r1 r2 role Hrole. rewrite !Hd.
    destruct (decide (i = r1)) as [<-|Hne1], (decide (i = r2)) as [<-|Hne2];
      simpl; try done.
    + intros [= ->] Hr2 Hid. destruct (Hbound r2 role Hrole Hr2) as (k & Hk & Hlt).
      rewrite Hk in Hid. injection Hid as Hid. lia.
    + intros Hr1 [= ->] Hid. destruct (Hbound r1 role Hrole Hr1) as (k & Hk & Hlt).
      rewrite Hk in Hid. injection Hid as Hid. lia.
    + apply Hinj. done.
  - intros role k Hrole. rewrite next_id_bump by done. intros Hk.
    destruct (decide (role = t ∧ k = next_id g t)) as [[-> ->]|Hne].
    + exists i. rewrite Hd, decide_True by done. done.
    + destruct (Hsurj role k Hrole) as (r & Hr & Hid).
      { case_decide as Heq; [|done]. subst role.
        assert (k ≠ next_id g t) by (intros ->; by apply Hne). lia. }
      exists r. rewrite Hd, decide_False; [done|]. intros ->. congruence.
Qed.

Lemma classify_indices_ids (int ext : list ref) :
  ∀ (todo : list ref) (h : Heap) (g : IndexCounters) (h' : Heap) (g' : IndexCounters),
  classify_indices int ext todo h g = Ok (h', g') →
  Forall (λ r, (r < length h)%nat) todo →
  ids_consistent h g → ids_consistent h' g'.
Proof.
  induction todo as [|i todo IH]; intros h g h' g' Hrun Hvalid Hids.
  - simpl in Hrun. by injection Hrun as <- <-.
  - apply Forall_cons in Hvalid as [Hi Hvalid].
    destruct (decide (index_type (deref h i) = None)) as [Hty|Hty].
    + rewrite classify_indices_untyped in Hrun by done.
      destruct (classification _ _) as [t|] eqn:Hcl; [|done].
      apply classification_summation_role in Hcl.
      eapply IH; [done| by rewrite length_set |].
      by apply ids_consistent_step.
    + rewrite classify_indices_typed in Hrun by done. by eapply IH.
Qed.

Lemma ids_consistent_unclassified (h : Heap) :
  unclassified h → ids_consistent h (mkIndexCounters 0 0 0).
Proof.
  intros Hh. split_and!.
  - by intros role [-> | [-> | ->]].
  - intros r role Hrole Hr. by destruct (unclassified_deref h r role).
  - intros r1 r2 role Hrole Hr. by destruct (unclassified_deref h r1 role).
  - intros role k [-> | [-> | ->]]; simpl; lia.
Qed.

(* ===================================================================== *)
(** * Further properties of the monomial transformation *)
(* ===================================================================== *)

(** What a successful construction went through. *)
Lemma TransformedMonomial_init_inv (g : IndexCounters) (m : Monomial) (t : Transformed) :
  TransformedMonomial_init g m = Ok t →
  ∃ st,
    process_factors (initial_state m) (factors m) = Ok st
    ∧ out_self t = st_self st
    ∧ classify_indices (extract_internal_indices (st_heap st) (st_self st) None)
        (extract_external_indices (st_heap st) (st_self st) None)
        (extract_indices (st_heap st) (st_self st) None)
        (st_heap st) (mkIndexCounters 0 0 0) = Ok (out_heap t, out_counters t).
Proof.
  rewrite TransformedMonomial_init_unfold.
  destruct (process_factors _ _) as [st|] eqn:Hfactors; [|done]. simpl.
  fold (extract_indices (st_heap st) (st_self st) None).
  destruct (classify_indices _ _ _ _ _) as [[h g']|] eqn:Hrun; [|done]. simpl.
  intros [= <-]. by exists st.
Qed.

(** X7: after a successful construction every summation id is below the final
    value of its role's counter, no two indices of one role share an id, and
    every id below the counter is in use: the ids of a role are exactly
    0, ..., n-1. *)
Theorem summation_ids_are_consecutive (g : IndexCounters) (m : Monomial)
    (t : Transformed) :
  TransformedMonomial_init g m = Ok t →
  ids_consistent (out_heap t) (out_counters t).
Proof.
  intros Hinit. apply TransformedMonomial_init_inv in Hinit as (st & Hfactors & _ & Hrun).
  pose proof (process_factors_spec _ _ _ Hfactors (Inv_initial_state m))
    as ([Hself _] & _ & _).
  pose proof (process_factors_shape _ _ _ Hfactors (Inv_initial_state m)
                (unclassified_initial m)) as [Hh _].
  eapply classify_indices_ids; [done| |by apply ids_consistent_unclassified].
  by apply extract_indices_valid.
Qed.

(** X8: after a successful construction no index of the monomial is left without
    a role. *)
Theorem no_index_left_untyped (g : IndexCounters) (m : Monomial) (t : Transformed) :
  TransformedMonomial_init g m = Ok t →
  extract_indices (out_heap t) (out_self t) None = [].
Proof.
  intros Hinit. apply TransformedMonomial_init_inv in Hinit as (st & Hfactors & Hs & Hrun).
  pose proof (process_factors_spec _ _ _ Hfactors (Inv_initial_state m))
    as ([Hself _] & _ & _).
  pose proof (extract_indices_valid _ _ Hself) as Hvalid.
  apply classify_indices_ok in Hrun as (_ & Hkeep & _ & Hrole).
  rewrite Hs. destruct (extract_indices (out_heap t) (st_self st) None) as [|i l] eqn:Hl;
    [done|exfalso].
  assert (Hi : i ∈ extract_indices (out_heap t) (st_self st) None)
    by (rewrite Hl; by left).
  apply extract_indices_untyped in Hi as [Hocc Hnone].
  destruct (decide (index_type (deref (st_heap st) i) = None)) as [Hty|Hty].
  - destruct (Hrole i) as (role & _ & Hr); [|  |done|congruence].
    + by apply extract_indices_untyped.
    + apply (proj1 (Forall_forall _ _) Hvalid). by apply extract_indices_untyped.
  - rewrite Hkeep in Hnone; done.
Qed.

Lemma elem_of_concat {A} (x : A) (ls : list (list A)) :
  x ∈ concat ls ↔ ∃ l, x ∈ l ∧ l ∈ ls.
Proof.
  induction ls as [|l ls IH]; simpl.
  - split; [by intros ?%elem_of_nil|]. by intros (l & _ & ?%elem_of_nil).
  - rewrite elem_of_app, IH. split.
    + intros [?|(l' & ? & ?)]; [exists l; split; [done|by left]|].
      exists l'. split; [done|by right].
    + intros (l' & Hx & [->|?]%elem_of_cons); [by left|]. right. by exists l'.
Qed.

Lemma numbers_of_new_coefficients (h : Heap) :
  ∀ (fs : list MonomialFactor) (vs : list MonomialBasisFunction),
  Forall2 (packaged h) fs vs →
  number <$> concat (zip_with new_coefficients fs vs) = omap coefficient_number fs.
Proof.
  induction 1 as [|f v fs vs _ _ IH]; [done|].
  simpl. rewrite fmap_app, IH. unfold new_coefficients, coefficient_number.
  by destruct (factor_function f).
Qed.

(** X9: a successful construction packages the factors one by one, in order:
    each basis function carries the element and the restriction of its
    factor, as many components (at most one) and as many derivatives; the
    coefficients are those of the [Function] factors, in order; and there is
    one transform per derivative plus one per Piola-mapped factor. *)
Theorem transformed_monomial_structure (g : IndexCounters) (m : Monomial)
    (t : Transformed) :
  TransformedMonomial_init g m = Ok t →
  Forall2 (λ f v, element v = factor_element f
                  ∧ restriction v = factor_restriction f
                  ∧ length (components v) = length (factor_components f)
                  ∧ (length (components v) ≤ 1)%nat
                  ∧ length (derivatives v) = length (factor_derivatives f))
          (factors m) (basis_functions (out_self t))
  ∧ number <$> coefficients (out_self t) = omap coefficient_number (factors m)
  ∧ length (transforms (out_self t)) =
    sum_list ((λ f, piola_transforms f + length (factor_derivatives f))%nat
                <$> factors m).
Proof.
  intros Hinit. apply TransformedMonomial_init_inv in Hinit as (st & Hfactors & -> & _).
  pose proof (process_factors_shape _ _ _ Hfactors (Inv_initial_state m)
                (unclassified_initial m)) as (_ & vs & Hbf & Hpk & Hco & Htr).
  simpl in Hbf, Hco, Htr. rewrite Hbf, Hco, Htr. split_and!.
  - eapply Forall2_impl; [done|]. intros f v (_ & _ & ? & ? & ? & ? & ?). done.
  - by eapply numbers_of_new_coefficients.
  - done.
Qed.

Lemma occurrences_pos (l : list ref) (i : ref) : i ∈ l → (1 ≤ occurrences l i)%nat.
Proof.
  intros Hi. unfold occurrences.
  assert (Hin : i ∈ filter (λ j, j = i) l) by (by apply list_elem_of_filter).
  destruct (filter _ l); [by apply elem_of_nil in Hin|simpl; lia].
Qed.

Lemma classification_both_sides (n k : nat) (t : IndexType) :
  (1 ≤ n)%nat → (1 ≤ k)%nat → classification n k = Some t → t = SECONDARY.
Proof.
  unfold classification.
  destruct n as [|[|[|n]]], k as [|[|[|k]]]; intros; simplify_eq; done || lia.
Qed.

(** X10: after a successful construction the value index of a basis function
    made from a [BasisFunction] factor is PRIMARY with the count of the
    function as id; the one made from a [Function] factor is SECONDARY and
    is the index of the coefficient registered for it; both range over the
    space dimension of the element. *)
Theorem value_index_roles (g : IndexCounters) (m : Monomial) (t : Transformed) :
  TransformedMonomial_init g m = Ok t →
  Forall2 (λ f v,
             index_range (deref (out_heap t) (index v)) =
               py_range (space_dimension (factor_element f))
             ∧ match factor_function f with
               | BasisFunction count =>
                   index_type (deref (out_heap t) (index v)) = Some PRIMARY
                   ∧ index_id (deref (out_heap t) (index v)) = Some count
               | Function count =>
                   index_type (deref (out_heap t) (index v)) = Some SECONDARY
                   ∧ mkMonomialCoefficient (index v) count
                     ∈ coefficients (out_self t)
               end)
          (factors m) (basis_functions (out_self t)).
Proof.
  intros Hinit. apply TransformedMonomial_init_inv in Hinit as (st & Hfactors & -> & Hrun).
  pose proof (process_factors_shape _ _ _ Hfactors (Inv_initial_state m)
                (unclassified_initial m)) as (_ & vs & Hbf & Hpk & Hco & _).
  simpl in Hbf, Hco. rewrite Hbf, Hco.
  pose proof (classify_indices_range _ _ _ _ _ _ _ Hrun) as Hrange.
  pose proof (classify_indices_ok _ _ _ _ _ _ _ Hrun) as (_ & Hkeep & _ & Hrole).
  apply Forall2_same_length_lookup. split; [by eapply Forall2_length|].
  intros i f v Hf Hv.
  pose proof (Forall2_lookup_lr _ _ _ _ _ _ Hpk Hf Hv) as (Hvalid & Hd & _).
  rewrite Hrange, Hd. unfold value_index in *.
  destruct (factor_function f) as [count|count] eqn:Hfun; simpl.
  - split; [done|]. rewrite Hkeep, Hd; [done|]. by rewrite Hd.
  - split; [done|].
    assert (Hco_in : mkMonomialCoefficient (index v) count
                     ∈ concat (zip_with new_coefficients (factors m) vs)).
    { apply elem_of_concat. exists (new_coefficients f v). split.
      - unfold new_coefficients. rewrite Hfun. by left.
      - apply list_elem_of_lookup. exists i.
        by rewrite lookup_zip_with, Hf, Hv. }
    split; [|done].
    assert (Hint : index v ∈ extract_internal_indices (st_heap st) (st_self st) None).
    { apply list_elem_of_filter. split; [by rewrite Hd|].
      rewrite Hbf. apply elem_of_concat. eexists. split; [|
        apply list_elem_of_fmap; exists v; split; [reflexivity|];
        by apply list_elem_of_lookup; exists i].
      by left. }
    assert (Hext : index v ∈ extract_external_indices (st_heap st) (st_self st) None).
    { apply list_elem_of_filter. split; [by rewrite Hd|].
      rewrite Hco. apply elem_of_app. left.
      apply list_elem_of_fmap. eexists. split; [|exact Hco_in]. done. }
    destruct (Hrole (index v)) as (role & Hcl & ->);
      [apply elem_of_app; by left|done|by rewrite Hd|].
    f_equal. eapply classification_both_sides; [| |done]; by apply occurrences_pos.
Qed.

(** ** [extract_unique_indices] *)

Lemma unique_fold_spec (l : list ref) :
  ∀ acc : list ref,
  NoDup acc →
  let r := foldl (λ indices index,
                    if bool_decide (index ∉ indices) then indices ++ [index]
                    else indices) acc l in
  NoDup r ∧ (∀ i, i ∈ r ↔ i ∈ acc ∨ i ∈ l)
  ∧ (NoDup (acc ++ l) → r = acc ++ l).
Proof.
  induction l as [|x l IH]; intros acc Hacc; simpl.
  - rewrite app_nil_r. split_and!; [done| |done].
    intros i. rewrite elem_of_nil. tauto.
  - case_bool_decide as Hx.
    + destruct (IH (acc ++ [x])) as (Hnd & Hin & Hid).
      { apply NoDup_app. split_and!; [done| |apply NoDup_singleton].
        intros y Hy Hyx. apply list_elem_of_singleton in Hyx as ->. done. }
      split_and!; [done| |].
      * intros i. rewrite Hin, elem_of_app, list_elem_of_singleton, elem_of_cons. tauto.
      * intros Hall. rewrite Hid; rewrite <- app_assoc; done.
    + destruct (IH acc Hacc) as (Hnd & Hin & Hid).
      assert (x ∈ acc) by (by destruct (decide (x ∈ acc))).
      split_and!; [done| |].
      * intros i. rewrite Hin, elem_of_cons. split; [tauto|].
        intros [?|[->|?]]; tauto.
      * intros Hall. exfalso. apply NoDup_app in Hall as (_ & Hdis & _).
        apply (Hdis x); [done|by left].
Qed.

(** X11: [extract_unique_indices] has no instance twice, has exactly the
    instances of [extract_indices], and is [extract_indices] itself when
    that has no instance twice; instances are told apart by identity, so
    two instances with the same role and id are both kept. *)
Theorem extract_unique_indices_spec (h : Heap) (self : TransformedMonomial)
    (ty : option IndexType) :
  NoDup (extract_unique_indices h self ty)
  ∧ (∀ i, i ∈ extract_unique_indices h self ty ↔ i ∈ extract_indices h self ty)
  ∧ (NoDup (extract_indices h self ty) →
     extract_unique_indices h self ty = extract_indices h self ty).
Proof.
  unfold extract_unique_indices.
  destruct (unique_fold_spec (extract_indices h self ty) [] (NoDup_nil_2))
    as (Hnd & Hin & Hid).
  split_and!; [done| |done].
  intros i. rewrite Hin, elem_of_nil. tauto.
Qed.

(** ** [transform_monomial_form] *)

Lemma transform_monomials_app (ms1 ms2 : list Monomial) (g : IndexCounters) :
  transform_monomials g (ms1 ++ ms2) =
  '(g1, ts1) ← transform_monomials g ms1;
  '(g2, ts2) ← transform_monomials g1 ms2;
  Ok (g2, ts1 ++ ts2).
Proof.
  revert g. induction ms1 as [|m ms1 IH]; intros g; simpl.
  - by destruct (transform_monomials g ms2) as [[? ?]|].
  - destruct (TransformedMonomial_init g m) as [t|]; [|done]. simpl.
    rewrite IH. destruct (transform_monomials _ ms1) as [[g1 ts1]|]; [|done].
    simpl. by destruct (transform_monomials g1 ms2) as [[? ?]|].
Qed.

Lemma transform_monomials_succeeds (g0 : IndexCounters) :
  ∀ (ms : list Monomial) (g : IndexCounters),
  Forall (λ m, ∃ t, TransformedMonomial_init g0 m = Ok t) ms →
  ∃ g' ts, transform_monomials g ms = Ok (g', ts) ∧ length ts = length ms.
Proof.
  induction ms as [|m ms IH]; intros g Hall; simpl; [by eexists _, _|].
  apply Forall_cons in Hall as [[t Ht] Hall].
  rewrite TransformedMonomial_init_unfold in Ht.
  rewrite TransformedMonomial_init_unfold, Ht. simpl.
  destruct (IH (out_counters t) Hall) as (g' & ts & -> & Hlen). simpl.
  eexists _, _. split; [done|]. simpl. by rewrite Hlen.
Qed.

(** X12: transforming the monomials of a form is all or nothing: when every
    monomial can be transformed the form is, with one result per monomial;
    when one cannot, and those before it can, the form fails with the error
    of that monomial, whatever the counters held. *)
Theorem transform_monomials_all_or_nothing (g g0 : IndexCounters)
    (ms : list Monomial) :
  (Forall (λ m, ∃ t, TransformedMonomial_init g0 m = Ok t) ms →
   ∃ g' ts, transform_monomials g ms = Ok (g', ts) ∧ length ts = length ms)
  ∧ (∀ pre m post e,
       ms = pre ++ m :: post →
       Forall (λ m, ∃ t, TransformedMonomial_init g0 m = Ok t) pre →
       TransformedMonomial_init g0 m = Raise e →
       transform_monomials g ms = Raise e).
Proof.
  split; [apply transform_monomials_succeeds|].
  intros pre m post e -> Hpre Hm.
  rewrite transform_monomials_app.
  destruct (transform_monomials_succeeds g0 pre g Hpre) as (g1 & ts1 & -> & _).
  simpl. rewrite TransformedMonomial_init_unfold in Hm.
  rewrite TransformedMonomial_init_unfold, Hm. done.
Qed.

(* ===================================================================== *)
(** * The further properties at the worked instances *)
(* ===================================================================== *)

Lemma process_factor_empty_component_range_witness :
  process_factor (initial_state laplace_monomial) (free_component_factor empty_valued)
  = Raise IndexError.
Proof.
  apply (process_factor_empty_component_range _ _ 0%nat);
    [reflexivity|reflexivity|simpl; lia].
Defined.

Lemma process_factor_mapping_conflict_witness :
  process_factor (initial_state laplace_monomial) (free_component_factor mixed)
  = Raise (MonomialException "Unable to handle different mappings for index range.").
Proof.
  apply (process_factor_mapping_conflict _ _ 0%nat 1);
    [reflexivity|reflexivity|simpl; lia|simpl; discriminate].
Defined.

Lemma process_factor_uniform_mapping_accepted_witness :
  ∃ st', process_factor (initial_state mass_monomial)
           (free_component_factor raviart_thomas) = Ok st'.
Proof.
  apply (process_factor_uniform_mapping_accepted _ _ 0%nat);
    [reflexivity|reflexivity|simpl; lia|reflexivity].
Defined.

Lemma summation_ids_are_consecutive_witness :
  ids_consistent (out_heap (transformed stale_counters laplace_monomial))
                 (out_counters (transformed stale_counters laplace_monomial)).
Proof.
  apply (summation_ids_are_consecutive stale_counters laplace_monomial).
  vm_compute. reflexivity.
Defined.

Lemma no_index_left_untyped_witness :
  extract_indices (out_heap (transformed stale_counters mass_monomial))
    (out_self (transformed stale_counters mass_monomial)) None = [].
Proof.
  apply (no_index_left_untyped stale_counters mass_monomial).
  vm_compute. reflexivity.
Defined.

Lemma transformed_monomial_structure_witness :
  number <$> coefficients (out_self (transformed stale_counters source_monomial))
  = [4].
Proof.
  destruct (transformed_monomial_structure stale_counters source_monomial
              (transformed stale_counters source_monomial))
    as (_ & Hco & _); [vm_compute; reflexivity|].
  rewrite Hco. reflexivity.
Defined.

Lemma value_index_roles_witness :
  let t := transformed stale_counters source_monomial in
  Forall2 (λ f v,
             index_range (deref (out_heap t) (index v)) =
               py_range (space_dimension (factor_element f))
             ∧ match factor_function f with
               | BasisFunction count =>
                   index_type (deref (out_heap t) (index v)) = Some PRIMARY
                   ∧ index_id (deref (out_heap t) (index v)) = Some count
               | Function count =>
                   index_type (deref (out_heap t) (index v)) = Some SECONDARY
                   ∧ mkMonomialCoefficient (index v) count
                     ∈ coefficients (out_self t)
               end)
          (factors source_monomial) (basis_functions (out_self t)).
Proof.
  apply (value_index_roles stale_counters source_monomial).
  vm_compute. reflexivity.
Defined.

(** Both instances of the argument index of [v v] are kept: they have the
    same role and id but are two objects. *)
Example unique_indices_by_identity :
  let t := transformed stale_counters square_monomial in
  extract_unique_indices (out_heap t) (out_self t) (Some PRIMARY) = [0; 1]%nat
  ∧ deref (out_heap t) 0%nat = deref (out_heap t) 1%nat.
Proof. vm_compute. done. Qed.

Lemma extract_unique_indices_spec_witness :
  let t := transformed stale_counters laplace_monomial in
  NoDup (extract_unique_indices (out_heap t) (out_self t) (Some SECONDARY))
  ∧ extract_unique_indices (out_heap t) (out_self t) (Some PRIMARY)
    = extract_indices (out_heap t) (out_self t) (Some PRIMARY).
Proof.
  intros t.
  destruct (extract_unique_indices_spec (out_heap t) (out_self t) (Some SECONDARY))
    as (Hnd & _ & _).
  destruct (extract_unique_indices_spec (out_heap t) (out_self t) (Some PRIMARY))
    as (_ & _ & Hid).
  split; [exact Hnd|]. apply Hid.
  apply (bool_decide_unpack _). vm_compute. exact I.
Defined.

Lemma transform_monomials_all_or_nothing_witness :
  transform_monomials stale_counters [laplace_monomial; cubic_monomial; mass_monomial]
  = Raise (FFCError "Summation index does not appear exactly twice: ?").
Proof.
  destruct (transform_monomials_all_or_nothing stale_counters stale_counters
              [laplace_monomial; cubic_monomial; mass_monomial]) as [_ Hfail].
  apply (Hfail [laplace_monomial] cubic_monomial [mass_monomial]).
  - reflexivity.
  - repeat constructor. eexists. vm_compute. reflexivity.
  - vm_compute. reflexivity.
Defined.

(* ===================================================================== *)
(** * Further properties of the integral generator *)
(* ===================================================================== *)

Section MoreGeneratorProperties.

Context {Expr MT : Type} `{Countable Expr}.
Variable ufl : UFL Expr MT.
Implicit Types self : IntegralGenerator Expr MT.
Implicit Types st : PartitionState Expr.

(** ** [get_includes] *)

(** X13: the includes are sorted: the boost header, if a Bessel function was
    translated, then [<cmath>], if one of the functions of its table was,
    then [<cstring>], which is always there. *)
Theorem get_includes_spec self :
  get_includes self =
  (if decide (boost_math_names ∩ _ufl_names self ≠ ∅)
   then ["#include <boost/math/special_functions.hpp>"] else [])
  ++ (if decide (cmath_names ∩ _ufl_names self ≠ ∅)
      then ["#include <cmath>"] else [])
  ++ ["#include <cstring>"].
Proof.
  unfold get_includes.
  destruct (decide (cmath_names ∩ _ufl_names self ≠ ∅)) as [Hc|Hc],
           (decide (boost_math_names ∩ _ufl_names self ≠ ∅)) as [Hb|Hb].
  - rewrite !bool_decide_eq_true_2 by done. vm_compute. reflexivity.
  - rewrite (bool_decide_eq_true_2 _ Hc), (bool_decide_eq_false_2 _ Hb).
    vm_compute. reflexivity.
  - rewrite (bool_decide_eq_false_2 _ Hc), (bool_decide_eq_true_2 _ Hb).
    vm_compute. reflexivity.
  - rewrite !bool_decide_eq_false_2 by done. vm_compute. reflexivity.
Qed.

(** ** The names [generate_partition] collects *)

Lemma get_includes_cmath self :
  cmath_names ∩ _ufl_names self ≠ ∅ → "#include <cmath>" ∈ get_includes self.
Proof.
  intros Hc. unfold get_includes. rewrite (bool_decide_eq_true_2 _ Hc).
  rewrite merge_sort_Permutation, elem_of_elements.
  case_bool_decide; set_solver.
Qed.

Lemma generate_partition_step_names (b : Backend Expr MT) (symbol : CExpr)
    (V : list Expr) (trs : list (Z * Z)) (np : Z) st st' (i : nat) :
  generate_partition_step ufl b symbol V trs np st i = Ok st' →
  ∃ v, V !! i = Some v
       ∧ ps_ufl_names st' =
         ps_ufl_names st ∪
         list_to_set (_ufl_handler_name_ ufl <$> active_operators ufl V [i])
       ∧ length (ps_intermediates st') =
         (length (ps_intermediates st)
          + length (filter (λ v, is_Condition ufl v = false)
                           (active_operators ufl V [i])))%nat
       ∧ (is_modified_terminal ufl v = false →
          Forall (λ op, is_Some (ps_vaccesses st !! op)) (ufl_operands ufl v)).
Proof.
  unfold generate_partition_step, list_getitem, active_operators. simpl.
  destruct (V !! i) as [v|]; [|done]. simpl. intros Hrun. exists v.
  split; [done|]. rewrite filter_cons, filter_nil.
  destruct (is_modified_terminal ufl v) eqn:Hmt.
  - destruct (trs !! i); [|done]. simpl in Hrun. injection Hrun as <-. simpl.
    split_and!; [by rewrite (right_id_L ∅ (∪))|lia|done].
  - destruct (lookup_operands _ _) as [vops|] eqn:Hops; [|done]. simpl in Hrun.
    assert (Forall (λ op, is_Some (ps_vaccesses st !! op)) (ufl_operands ufl v))
      as Hall.
    { clear Hrun. revert vops Hops.
      induction (ufl_operands ufl v) as [|op ops IH]; intros vops Hops;
        [constructor|].
      simpl in Hops. unfold dict_getitem in Hops.
      destruct (ps_vaccesses st !! op) eqn:Hop; [|done]. simpl in Hops.
      destruct (lookup_operands _ ops) as [rest|]; [|done].
      constructor; [by eexists|]. by eapply IH. }
    simpl. rewrite filter_cons, filter_nil.
    rewrite (right_id_L ∅ (∪)).
    destruct (is_Condition ufl v) eqn:Hc; injection Hrun as <-; simpl.
    + split_and!; [done|lia|done].
    + rewrite length_app. simpl. split_and!; [done|lia|done].
Qed.

Lemma active_operators_cons (V : list Expr) (i : nat) (idxs : list nat) :
  active_operators ufl V (i :: idxs) =
  active_operators ufl V [i] ++ active_operators ufl V idxs.
Proof.
  unfold active_operators. simpl. destruct (V !! i); [|done].
  rewrite !filter_cons, filter_nil. by case_decide.
Qed.

Lemma generate_partition_loop_names (b : Backend Expr MT) (symbol : CExpr)
    (V : list Expr) (trs : list (Z * Z)) (np : Z) :
  ∀ (idxs : list nat) st st',
  generate_partition_loop ufl b symbol V trs np st idxs = Ok st' →
  ps_ufl_names st' =
    ps_ufl_names st ∪
    list_to_set (_ufl_handler_name_ ufl <$> active_operators ufl V idxs)
  ∧ length (ps_intermediates st') =
    (length (ps_intermediates st)
     + length (filter (λ v, is_Condition ufl v = false)
                      (active_operators ufl V idxs)))%nat
  ∧ Forall (λ v, Forall (λ op, is_Some (ps_vaccesses st' !! op))
                        (ufl_operands ufl v))
           (active_operators ufl V idxs).
Proof.
  induction idxs as [|i idxs IH]; intros st st' Hrun; simpl in Hrun.
  - injection Hrun as <-. unfold active_operators. simpl.
    split_and!; [by rewrite (right_id_L ∅ (∪))|lia|constructor].
  - destruct (generate_partition_step _ _ _ _ _ _ _ _) as [st1|] eqn:Hstep; [|done].
    simpl in Hrun.
    pose proof (generate_partition_loop_memo ufl _ _ _ _ _ _ _ _ Hrun)
      as (_ & Hmono & _).
    apply IH in Hrun as (Hnames & Hlen & Hclosed).
    pose proof (generate_partition_step_memo ufl _ _ _ _ _ _ _ _ Hstep)
      as (v' & a & Hv' & Hva).
    apply generate_partition_step_names in Hstep as (v & Hv & Hn1 & Hl1 & Hops).
    rewrite active_operators_cons, fmap_app, list_to_set_app_L, filter_app,
      length_app.
    split_and!.
    + rewrite Hnames, Hn1. by rewrite (assoc_L (∪)).
    + lia.
    + apply Forall_app. split; [|done].
      unfold active_operators. simpl. rewrite Hv. simpl.
      rewrite filter_cons, filter_nil. case_decide as Hmt; [|constructor].
      constructor; [|constructor].
      eapply Forall_impl; [by apply Hops|]. simpl. intros op Hop.
      apply Hmono. rewrite Hva.
      destruct (decide (v' = op)) as [->|];
        [by rewrite lookup_insert_eq|by rewrite lookup_insert_ne].
Qed.

(** X14: a successful [generate_partition] has added to [_ufl_names] the handler
    names of exactly the operator nodes it visited; so a visited operator
    whose handler is in the [<cmath>] table makes [get_includes] ask for
    [<cmath>]. *)
Theorem generate_partition_collects_names self (symbol : CExpr) (V : list Expr)
    (partition : list bool) (trs : list (Z * Z)) (np : Z) self'
    (parts : list CStatement) :
  generate_partition ufl self symbol V partition trs np = Ok (self', parts) →
  let operators := active_operators ufl V (partition_indices partition) in
  _ufl_names self' =
    _ufl_names self ∪ list_to_set (_ufl_handler_name_ ufl <$> operators)
  ∧ ∀ v, v ∈ operators → _ufl_handler_name_ ufl v ∈ cmath_names →
         "#include <cmath>" ∈ get_includes self'.
Proof.
  intros Hgen operators. unfold generate_partition in Hgen.
  destruct (get_vaccesses self np) as [va|]; [|done]. simpl in Hgen.
  destruct (generate_partition_loop _ _ _ _ _ _ _ _) as [st'|] eqn:Hloop; [|done].
  simpl in Hgen. injection Hgen as <- _.
  apply generate_partition_loop_names in Hloop as (Hnames & _ & _).
  simpl in *. split; [done|].
  intros v Hv Hc. apply get_includes_cmath. simpl. rewrite Hnames.
  intros Hempty. unfold operators in *.
  assert (_ufl_handler_name_ ufl v ∈
          cmath_names ∩ (_ufl_names self ∪
            list_to_set (_ufl_handler_name_ ufl <$>
               active_operators ufl V (partition_indices partition)))) as Hin.
  { apply elem_of_intersection. split; [done|].
    apply elem_of_union. right. apply elem_of_list_to_set.
    apply list_elem_of_fmap. by exists v. }
  rewrite Hempty in Hin. by apply not_elem_of_empty in Hin.
Qed.

(** X15: on success every operand of every operator node the partition visited
    has an access in the memo of the point count: an operand that has not
    been visited when its operator is reached raises [KeyError] instead. *)
Theorem generate_partition_operands_resolved self (symbol : CExpr) (V : list Expr)
    (partition : list bool) (trs : list (Z * Z)) (np : Z) :
  (∀ self' parts,
     generate_partition ufl self symbol V partition trs np = Ok (self', parts) →
     ∃ va', get_vaccesses self' np = Ok va'
            ∧ ∀ v op, v ∈ active_operators ufl V (partition_indices partition) →
                      op ∈ ufl_operands ufl v → is_Some (va' !! op))
  ∧ (∀ (b : Backend Expr MT) st (i : nat) (v op : Expr),
       V !! i = Some v → is_modified_terminal ufl v = false →
       op ∈ ufl_operands ufl v → ps_vaccesses st !! op = None →
       generate_partition_step ufl b symbol V trs np st i = Raise KeyError).
Proof.
  split.
  - intros self' parts. unfold generate_partition.
    destruct (get_vaccesses self np) as [va|] eqn:Hva; [|done]. simpl.
    destruct (generate_partition_loop _ _ _ _ _ _ _ _) as [st'|] eqn:Hloop; [|done].
    simpl. intros [= <- _].
    apply generate_partition_loop_names in Hloop as (_ & _ & Hclosed).
    exists (ps_vaccesses st'). split.
    + rewrite (get_vaccesses_store _ _ _ va) by done. by rewrite decide_True.
    + intros v op Hv Hop.
      pose proof (proj1 (Forall_forall _ _) Hclosed v Hv) as Hops.
      by apply (proj1 (Forall_forall _ _) Hops op).
  - intros b st i v op Hv Hmt Hop Hnone.
    unfold generate_partition_step, list_getitem. rewrite Hv. simpl. rewrite Hmt.
    assert (lookup_operands (ps_vaccesses st) (ufl_operands ufl v) = Raise KeyError)
      as ->; [|done].
    induction (ufl_operands ufl v) as [|o ops IH]; [by apply elem_of_nil in Hop|].
    simpl. unfold dict_getitem at 1.
    destruct (ps_vaccesses st !! o) eqn:Ho; [|done]. simpl.
    apply elem_of_cons in Hop as [->|Hop]; [congruence|].
    by rewrite IH.
Qed.

(** ** The statements of a partition *)


(** ** [generate_quadrature_tables] *)

Lemma elem_of_sorted_keys {A} (d : gmap Z A) (n : Z) :
  n ∈ sorted_keys d ↔ is_Some (d !! n).
Proof.
  unfold sorted_keys. rewrite merge_sort_Permutation, list_elem_of_fmap. split.
  - intros ([k x] & -> & Hin). apply elem_of_map_to_list in Hin. by eexists.
  - intros [x Hx]. exists (n, x). split; [done|]. by apply elem_of_map_to_list.
Qed.

Lemma quadrature_tables_loop_checks self :
  ∀ (todo : list Z) (parts parts' : list CStatement),
  quadrature_tables_loop self todo parts = Ok parts' →
  ∀ n points weights,
    n ∈ todo → quadrature_rules (ir self) !! n = Some (points, weights) →
    Z.of_nat (length weights) = n ∧ Z.of_nat (length points) = n
    ∧ points ≠ [] ∧ is_Some (expr_irs (ir self) !! n).
Proof.
  induction todo as [|k todo IH]; intros parts parts' Hrun n points weights Hn Hrule.
  - by apply elem_of_nil in Hn.
  - simpl in Hrun. unfold dict_getitem in Hrun.
    destruct (quadrature_rules (ir self) !! k) as [[pts w]|] eqn:Hk; [|done].
    simpl in Hrun.
    case_bool_decide as Hw; [|done]. simpl in Hrun.
    destruct (expr_irs (ir self) !! k) as [expr_ir|] eqn:He; [|done].
    simpl in Hrun. unfold list_getitem in Hrun.
    destruct (pts !! 0%nat) as [first|] eqn:Hfirst; [|done]. simpl in Hrun.
    case_bool_decide as Hp; [|done]. simpl in Hrun.
    apply elem_of_cons in Hn as [->|Hn]; [|by eapply IH].
    rewrite Hk in Hrule. injection Hrule as <- <-.
    split_and!; [done|done| |by rewrite He].
    intros ->. done.
Qed.

(** X17: no quadrature tables are made for the custom, cutcell, interface,
    overlap and vertex integrals, whatever the rules are; for the other
    integral types the tables are only made if every rule has as many
    weights and as many points as its number of points says, at least one
    point, and an expression representation for that number of points. *)
Theorem generate_quadrature_tables_checks self :
  (integral_type (ir self) ∈ skip → generate_quadrature_tables self = Ok [])
  ∧ (∀ parts,
       integral_type (ir self) ∉ skip →
       generate_quadrature_tables self = Ok parts →
       ∀ n points weights,
         quadrature_rules (ir self) !! n = Some (points, weights) →
         Z.of_nat (length weights) = n ∧ Z.of_nat (length points) = n
         ∧ points ≠ [] ∧ is_Some (expr_irs (ir self) !! n)).
Proof.
  unfold generate_quadrature_tables. split.
  - intros Hskip. by rewrite bool_decide_eq_true_2.
  - intros parts Hskip. rewrite bool_decide_eq_false_2 by done.
    destruct (quadrature_tables_loop _ _ _) as [ps|] eqn:Hloop; [|done].
    intros _ n points weights Hrule.
    eapply quadrature_tables_loop_checks; [done| |done].
    apply elem_of_sorted_keys. by eexists.
Qed.

(** ** [generate] *)

Lemma generate_loop_output (all : list Z) :
  ∀ (todo : list Z) self (parts : list CStatement) self' (parts' : list CStatement),
  generate_loop ufl self all todo parts = Ok (self', parts') →
  ∃ bodies,
    length bodies = length todo
    ∧ parts' = parts ++ (if bool_decide (1 < length all)%nat
                         then Scope <$> bodies else concat bodies).
Proof.
  induction todo as [|np todo IH]; intros self parts self' parts' Hrun;
    simpl in Hrun.
  - injection Hrun as <- <-. exists []. split; [done|].
    case_bool_decide; by rewrite app_nil_r.
  - destruct (generate_unstructured_partition _ _ _ _) as [[self1 ps1]|]; [|done].
    simpl in Hrun.
    destruct (generate_dofblock_partition _ _ _ _) as [ps2|]; [|done].
    simpl in Hrun.
    destruct (generate_quadrature_loops _ _ _) as [[self2 ps3]|]; [|done].
    simpl in Hrun.
    apply IH in Hrun as (bodies & Hlen & ->).
    exists (((ps1 ++ ps2) ++ ps3) :: bodies). split; [simpl; by rewrite Hlen|].
    case_bool_decide; simpl; by rewrite <- !app_assoc.
Qed.

(** X18: the body [generate] returns is, in this order: the quadrature tables,
    the element tables, the reset of the element tensor, and then one body per
    number of quadrature points, each in a scope of its own when there is
    more than one number of points and spliced in otherwise. *)
Theorem generate_output_order self self' (s : CStatement) :
  generate ufl self = Ok (self', s) →
  ∃ tables bodies,
    generate_quadrature_tables self = Ok tables
    ∧ length bodies = length (sorted_keys (expr_irs (ir self)))
    ∧ s = StatementList
            (tables ++ generate_element_tables self ++ generate_tensor_reset self
             ++ (if bool_decide (1 < length (sorted_keys (expr_irs (ir self))))%nat
                 then Scope <$> bodies else concat bodies)).
Proof.
  rewrite generate_unfold.
  destruct (generate_quadrature_tables self) as [tables|]; [|done]. simpl.
  destruct (generate_loop _ _ _ _ _) as [[self1 parts]|] eqn:Hloop; [|done].
  simpl. unfold generate_finishing_statements.
  case_bool_decide; [done|]. simpl. intros [= <- <-].
  apply generate_loop_output in Hloop as (bodies & Hlen & ->).
  exists tables, bodies. split_and!; [done..|].
  by rewrite app_nil_r, <- !app_assoc.
Qed.

(** X19: an integral of type "expression" is never generated: whatever the rest
    of the representation is, [generate] raises, and when everything before
    the finishing statements went through, it raises the error of
    [generate_finishing_statements]. *)
Theorem generate_expression_unsupported self :
  integral_type (ir self) = "expression" →
  (∀ r, generate ufl self ≠ Ok r)
  ∧ (∀ tables self1 parts,
       let all_num_points := sorted_keys (expr_irs (ir self)) in
       generate_quadrature_tables self = Ok tables →
       generate_loop ufl (reset_vaccesses self all_num_points)
         all_num_points all_num_points
         ((tables ++ generate_element_tables self) ++ generate_tensor_reset self)
       = Ok (self1, parts) →
       generate ufl self =
       Raise (FFCError "Expression generation not implemented yet.")).
Proof.
  intros Hty. split.
  - intros r. rewrite generate_unfold.
    destruct (generate_quadrature_tables self) as [tables|]; [|done]. simpl.
    destruct (generate_loop _ _ _ _ _) as [[self1 parts]|] eqn:Hloop; [|done].
    simpl. apply generate_loop_spec in Hloop as (Hir & _ & _).
    unfold generate_finishing_statements. rewrite Hir. simpl.
    by rewrite bool_decide_eq_true_2.
  - intros tables self1 parts all Htables Hloop.
    rewrite generate_unfold, Htables. simpl. fold all. rewrite Hloop. simpl.
    apply generate_loop_spec in Hloop as (Hir & _ & _).
    unfold generate_finishing_statements. rewrite Hir. simpl.
    by rewrite bool_decide_eq_true_2.
Qed.

(** ** [generate_element_tables] *)

Lemma omap_lookup_items {A B} (m : gmap string A) (g : string → A → B) :
  ∀ l : list (string * A),
  (∀ k x, (k, x) ∈ l → m !! k = Some x) →
  omap (λ k, x ← m !! k; Some (g k x)) (fst <$> l) = (λ kx, g kx.1 kx.2) <$> l.
Proof.
  induction l as [|[k x] l IH]; intros Hl; [done|].
  simpl. rewrite (Hl k x) by left. simpl. f_equal.
  apply IH. intros k' x' Hin. apply Hl. by right.
Qed.

(** X20: for one number of points, the element tables are declared under one
    comment: every table of the representation is declared, under its name
    and with its shape and values, and there are as many declarations as
    tables.  Without tables nothing is emitted, not even the comment. *)
Theorem element_tables_for_spec self (np : Z) (tables : gmap string Table) :
  (tables = ∅ → element_tables_for self np tables = [])
  ∧ (tables ≠ ∅ →
     ∃ comment decls,
       element_tables_for self np tables = Comment comment :: decls
       ∧ length decls = size tables
       ∧ ∀ name d,
           d ∈ decls ∧ (∃ sh vs al, d = ArrayDecl "static const double"
                                          (Symbol name) sh vs al)
           ↔ ∃ table, tables !! name = Some table
                ∧ d = ArrayDecl "static const double" (Symbol name)
                        (table_shape table) (Some (table_values table))
                        (alignas (ir self))).
Proof.
  unfold element_tables_for. split.
  - intros ->. by rewrite bool_decide_eq_false_2 by (intros Hne; by apply Hne).
  - intros Hne. rewrite bool_decide_eq_true_2 by done.
    eexists _, _. split; [done|].
    assert (Hperm :
      omap (λ name, table ← tables !! name;
              Some (ArrayDecl "static const double" (Symbol name)
                      (table_shape table) (Some (table_values table))
                      (alignas (ir self))))
           (sorted_names tables)
      ≡ₚ (λ kx : string * Table,
            ArrayDecl "static const double" (Symbol kx.1) (table_shape kx.2)
              (Some (table_values kx.2)) (alignas (ir self)))
         <$> map_to_list tables).
    { unfold sorted_names. rewrite merge_sort_Permutation.
      rewrite (omap_lookup_items tables
                 (λ name table,
                    ArrayDecl "static const double" (Symbol name)
                      (table_shape table) (Some (table_values table))
                      (alignas (ir self)))); [done|].
      intros k x Hin. by apply elem_of_map_to_list. }
    split.
    + rewrite Hperm, length_fmap. by rewrite length_map_to_list.
    + intros name d. rewrite Hperm, list_elem_of_fmap. split.
      * intros [([k table] & -> & Hin) (sh & vs & al & Heq)].
        apply elem_of_map_to_list in Hin. simpl in *.
        injection Heq as Hk _ _ _. exists table. by simplify_eq.
      * intros (table & Hlook & ->). split; [|by eexists _, _, _].
        exists (name, table). split; [done|]. by apply elem_of_map_to_list.
Qed.

(** ** The loop nest of a dof block *)

Lemma result_bind_Ok {A B} (m : result A) (f : A → result B) (y : B) :
  m ≫= f = Ok y → ∃ x, m = Ok x ∧ f x = Ok y.
Proof. destruct m as [x|e]; [|done]. by exists x. Qed.

Lemma result_map_Forall2 {A B} (f : A → result B) :
  ∀ (l : list A) (ys : list B),
  result_map f l = Ok ys → Forall2 (λ x y, f x = Ok y) l ys.
Proof.
  induction l as [|x l IH]; intros ys Hrun; simpl in Hrun.
  - injection Hrun as <-. constructor.
  - destruct (f x) as [y|] eqn:Hx; [|done]. simpl in Hrun.
    destruct (result_map f l) as [ys'|]; [|done]. simpl in Hrun.
    injection Hrun as <-. constructor; [done|]. by apply IH.
Qed.

Lemma loop_nest_ForRange (i b e : CExpr) (body : CStatement) :
  loop_nest (ForRange i b e [body]) =
  ((i, b, e) :: (loop_nest body).1, (loop_nest body).2).
Proof. simpl. by destruct (loop_nest body). Qed.

Lemma wrap_in_loop_nest_spec (b : Backend Expr MT) (dofblock : DofBlock)
    (ttypes : list string) (A_indices : list CExpr) :
  (∀ i tt ia, ttypes !! i = Some tt → tt ≠ "quadrature" →
              A_indices !! i = Some ia → ia = argument_loop_index b (Z.of_nat i)) →
  ∀ (todo : list nat) (body s : CStatement),
  wrap_in_loop_nest dofblock ttypes A_indices todo body = Ok s →
  loop_nest s =
  (omap (axis_loop b dofblock ttypes) (reverse todo) ++ (loop_nest body).1,
   (loop_nest body).2).
Proof.
  intros HA. induction todo as [|i todo IH]; intros body s Hrun; simpl in Hrun.
  - injection Hrun as <-. by destruct (loop_nest body).
  - unfold list_getitem in Hrun.
    destruct (ttypes !! i) as [tt|] eqn:Htt; [|done]. simpl in Hrun.
    rewrite reverse_cons, omap_app. simpl. unfold axis_loop at 2. rewrite Htt. simpl.
    destruct (decide (tt ≠ "quadrature")) as [Hq|Hq].
    + rewrite (bool_decide_eq_true_2 _ Hq) in Hrun |- *.
      unfold DofBlock in *.
      destruct (dofblock !! i) as [dofrange|] eqn:Hd; simpl in Hrun; [|done].
      destruct (A_indices !! i) as [ia|] eqn:Hia; simpl in Hrun; [|done].
      apply IH in Hrun. rewrite Hrun, loop_nest_ForRange. simpl.
      rewrite (HA i tt ia) by done. by rewrite <- app_assoc.
    + rewrite (bool_decide_eq_false_2 _ Hq) in Hrun |- *.
      apply IH in Hrun. rewrite Hrun. simpl. by rewrite app_nil_r.
Qed.

(** X21: the statement of one contribution is an accumulation into the element
    tensor at the flattened index, inside one loop per axis that is not a
    quadrature axis, the loop of the first such axis outermost; each loop
    runs over the range of its axis in the dof block with the argument loop
    index of that axis, and a quadrature axis is indexed with the loop index
    of the quadrature loop. *)
Theorem dofblock_contribution_loop_nest self (expr_ir : ExprIR Expr MT)
    (va : gmap Expr CExpr) (np : Z) (dofblock : DofBlock) (data : Contribution)
    (s : CStatement) :
  dofblock_contribution ufl self expr_ir va np dofblock data = Ok s →
  ∃ A_indices term,
    loop_nest s =
      (omap (axis_loop (backend self) dofblock (ttypes data))
            (seq 0 (length (unames data))),
       AssignAdd (ArrayAccess (element_tensor (backend self))
                    (FlattenedIndices A_indices (tensor_shape (ir self))))
                 term)
    ∧ Forall2 (λ i ia, ∃ tt,
                 ttypes data !! i = Some tt
                 ∧ ia = if bool_decide (tt = "quadrature")
                        then quadrature_loop_index (backend self) np
                        else argument_loop_index (backend self) (Z.of_nat i))
              (seq 0 (length (unames data))) A_indices.
Proof.
  unfold dofblock_contribution. intros Hrun.
  apply result_bind_Ok in Hrun as (v & _ & Hrun).
  apply result_bind_Ok in Hrun as (factors & _ & Hrun).
  apply result_bind_Ok in Hrun as (A_indices & HA & Hrun).
  apply result_bind_Ok in Hrun as (accesses & _ & Hwrap).
  apply result_map_Forall2 in HA.
  assert (HA' : Forall2 (λ i ia, ∃ tt,
                 ttypes data !! i = Some tt
                 ∧ ia = if bool_decide (tt = "quadrature")
                        then quadrature_loop_index (backend self) np
                        else argument_loop_index (backend self) (Z.of_nat i))
              (seq 0 (length (unames data))) A_indices).
  { eapply Forall2_impl; [done|]. simpl. intros i ia. unfold list_getitem.
    destruct (ttypes data !! i) as [tt|]; [|done]. simpl.
    intros Hia. exists tt. split; [done|]. by case_bool_decide; injection Hia. }
  eapply (wrap_in_loop_nest_spec (backend self)) in Hwrap.
  - eexists _, _. split; [|exact HA']. rewrite Hwrap, reverse_involutive. simpl.
    by rewrite app_nil_r.
  - intros i tt ia Htt Hq Hia.
    destruct (Forall2_lookup_r _ _ _ _ _ HA' Hia) as (i' & Hi' & tt' & Htt' & ->).
    apply lookup_seq in Hi' as [-> _]. simpl in Htt'.
    rewrite Htt in Htt'. injection Htt' as <-. by rewrite bool_decide_eq_false_2.
Qed.

Lemma wrap_in_loop_nest_core (dofblock : DofBlock) (ttypes : list string)
    (A_indices : list CExpr) :
  ∀ (todo : list nat) (body s : CStatement),
  wrap_in_loop_nest dofblock ttypes A_indices todo body = Ok s →
  (loop_nest s).2 = (loop_nest body).2.
Proof.
  induction todo as [|i todo IH]; intros body s Hrun; simpl in Hrun.
  - by injection Hrun as <-.
  - apply result_bind_Ok in Hrun as (tt & _ & Hrun).
    case_bool_decide.
    + apply result_bind_Ok in Hrun as (dofrange & _ & Hrun).
      apply result_bind_Ok in Hrun as (ia & _ & Hrun).
      apply IH in Hrun. by rewrite Hrun, loop_nest_ForRange.
    + by apply IH.
Qed.

(** X22: the dof block partition has one statement per contribution, and each of
    them accumulates into the element tensor: inside its loops there is an
    [+=] on an entry of the element tensor and nothing else, so the
    partition never overwrites what the tensor holds. *)
Theorem generate_dofblock_partition_accumulates self (np : Z) (p : Partition)
    (parts : list CStatement) :
  generate_dofblock_partition ufl self np p = Ok parts →
  ∃ expr_ir,
    expr_irs (ir self) !! np = Some expr_ir
    ∧ length parts =
      sum_list ((λ item, length item.2)
                  <$> sorted_items (block_contributions expr_ir p))
    ∧ Forall (λ s, ∃ idx term,
                (loop_nest s).2 =
                AssignAdd (ArrayAccess (element_tensor (backend self)) idx) term)
             parts.
Proof.
  unfold generate_dofblock_partition, dict_getitem. intros Hrun.
  destruct (expr_irs (ir self) !! np) as [expr_ir|]; [|done]. simpl in Hrun.
  apply result_bind_Ok in Hrun as (va & _ & Hrun).
  apply result_bind_Ok in Hrun as (pss & Hmap & [= <-]).
  exists expr_ir. split; [done|].
  apply result_map_Forall2 in Hmap.
  induction Hmap as [|item ps items pss Hitem _ [IHlen IHall]]; [by split|].
  apply result_map_Forall2 in Hitem. simpl. split.
  - rewrite length_app, IHlen. f_equal. by apply Forall2_length in Hitem.
  - apply Forall_app. split; [|done].
    clear IHlen IHall. induction Hitem as [|data s datas ps Hdata _ IH]; [done|].
    constructor; [|done]. clear IH. unfold dofblock_contribution in Hdata.
    apply result_bind_Ok in Hdata as (v & _ & Hdata).
    apply result_bind_Ok in Hdata as (factors & _ & Hdata).
    apply result_bind_Ok in Hdata as (A_indices & _ & Hdata).
    apply result_bind_Ok in Hdata as (accesses & _ & Hwrap).
    apply wrap_in_loop_nest_core in Hwrap. rewrite Hwrap. simpl. by eexists _, _.
Qed.

End MoreGeneratorProperties.

(* ===================================================================== *)
(** * The further properties of the generator at the worked instances *)
(* ===================================================================== *)

Example includes_after_square_root :
  get_includes sqrt_partition.1 = ["#include <cmath>"; "#include <cstring>"].
Proof. vm_compute. reflexivity. Qed.

Lemma generate_partition_collects_names_witness :
  _ufl_names sqrt_partition.1 =
    _ufl_names (reset_vaccesses (example_generator [3]) [1; 2])
    ∪ list_to_set (_ufl_handler_name_ sqrt_ufl
                     <$> active_operators sqrt_ufl ["x"; "sqrt(x)"]
                           (partition_indices [true; true]))
  ∧ "#include <cmath>" ∈ get_includes sqrt_partition.1.
Proof.
  pose proof (generate_partition_collects_names sqrt_ufl
                (reset_vaccesses (example_generator [3]) [1; 2]) (Symbol "s1")
                ["x"; "sqrt(x)"] [true; true] [(0, 1); (0, 1)] 1
                sqrt_partition.1 sqrt_partition.2) as Hthm.
  destruct Hthm as [Hnames Hcmath]; [vm_compute; reflexivity|].
  split; [exact Hnames|].
  apply (Hcmath "sqrt(x)").
  - apply (bool_decide_unpack _). vm_compute. exact I.
  - apply (bool_decide_unpack _). vm_compute. exact I.
Defined.

Lemma generate_partition_operands_resolved_witness :
  (∃ va', get_vaccesses whole_partition.1 1 = Ok va' ∧ is_Some (va' !! "x<y"))
  ∧ generate_partition_step example_ufl example_backend (Symbol "s1")
      ["x"; "y"; "x+y"; "x<y"; "f"] [(0, 1); (0, 1); (0, 1); (0, 1); (0, 1)] 1
      (mkPartitionState (∅ : gmap string CExpr) ∅ [] []) 2 = Raise KeyError.
Proof.
  destruct (generate_partition_operands_resolved example_ufl
              (reset_vaccesses (example_generator [3]) [1; 2]) (Symbol "s1")
              ["x"; "y"; "x+y"; "x<y"; "f"] [true; true; true; true; true]
              [(0, 1); (0, 1); (0, 1); (0, 1); (0, 1)] 1) as [Hok Hraise].
  split.
  - destruct (Hok whole_partition.1 whole_partition.2) as (va' & Hva & Hall);
      [vm_compute; reflexivity|].
    exists va'. split; [exact Hva|].
    apply (Hall "f" "x<y").
    + apply (bool_decide_unpack _). vm_compute. exact I.
    + apply (bool_decide_unpack _). vm_compute. exact I.
  - apply (Hraise example_backend _ 2%nat "x+y" "x");
      [reflexivity|reflexivity| |reflexivity].
    apply (bool_decide_unpack _). vm_compute. exact I.
Defined.


Lemma generate_quadrature_tables_checks_witness :
  generate_quadrature_tables (typed_generator "vertex") = Ok []
  ∧ (Z.of_nat (length [1 # 4; 1 # 4]) = 2
     ∧ Z.of_nat (length [[0%Q; 0%Q]; [1%Q; 0%Q]]) = 2
     ∧ [[0%Q; 0%Q]; [1%Q; 0%Q]] ≠ []
     ∧ is_Some (expr_irs (ir (example_generator [3])) !! 2)).
Proof.
  split.
  - apply (proj1 (generate_quadrature_tables_checks (typed_generator "vertex"))).
    apply (bool_decide_unpack _). vm_compute. exact I.
  - eapply (proj2 (generate_quadrature_tables_checks (example_generator [3]))).
    + apply (bool_decide_unpack _). vm_compute. exact I.
    + vm_compute. reflexivity.
    + vm_compute. reflexivity.
Defined.

Lemma generate_output_order_witness :
  ∃ tables bodies,
    generate_quadrature_tables (example_generator [3]) = Ok tables
    ∧ length bodies = length (sorted_keys (expr_irs (ir (example_generator [3]))))
    ∧ generated.2 =
      StatementList
        (tables ++ generate_element_tables (example_generator [3])
         ++ generate_tensor_reset (example_generator [3])
         ++ (if bool_decide
                  (1 < length (sorted_keys (expr_irs (ir (example_generator [3%Z])))))%nat
             then Scope <$> bodies else concat bodies)).
Proof.
  apply (generate_output_order example_ufl (example_generator [3]) generated.1).
  vm_compute. reflexivity.
Defined.

Lemma generate_expression_unsupported_witness :
  generate example_ufl (typed_generator "expression") ≠ Ok generated
  ∧ generate example_ufl (typed_generator "expression") =
    Raise (FFCError "Expression generation not implemented yet.").
Proof.
  destruct (generate_expression_unsupported example_ufl
              (typed_generator "expression") eq_refl) as [Hnever Herror].
  split; [apply Hnever|].
  eapply Herror; vm_compute; reflexivity.
Defined.

Lemma dofblock_contribution_loop_nest_witness :
  ∃ A_indices term,
    loop_nest quadrature_contribution_statement =
      (omap (axis_loop example_backend [(0, 3); (0, 1)]
               (ttypes quadrature_contribution))
            (seq 0 (length (unames quadrature_contribution))),
       AssignAdd (ArrayAccess (element_tensor example_backend)
                    (FlattenedIndices A_indices [3]))
                 term)
    ∧ Forall2 (λ i ia, ∃ tt,
                 ttypes quadrature_contribution !! i = Some tt
                 ∧ ia = if bool_decide (tt = "quadrature")
                        then quadrature_loop_index example_backend 2
                        else argument_loop_index example_backend (Z.of_nat i))
              (seq 0 (length (unames quadrature_contribution))) A_indices.
Proof.
  apply (dofblock_contribution_loop_nest example_ufl (example_generator [3])
           example_expr_ir {[ "f" := Symbol "f" ]} 2 [(0, 3); (0, 1)]
           quadrature_contribution).
  vm_compute. reflexivity.
Defined.

Example loops_of_the_quadrature_contribution :
  loop_nest quadrature_contribution_statement =
  ([(Symbol "ia0", LiteralInt 0, LiteralInt 3)],
   AssignAdd (ArrayAccess (Symbol "A")
                (FlattenedIndices [Symbol "ia0"; Symbol "iq2"] [3]))
             (Product [Symbol "f"; Symbol "w_x"])).
Proof. vm_compute. reflexivity. Qed.

Lemma generate_dofblock_partition_accumulates_witness :
  ∃ expr_ir,
    expr_irs (ir (varying_body 1).1) !! 1 = Some expr_ir
    ∧ length varying_dofblocks =
      sum_list ((λ item, length item.2)
                  <$> sorted_items (block_contributions expr_ir varying))
    ∧ Forall (λ s, ∃ idx term,
                (loop_nest s).2 =
                AssignAdd (ArrayAccess (element_tensor (backend (varying_body 1).1))
                             idx) term)
             varying_dofblocks.
Proof.
  apply (generate_dofblock_partition_accumulates example_ufl (varying_body 1).1
           1 varying).
  vm_compute. reflexivity.
Defined.

Lemma element_tables_for_spec_witness :
  element_tables_for (example_generator [3]) 1 ∅ = []
  ∧ ∃ comment decls,
      element_tables_for (example_generator [3]) 1
        {[ "FE0" := mkTable [1; 1; 2] [1 # 2; 1 # 2] ]}
      = Comment comment :: decls
      ∧ length decls = 1%nat.
Proof.
  split.
  - apply (proj1 (element_tables_for_spec (example_generator [3]) 1 ∅)).
    reflexivity.
  - destruct (proj2 (element_tables_for_spec (example_generator [3]) 1
                       {[ "FE0" := mkTable [1; 1; 2] [1 # 2; 1 # 2] ]}))
      as (comment & decls & Heq & Hlen & _).
    + apply (bool_decide_unpack _). vm_compute. exact I.
    + exists comment, decls. split; [exact Heq|]. rewrite Hlen. reflexivity.
Defined.
